(* ===== verification/_CoqProject ===== *)
-Q . S2P
Prelude.v
Runtime.v
Interface.v
Printer.v
Driver.v
Bits.v
Block.v
BVector.v
Cursor.v
Codec.v
Serial.v
Aggregator.v
Reference.v
