(* ===== verification/Prelude.v ===== *)
(** * BitMagic set-algebra sample: a verification development

    The repository holds one program, [src/samples/bvsetalgebra/bvsetalgebra.cpp],
    a driver that exercises the BitMagic compressed bit-vector engine: it builds
    small sets, combines them by union and intersection in seven different ways
    (member call, opcode interpreter, STL range, sorted C array, serialized BLOB,
    aggregator, and the same with explicit sizes) and prints each result.  The
    engine itself ([bm.h], [bmalgo.h], [bmserial.h], [bmaggregator.h]) is not part
    of [src/]; its contract is the natural-language specification.

    ** How the development is organised

    The driver is translated from the source, line by line, and stated over
    an interface; the engine is a reference implementation written from the
    specification and proved to meet that interface.  So every theorem about
    the driver holds for any engine that keeps the contract, and the contract
    is known to be satisfiable because an executable engine keeps it.

    ** Files, in dependency order

    - [Prelude] (this file): notation scope, tactics ([case_ifs], [members]),
      hint databases ([bm], [bm_bits], [bm_get]), sizes as optional bounds
      ([size_max], [size_lt]), lists cut short ([proper_prefix]) and strictly
      ascending lists: [listing], the ascending enumeration of the members of
      a list, and its uniqueness; [members_from] and [least_from], the members
      from a bound on and the least of them.
    - [Runtime]: the C++ runtime the driver runs on: the two output streams as
      a list of events, the characters these put on a stream ([render],
      [text]), exceptions as an outcome, the [io] monad that threads both
      with its laws, [try_catch], [std::vector::resize] and [memcpy] on byte
      buffers.
    - [Interface]: what the engine promises to its clients, as type classes:
      [BitVector] (construction, [resize], the member calls [bit_or] and
      [bit_and], the table-driven [combine_operation], array import,
      [optimize], and [positions], the members in ascending order),
      [Enumerator] ([first], [valid], dereference, advance),
      [SerializerOps] (serialize and deserialize-with-operation) with its
      contract [Serializer], and [Aggregator].  Every operation comes with
      its laws, stated on an abstraction ([get_bit] and [bv_size] of a
      vector, [en_rest] of an enumerator) under the invariants [bv_wf] and
      [en_wf]; equivalence of vectors is a setoid with [Proper] instances,
      and the operations are proved to respect it.  The serializer's calls
      and their contract are two classes, because the program is defined
      over the calls alone: what it does when a decoder refuses a buffer is
      a statement about decoders that are not bound by the contract.
    - [Printer]: [print_bvector] (lines 40-50 of the source).  The loop is
      given as the function [print_loop] over the state [loop_state] of its
      two variables, with [loop_cond], [loop_body] and [loop_next] for the
      three parts of the [for] statement, and as the transition system
      [loop_step] on that state and the output written so far.
    - [Driver]: the rest of the program, function by function: [make_BLOB]
      (53-66), the seven blocks of [DemoOR] (72-169), the six blocks of
      [DemoAND] (175-260), [main] (263-280).  The literals of each block are
      parameters of its definition and [DemoOR]/[DemoAND] pass the literals
      of the source; [decode_print] and [attach] are the statements the BLOB
      blocks and the aggregator blocks share.
    - [Bits]: numbers as bit sets: [fits], the ascending list of set positions
      of a number and back, the lowest set position from an offset on, run
      boundaries ([toggles_of_bits], [bits_of_toggles]) and their round trip.
    - [Block]: the four block variants, their content as a number of
      [block_width] bits, canonical form, the dispatch table [combine_block]
      with its short-circuit rules, [optimize_block].
    - [BVector]: the bit vector as a size and a finite map of non-empty
      blocks, with the store operations [get_block] and [set_block]:
      [get_bit], [set_bit], [resize], [positions], [combine_operation] and
      the member calls, the sorted and unsorted array import, [optimize]; the
      instance [reference_bitvector].
    - [Cursor]: the enumerator as a view of a vector and a position; the lazy
      search [find_from] of the next member; the instance
      [reference_enumerator].
    - [Codec]: variable-length integers, block records, the end marker and
      the header; each reader is proved to invert its writer, to consume
      input, and to refuse every proper prefix of what its writer wrote.
    - [Serial]: [serialize] and the streaming [deserialize]; the instances
      [reference_serializer_ops] and [reference_serializer].
    - [Aggregator]: the interleaved scan with short-circuit; the instance
      [reference_aggregator].
    - [Reference]: the theorems of [Printer] and [Driver] that have premises,
      applied to concrete vectors of the reference engine with the premises
      discharged by evaluation.

    ** What is proved

    - Of the loop of [print_bvector]: that it terminates from every state
      (well-foundedness of [loop_step]); that it reaches one exit and no
      other; that [print_loop] computes that exit; the invariant [loop_inv]
      that relates the enumerator, the counter and the output; the bound of
      the counter.
    - Of [print_bvector]: its exact output on both streams, as tokens and as
      characters; that it shows the smallest members in ascending order;
      that it depends on the set and the size only; that ten members already
      produce the ellipsis.
    - Of each block of the demos: the set it prints, characterised by
      membership in the initializer lists, and the size it prints; that the
      opcode, STL, C-array and BLOB forms print what the member call prints;
      that an STL range counts as the set of its elements; that the
      aggregator prints what the left fold of the member calls prints, in
      any order of the operands, whatever its target held and whether or not
      on-the-fly optimization was requested.
    - Of [make_BLOB]: what it leaves in the buffer; that the buffer decodes
      into any destination under any operation, and that no proper prefix of
      it does.
    - Of [DemoOR], [DemoAND] and [main], on every engine that keeps the
      contract: the complete output, as tokens and as characters, that the
      handler is never entered, and the exit status.
    - Of the error path of [main], for any decoder: when the decoder refuses
      the buffer of the sixth block of [DemoOR], what was printed up to
      there, that the rest of the program is skipped, what the handler
      writes, and the exit status, which is 0 all the same.
    - Of the engine: every operation keeps the invariant [bv_wf] and has the
      bitwise meaning the specification gives it; the enumeration is strictly
      ascending and complete, and the cursor's search finds the least member
      from where it starts; optimization and the compression level never
      change a bit; deserialize-with-operation equals decode-then-combine;
      any buffer, malformed or not, leaves a valid destination; a serialized
      vector cut short anywhere is refused, and what follows one in the
      buffer is not looked at; the aggregator's scan with short-circuit equals the left fold of the
      pairwise operator.

    ** Modelling decisions, bounds and fuel

    - Bit positions and the loop counter of [print_bvector] are [N]; the counter
      is proved never to exceed 10, so its 32-bit width does not matter.
    - [print_loop] runs on fuel; [print_bvector] passes 10, the distance of
      the counter from its bound at the start.  The refinement theorem of
      [Printer] shows that this is enough and that more fuel changes nothing
      ([print_loop_steps], [print_loop_exit]).
    - [size()] is an optional bound, as the specification has it; the stream
      records it as a token of its own ([TSize]), and [render] takes the
      characters that stand for "unbounded" as a parameter instead of
      committing to them.
    - How a decode failure is reported neither the source nor the
      specification says: the source discards what [deserialize] returns
      (lines 136-139) and the specification only wants the failure to be
      distinguishable from success.  Here it is an exception ([call]): the
      handler of [main] is the only place where the program could observe a
      failure, and it catches [std::exception].  Every theorem that a block
      or [main] ends normally is proved for engines that keep the contract,
      where no decoding of the program fails; the error path is stated under
      this reading.  [try_catch] catches every exception of the model: an
      exception that is not a [std::exception] is not represented.
    - The driver hands the decoder a pointer without a length.  The buffer is
      a list here and the decoder is given exactly the bytes of the buffer;
      the reference format ends with a marker, and [Serial] proves that its
      decoder does not look at what follows a serialized vector.
    - [make_BLOB] leaves out the scratch block and the third argument of
      [serialize] (a pointer to statistics, 0 in the source); the compression
      level set on the serializer object is an argument of [serialize].
      [memcpy] beyond the end of its destination, which C leaves undefined,
      copies what fits.  The C array of the fifth block of [DemoOR] is the
      list of its elements: the length passed along with the pointer is the
      length of that list.
    - [block_width] is 65536.  It is opaque to the proofs, which use only that
      it is positive, and transparent to evaluation.
    - [varint] runs on the bit length of the number as fuel: each step
      removes seven bits.  [decode_stream] runs on one more than the length
      of the buffer: each item consumes at least two bytes.  Both are proved
      to be enough ([read_varint_varint], [decode_stream_steps],
      [decode_stream_records]).
    - The aggregator stores its sources by value, and a cursor the vector it
      enumerates: the driver never mutates a vector between attaching it and
      combining, nor while it prints it.

    ** Not modelled

    The scratch block ([BM_DECLARE_TEMP_BLOCK]), which has no logical
    content; SIMD dispatch, allocation failure and concurrency (the engine is
    single-threaded by contract); the formatting state of the streams, which
    the program never changes, and buffering ([std::endl] is a line feed); the
    invalidation of an enumerator by a mutation of its vector, which the
    specification leaves undefined and the driver never causes; the layout
    of the block store in memory. *)

From Stdlib Require Import NArith List String Lia Btauto.
From stdpp Require Import base tactics numbers list sorting.

Declare Scope bm_scope.
Delimit Scope bm_scope with bm.

Create HintDb bm discriminated.
Create Rewrite HintDb bm.
Create Rewrite HintDb bm_bits.
Create Rewrite HintDb bm_get.

(** ** Tactics *)

(** [case_ifs] splits on the boolean tests of the goal, turning each into the
    arithmetic fact it decides. *)
Ltac case_ifs :=
  repeat match goal with
  | |- context [ (?a <? ?b)%N ] => destruct (N.ltb_spec a b)
  | |- context [ (?a <=? ?b)%N ] => destruct (N.leb_spec a b)
  | |- context [ (?a =? ?b)%N ] => destruct (N.eqb_spec a b)
  end.

Lemma bool_eq_iff (b c : bool) : (b = true ↔ c = true) → b = c.
Proof. destruct b, c; intuition congruence. Qed.

Lemma xorb_true_iff (b c : bool) :
  xorb b c = true ↔ (b = true ∧ c ≠ true) ∨ (b ≠ true ∧ c = true).
Proof. destruct b, c; simpl; intuition congruence. Qed.

(** [members] proves an equation between boolean membership tests by turning
    both sides into propositions about membership and order. *)
Ltac members_prop :=
  repeat first
    [ rewrite orb_true_iff | rewrite andb_true_iff | rewrite negb_true_iff
    | rewrite xorb_true_iff
    | rewrite bool_decide_eq_true | rewrite bool_decide_eq_false
    | rewrite N.ltb_lt | rewrite N.leb_le | rewrite N.eqb_eq
    | rewrite elem_of_app | rewrite list_elem_of_filter
    | rewrite elem_of_cons | rewrite elem_of_nil ].

Ltac members := apply bool_eq_iff; members_prop; naive_solver.

(** ** Sizes: an optional bound, [None] for unbounded *)

Section sizes.
Implicit Types s t : option N.

Definition size_max s t : option N :=
  match s, t with
  | Some a, Some b => Some (N.max a b)
  | _, _ => None
  end.

Definition size_lt (p : N) s : Prop :=
  match s with Some n => (p < n)%N | None => True end.

Definition size_ltb (p : N) s : bool :=
  match s with Some n => (p <? n)%N | None => true end.

#[export] Instance size_lt_dec p s : Decision (size_lt p s).
Proof. destruct s; simpl; apply _. Defined.

Lemma size_ltb_lt p s : size_ltb p s = true ↔ size_lt p s.
Proof. destruct s; simpl; [apply N.ltb_lt | done]. Qed.

Lemma size_max_comm s t : size_max s t = size_max t s.
Proof. destruct s, t; simpl; f_equal; lia. Qed.

Lemma size_max_assoc s t u : size_max s (size_max t u) = size_max (size_max s t) u.
Proof. destruct s, t, u; simpl; f_equal; lia. Qed.

Lemma size_max_idemp s : size_max s s = s.
Proof. destruct s; simpl; f_equal; lia. Qed.

Lemma size_lt_max_l p s t : size_lt p s → size_lt p (size_max s t).
Proof. destruct s, t; simpl; lia. Qed.

Lemma size_lt_max_r p s t : size_lt p t → size_lt p (size_max s t).
Proof. destruct s, t; simpl; lia. Qed.

End sizes.

#[export] Hint Resolve size_lt_max_l size_lt_max_r : bm.
#[export] Hint Rewrite size_max_idemp : bm.

(** ** Lists: prefixes and suffixes *)

Section lists.
Context {A : Type}.
Implicit Types (x : A) (l k pre suf : list A).

Lemma elem_of_take_list x n l : x ∈ take n l → x ∈ l.
Proof.
  intros Hx. rewrite <-(take_drop n l). apply elem_of_app. by left.
Qed.

(** What a non-empty suffix says of the list it was cut from. *)
Lemma drop_cons_inv n l k x :
  drop n l = x :: k → l !! n = Some x ∧ drop (S n) l = k.
Proof.
  intros Hd. assert (l !! n = Some x) as Hn.
  { by rewrite <-(Nat.add_0_r n), <-lookup_drop, Hd. }
  split; [done|]. rewrite (drop_S _ _ _ Hn) in Hd. by injection Hd.
Qed.

(** [pre] is [l] cut short: a prefix of [l] that is not all of it. *)
Definition proper_prefix pre l : Prop := ∃ suf, suf ≠ [] ∧ l = pre ++ suf.

Lemma proper_prefix_nil pre : ¬ proper_prefix pre [].
Proof. intros (suf & Hne & Hl). symmetry in Hl. by apply app_nil in Hl as [_ ->]. Qed.

Lemma proper_prefix_cons_inv pre x l :
  proper_prefix pre (x :: l) →
  pre = [] ∨ ∃ pre', pre = x :: pre' ∧ proper_prefix pre' l.
Proof.
  intros (suf & Hne & Hl). destruct pre as [|y pre]; [by left|right].
  injection Hl as <- ->. by exists pre; split; [|exists suf].
Qed.

(** A list cut short inside a concatenation is cut in its first part, or
    holds the first part and cuts the second. *)
Lemma proper_prefix_app_inv pre l k :
  proper_prefix pre (l ++ k) →
  proper_prefix pre l ∨ ∃ p, pre = l ++ p ∧ proper_prefix p k.
Proof.
  intros (suf & Hne & Hl). symmetry in Hl.
  apply app_eq_inv in Hl as [(m & -> & ->)|(m & -> & ->)].
  - right. exists m. by split; [|exists suf].
  - destruct m as [|x m]; [|by left; exists (x :: m)].
    right. exists []. rewrite !app_nil_r. by split; [|exists k].
Qed.

Lemma proper_prefix_take n l : n < length l → proper_prefix (take n l) l.
Proof.
  intros Hn. exists (drop n l). split; [|by rewrite take_drop].
  intros Hd%(f_equal length). rewrite length_drop in Hd. cbn in Hd. lia.
Qed.

Lemma proper_prefix_app_r l k : k ≠ [] → proper_prefix l (l ++ k).
Proof. intros Hk. by exists k. Qed.

(** Some and all of three, in any order. *)
Lemma some_of_three (P : A → Prop) a b c a' b' c' :
  [a; b; c] ≡ₚ [a'; b'; c'] → (P a ∨ P b ∨ P c ↔ P a' ∨ P b' ∨ P c').
Proof.
  intros HP. trans (Exists P [a; b; c]); [|rewrite HP];
    rewrite !Exists_cons, Exists_nil; tauto.
Qed.

Lemma all_of_three (P : A → Prop) a b c a' b' c' :
  [a; b; c] ≡ₚ [a'; b'; c'] → (P a ∧ P b ∧ P c ↔ P a' ∧ P b' ∧ P c').
Proof.
  intros HP. trans (Forall P [a; b; c]); [|rewrite HP];
    rewrite !Forall_cons, Forall_nil; tauto.
Qed.

End lists.

(** ** Strictly ascending lists of positions *)

Section ascending.
Implicit Types l k : list N.

Lemma ascending_NoDup l : StronglySorted N.lt l → NoDup l.
Proof.
  induction 1 as [|x l _ IH Hx]; constructor; [|done].
  intros Hin. rewrite Forall_forall in Hx. specialize (Hx _ Hin). lia.
Qed.

(** Two strictly ascending lists with the same members are the same list:
    an enumeration is determined by the set it enumerates. *)
Lemma ascending_ext l k :
  StronglySorted N.lt l → StronglySorted N.lt k →
  (∀ p, p ∈ l ↔ p ∈ k) → l = k.
Proof.
  intros Hl Hk Hlk. apply (StronglySorted_unique_strong N.lt); [|done..|].
  - intros; lia.
  - apply NoDup_Permutation; auto using ascending_NoDup.
Qed.

Lemma ascending_filter (P : N → Prop) `{!∀ x, Decision (P x)} l :
  StronglySorted N.lt l → StronglySorted N.lt (filter P l).
Proof.
  induction 1 as [|x l _ IH Hx]; [constructor|].
  rewrite filter_cons. case_decide; [|done].
  constructor; [done|]. rewrite Forall_forall in Hx |- *.
  intros y [_ Hy]%list_elem_of_filter. auto.
Qed.

Lemma ascending_take n l : StronglySorted N.lt l → StronglySorted N.lt (take n l).
Proof.
  intros Hl. rewrite <-(take_drop n l) in Hl.
  by apply StronglySorted_app_1_l in Hl.
Qed.

Lemma ascending_fmap (f : N → N) l :
  (∀ x y, (x < y)%N → (f x < f y)%N) →
  StronglySorted N.lt l → StronglySorted N.lt (f <$> l).
Proof.
  intros Hf. induction 1 as [|x l _ IH Hx]; cbn; constructor; [done|].
  apply Forall_fmap. eapply Forall_impl; [done|]. cbn. auto.
Qed.

(** Concatenating ascending lists produced from ascending keys, when a
    smaller key produces smaller members. *)
Lemma ascending_bind (f : N → list N) l :
  StronglySorted N.lt l →
  (∀ i, i ∈ l → StronglySorted N.lt (f i)) →
  (∀ i j x y, i ∈ l → j ∈ l → (i < j)%N → x ∈ f i → y ∈ f j → (x < y)%N) →
  StronglySorted N.lt (l ≫= f).
Proof.
  induction 1 as [|i l Hl IH Hi]; intros Hf Hlt; [constructor|].
  rewrite bind_cons. apply StronglySorted_app_2.
  - intros x y Hx [j [Hy Hj]]%list_elem_of_bind.
    rewrite Forall_forall in Hi.
    apply (Hlt i j); auto using list_elem_of_here, list_elem_of_further.
  - apply Hf. left.
  - apply IH.
    + intros j Hj. apply Hf. by right.
    + intros i1 i2 x y ?????. apply (Hlt i1 i2); auto using list_elem_of_further.
Qed.

Lemma ascending_of_le l : StronglySorted N.le l → NoDup l → StronglySorted N.lt l.
Proof.
  induction 1 as [|x l _ IH Hx]; [constructor|].
  intros [Hnin Hnd]%NoDup_cons; constructor; [auto|].
  rewrite Forall_forall in Hx |- *. intros y Hy.
  specialize (Hx y Hy). assert (x ≠ y) by (by intros ->). lia.
Qed.

(** A member below a member of a prefix of an ascending list is in the
    prefix: the prefix holds the smallest members. *)
Lemma ascending_take_closed n l p q :
  StronglySorted N.lt l → q ∈ take n l → p ∈ l → (p < q)%N → p ∈ take n l.
Proof.
  intros Hl Hq Hp Hpq. rewrite <-(take_drop n l) in Hl, Hp.
  apply elem_of_app in Hp as [Hp|Hp]; [done|].
  pose proof (StronglySorted_app_1_elem_of _ _ _ _ _ Hl Hq Hp). lia.
Qed.

(** The first of an ascending list is its least member. *)
Lemma ascending_head_le p k x :
  StronglySorted N.lt (p :: k) → x ∈ p :: k → (p ≤ x)%N.
Proof.
  intros [_ Hp]%StronglySorted_inv [->|Hx]%elem_of_cons; [done|].
  rewrite Forall_forall in Hp. specialize (Hp _ Hx). lia.
Qed.

(** [r] is the least number from [q] on that satisfies [P], or [None] when
    there is none. *)
Definition least_from (P : N → Prop) (q : N) (r : option N) : Prop :=
  match r with
  | Some p => P p ∧ (q ≤ p)%N ∧ ∀ x, P x → (q ≤ x)%N → (p ≤ x)%N
  | None => ∀ x, P x → (x < q)%N
  end.

Lemma least_from_iff (P Q : N → Prop) q r :
  (∀ x, P x ↔ Q x) → least_from P q r → least_from Q q r.
Proof. destruct r; cbn; intros HPQ; setoid_rewrite HPQ; done. Qed.

(** The members of [l] from [q] on. *)
Definition members_from (q : N) l : list N := filter (λ x, q ≤ x)%N l.

Lemma elem_of_members_from q l x : x ∈ members_from q l ↔ x ∈ l ∧ (q ≤ x)%N.
Proof. unfold members_from. rewrite list_elem_of_filter. tauto. Qed.

Lemma members_from_ascending q l :
  StronglySorted N.lt l → StronglySorted N.lt (members_from q l).
Proof. apply ascending_filter. Qed.

Lemma members_from_0 l : members_from 0 l = l.
Proof.
  unfold members_from. induction l as [|x l IH]; [done|].
  by rewrite filter_cons_True, IH by lia.
Qed.

Lemma least_from_unique (P : N → Prop) q r r' :
  least_from P q r → least_from P q r' → r = r'.
Proof.
  destruct r as [p|], r' as [p'|]; cbn; [| | |done].
  - intros (Hp & Hq & Hl) (Hp' & Hq' & Hl'). f_equal.
    specialize (Hl p' Hp' Hq'). specialize (Hl' p Hp Hq). lia.
  - intros (Hp & Hq & _) H'. specialize (H' p Hp). lia.
  - intros H' (Hp & Hq & _). specialize (H' p' Hp). lia.
Qed.

(** The members from [q] on start at the least member from [q] on. *)
Lemma least_members_from q l :
  StronglySorted N.lt l → least_from (.∈ l) q (head (members_from q l)).
Proof.
  intros Hl%(members_from_ascending q).
  destruct (members_from q l) as [|y k] eqn:Hk; cbn.
  - intros x Hx. apply N.lt_nge. intros Hqx.
    by apply (not_elem_of_nil x); rewrite <-Hk, elem_of_members_from.
  - assert (y ∈ l ∧ q ≤ y)%N as [Hy Hqy].
    { apply elem_of_members_from. rewrite Hk. by left. }
    split_and!; [done..|]. intros x Hx Hqx.
    apply (ascending_head_le y k); [done|]. by rewrite <-Hk, elem_of_members_from.
Qed.

Lemma head_members_from q l r :
  StronglySorted N.lt l → least_from (.∈ l) q r → head (members_from q l) = r.
Proof. eauto using least_from_unique, least_members_from. Qed.

Lemma least_head l : StronglySorted N.lt l → least_from (.∈ l) 0 (head l).
Proof.
  intros Hl. pose proof (least_members_from 0 l Hl) as H0.
  by rewrite members_from_0 in H0.
Qed.

(** After a member [p] come the members from [p + 1] on. *)
Lemma members_from_cons p l :
  StronglySorted N.lt l → p ∈ l →
  members_from p l = p :: members_from (p + 1) l.
Proof.
  intros Hl Hp. apply ascending_ext; [by apply members_from_ascending| |].
  - constructor; [by apply members_from_ascending|].
    apply Forall_forall. intros x [_ Hx]%elem_of_members_from. lia.
  - intros x. rewrite elem_of_cons, !elem_of_members_from.
    split; [intros [Hx Hpx]|intros [->|[Hx Hpx]]]; [|split; [done|lia]..].
    destruct (decide (x = p)); [by left|right; split; [done|lia]].
Qed.

(** Starting from the first member found is starting from where the search
    began. *)
Lemma members_from_head q l :
  StronglySorted N.lt l →
  match head (members_from q l) with
  | Some p => members_from p l
  | None => []
  end = members_from q l.
Proof.
  intros Hl. pose proof (members_from_ascending q l Hl) as Hq.
  destruct (members_from q l) as [|p k] eqn:Hk; [done|]. cbn. rewrite <-Hk.
  assert (p ∈ l ∧ q ≤ p)%N as [Hp Hqp].
  { apply elem_of_members_from. rewrite Hk. by left. }
  apply ascending_ext; [by apply members_from_ascending..|].
  intros x. rewrite !elem_of_members_from.
  split; intros [Hx Hle]; (split; [done|]); [lia|].
  apply (ascending_head_le p k); [done|]. by rewrite <-Hk, elem_of_members_from.
Qed.

(** The ascending enumeration of the members of a list. *)
Definition listing l : list N := merge_sort N.le (remove_dups l).

Lemma elem_of_listing p l : p ∈ listing l ↔ p ∈ l.
Proof. unfold listing. by rewrite merge_sort_Permutation, elem_of_remove_dups. Qed.

Lemma listing_ascending l : StronglySorted N.lt (listing l).
Proof.
  apply ascending_of_le.
  - apply (StronglySorted_merge_sort N.le); apply _.
  - unfold listing. rewrite merge_sort_Permutation. apply NoDup_remove_dups.
Qed.

(** Any ascending list with the members of [l] is the listing of [l]. *)
Lemma listing_unique l k :
  StronglySorted N.lt k → (∀ p, p ∈ k ↔ p ∈ l) → k = listing l.
Proof.
  intros Hk Hkl. apply ascending_ext; [done|apply listing_ascending|].
  intros p. by rewrite elem_of_listing.
Qed.

Lemma listing_ext l k : (∀ p, p ∈ l ↔ p ∈ k) → listing l = listing k.
Proof.
  intros Hlk. apply listing_unique; [apply listing_ascending|].
  intros p. by rewrite elem_of_listing.
Qed.

End ascending.

#[export] Hint Resolve ascending_NoDup ascending_filter ascending_take
  listing_ascending : bm.
