(* ===== verification/Runtime.v ===== *)
(** * Runtime: what the driver needs of the C++ runtime

    The driver writes to [std::cout] and [std::cerr], may be interrupted by an
    exception, and copies a serialization buffer into a [std::vector] with
    [resize] and [memcpy].  This file models exactly that much: the output as
    the list of events the program emitted, in order, and the characters
    these events put on a stream; an exception as an outcome that skips the
    rest of a sequence; the [io] monad that threads both; byte buffers as
    lists of [byte]. *)

From Stdlib Require Import NArith Ascii String List DecimalString.
From Stdlib.Strings Require Import Byte.
From stdpp Require Import base tactics list numbers strings.
From S2P Require Import Prelude.

(** ** Output events *)

(** What [operator<<] was applied to: a bit position, a size, a string
    literal, [std::endl]. *)
Inductive token : Type :=
  | TNum (n : N)
  | TSize (s : option N)
  | TStr (s : string)
  | TEndl.

Inductive event : Type :=
  | Cout (t : token)
  | Cerr (t : token).

Inductive outcome (A : Type) : Type :=
  | Normal (a : A)
  | Thrown (what : string).
Arguments Normal {A} a.
Arguments Thrown {A} what.

#[export] Instance token_eq_dec : EqDecision token.
Proof. solve_decision. Defined.

#[export] Instance event_eq_dec : EqDecision event.
Proof. solve_decision. Defined.

#[export] Instance outcome_eq_dec `{EqDecision A} : EqDecision (outcome A).
Proof. solve_decision. Defined.

(** ** The [io] monad: events emitted so far, then how the computation ended *)

Definition io (A : Type) : Type := list event * outcome A.

#[export] Instance io_ret : MRet io := λ A a, ([], Normal a).

#[export] Instance io_bind : MBind io := λ A B f m,
  match m with
  | (out, Normal a) => let '(out', r) := f a in (out ++ out', r)
  | (out, Thrown what) => (out, Thrown what)
  end.

Definition cout (t : token) : io unit := ([Cout t], Normal tt).
Definition cerr (t : token) : io unit := ([Cerr t], Normal tt).
Definition throw {A} (what : string) : io A := ([], Thrown what).

(** [try { body } catch (std::exception& ex) { handler ex.what() }] *)
Definition try_catch {A} (body : io A) (handler : string → io A) : io A :=
  match body with
  | (out, Normal a) => (out, Normal a)
  | (out, Thrown what) => let '(out', r) := handler what in (out ++ out', r)
  end.

(** A library call that reports failure by throwing: the new state of the
    object it mutates, and the exception if there is one.  The source
    discards what [deserialize] returns, so an exception is the only report
    of a failure the program could notice. *)
Definition call {A} (r : A * option string) : io A :=
  match r with
  | (a, None) => mret a
  | (_, Some what) => throw what
  end.

Definition events {A} (m : io A) : list event := m.1.
Definition result {A} (m : io A) : outcome A := m.2.

(** The tokens that reached each stream. *)
Definition stdout {A} (m : io A) : list token :=
  omap (λ e, match e with Cout t => Some t | Cerr _ => None end) (events m).
Definition stderr {A} (m : io A) : list token :=
  omap (λ e, match e with Cerr t => Some t | Cout _ => None end) (events m).

(** ** Rendering: the characters [operator<<] writes

    A number is written in decimal, a string literal as it is, [std::endl]
    as a line feed.  What [size()] returns when a vector has no bound the
    specification does not say: its rendering is the parameter
    [unbounded]. *)

Definition newline : string := String "010"%char EmptyString.

Definition render_N (n : N) : string := NilEmpty.string_of_uint (N.to_uint n).

Definition render (unbounded : string) (t : token) : string :=
  match t with
  | TNum n => render_N n
  | TSize (Some n) => render_N n
  | TSize None => unbounded
  | TStr s => s
  | TEndl => newline
  end.

(** The characters a stream holds after the tokens [ts] were written. *)
Definition text (unbounded : string) (ts : list token) : string :=
  foldr (λ t acc, render unbounded t +:+ acc) EmptyString ts.

(** [m] runs to its end: no exception escapes it. *)
Definition returns {A} (m : io A) : Prop := ∃ a, result m = Normal a.

Section io_laws.
Context {A B C : Type}.
Implicit Types (m : io A) (f : A → io B) (g : B → io C).

Lemma io_bind_ret_l (a : A) f : mret a ≫= f = f a.
Proof. unfold mret, mbind, io_ret, io_bind. by destruct (f a). Qed.

Lemma io_bind_ret_r m : m ≫= mret = m.
Proof.
  destruct m as [out [a|w]]; unfold mret, mbind, io_ret, io_bind; [|done].
  by rewrite app_nil_r.
Qed.

Lemma io_bind_assoc m f g : (m ≫= f) ≫= g = m ≫= (λ a, f a ≫= g).
Proof.
  destruct m as [out [a|w]]; unfold mbind, io_bind; [|done].
  destruct (f a) as [out1 [b|w]]; [|done].
  destruct (g b) as [out2 r]. by rewrite app_assoc.
Qed.

Lemma io_bind_throw (what : string) f : throw what ≫= f = throw what.
Proof. done. Qed.

Lemma events_bind_Normal m f a :
  result m = Normal a → events (m ≫= f) = events m ++ events (f a).
Proof.
  destruct m as [out r]; simpl; intros ->.
  unfold mbind, io_bind, events. by destruct (f a).
Qed.

Lemma result_bind_Normal m f a :
  result m = Normal a → result (m ≫= f) = result (f a).
Proof.
  destruct m as [out r]; simpl; intros ->.
  unfold mbind, io_bind, result. by destruct (f a).
Qed.

Lemma returns_bind m f :
  returns m → (∀ a, returns (f a)) → returns (m ≫= f).
Proof.
  intros [a Ha] Hf. destruct (Hf a) as [b Hb]. exists b.
  by rewrite (result_bind_Normal _ _ a).
Qed.

Lemma io_bind_Normal (out : list event) (a : A) f :
  (out, Normal a) ≫= f = (out ++ events (f a), result (f a)).
Proof. unfold mbind, io_bind, events, result. by destruct (f a). Qed.

Lemma cout_bind t (k : io B) :
  cout t ≫= (λ _, k) = (Cout t :: events k, result k).
Proof. by destruct k. Qed.

Lemma cerr_bind t (k : io B) :
  cerr t ≫= (λ _, k) = (Cerr t :: events k, result k).
Proof. by destruct k. Qed.

End io_laws.

Lemma append_assoc (s t u : string) : (s +:+ t) +:+ u = s +:+ (t +:+ u).
Proof.
  induction s as [|c s IH]; [done|].
  change (String c ((s +:+ t) +:+ u) = String c (s +:+ (t +:+ u))).
  by rewrite IH.
Qed.

(** Writing one sequence of tokens after another appends the characters. *)
Lemma text_app unbounded (ts us : list token) :
  text unbounded (ts ++ us) = text unbounded ts +:+ text unbounded us.
Proof.
  induction ts as [|t ts IH]; [done|]. unfold text in *. cbn [app foldr].
  by rewrite IH, append_assoc.
Qed.

Lemma returns_mret {A} (a : A) : returns (mret a).
Proof. by exists a. Qed.

Lemma returns_cout t : returns (cout t).
Proof. by exists tt. Qed.

Lemma try_catch_returns {A} (body : io A) handler :
  returns body → try_catch body handler = body.
Proof. destruct body as [out r]. by intros [a [= ->]]. Qed.

Lemma call_ok {A} (a : A) : call (a, None) = mret a.
Proof. done. Qed.

#[export] Hint Resolve returns_mret returns_cout returns_bind : bm.
#[export] Hint Rewrite @io_bind_ret_l @io_bind_ret_r @io_bind_assoc : bm.

(** ** Byte buffers *)

Section buffers.
Implicit Types dst src v : list byte.

(** [v.resize(n)] on a [std::vector<unsigned char>]: cut to [n] elements, or
    padded with value-initialised (zero) bytes. *)
Definition vector_resize v (n : nat) : list byte :=
  take n v ++ replicate (n - length v) x00.

(** [memcpy(dst, src, n)]: the first [n] bytes of [dst] are replaced by those
    of [src].  Copying never changes how many bytes the destination owns:
    what C leaves undefined (a copy beyond the end of [dst]) is cut here, so
    a caller that forgets to resize loses bytes instead of gaining them. *)
Definition memcpy dst src (n : nat) : list byte :=
  take (length dst) (take n src ++ drop n dst).

Lemma length_vector_resize v n : length (vector_resize v n) = n.
Proof.
  unfold vector_resize. rewrite length_app, length_take, length_replicate. lia.
Qed.

Lemma length_memcpy dst src n :
  (n ≤ length src)%nat → length (memcpy dst src n) = length dst.
Proof.
  intros Hn. unfold memcpy.
  rewrite length_take, length_app, length_take, length_drop. lia.
Qed.

Lemma memcpy_all dst src :
  length dst = length src → memcpy dst src (length src) = src.
Proof.
  intros Hlen. unfold memcpy.
  rewrite firstn_all, drop_ge, app_nil_r, Hlen by lia. apply firstn_all.
Qed.

(** Resizing the target to the length of the source and copying that many
    bytes leaves exactly the source, whatever the target held. *)
Lemma memcpy_resize dst src :
  memcpy (vector_resize dst (length src)) src (length src) = src.
Proof. apply memcpy_all, length_vector_resize. Qed.

End buffers.

#[export] Hint Rewrite length_vector_resize memcpy_resize : bm.
