(* ===== verification/Interface.v ===== *)
(** * Interface: what the engine promises to its clients

    The driver includes [bm.h], [bmalgo.h], [bmserial.h] and [bmaggregator.h]
    and uses four things of them: bit vectors, their enumerator, the
    serializer with its operation deserializer, and the aggregator.  Each is a
    type class here: the operations the driver calls, an abstraction
    ([get_bit] and [bv_size] for a vector, the positions yet to come for an
    enumerator, the attached sources for an aggregator), the invariant
    [bv_wf], and the laws the specification states.  Where the specification leaves a case
    open (a position at or beyond the size, a [SORTED] hint on an unsorted
    array, AND over no source) the law carries that case as a premise, so a
    client can rely on nothing there. *)

From Stdlib Require Import NArith String List.
From Stdlib.Strings Require Import Byte.
From stdpp Require Import base tactics list numbers sorting.
From S2P Require Import Prelude.

(** ** Operation codes and hints *)

(** [bm::operation]; the deserializer's [bm::set_operation] has the same four
    codes under the names [set_AND], [set_OR], [set_SUB], [set_XOR]. *)
Inductive operation : Type := BM_AND | BM_OR | BM_SUB | BM_XOR.

Abbreviation set_AND := BM_AND (only parsing).
Abbreviation set_OR := BM_OR (only parsing).
Abbreviation set_SUB := BM_SUB (only parsing).
Abbreviation set_XOR := BM_XOR (only parsing).

(** [bm::sort_order] *)
Inductive sort_order : Type := BM_UNSORTED | BM_SORTED.

(** [bvector<>::opt_compress], the strongest effort level of [optimize]. *)
Abbreviation opt_compress := 3%N (only parsing).

#[export] Instance operation_eq_dec : EqDecision operation.
Proof. solve_decision. Defined.

#[export] Instance sort_order_eq_dec : EqDecision sort_order.
Proof. solve_decision. Defined.

(** What an operation does to one position. *)
Definition bool_op (op : operation) (x y : bool) : bool :=
  match op with
  | BM_AND => x && y
  | BM_OR => x || y
  | BM_SUB => x && negb y
  | BM_XOR => xorb x y
  end.

Lemma bool_op_false_l op y :
  bool_op op false y = match op with BM_OR | BM_XOR => y | _ => false end.
Proof. by destruct op, y. Qed.

Lemma bool_op_false_r op x :
  bool_op op x false = match op with BM_AND => false | _ => x end.
Proof. by destruct op, x. Qed.

Lemma bool_op_comm op x y :
  op ≠ BM_SUB → bool_op op x y = bool_op op y x.
Proof. by destruct op, x, y. Qed.

Lemma bool_op_assoc op x y z :
  op ≠ BM_SUB → bool_op op x (bool_op op y z) = bool_op op (bool_op op x y) z.
Proof. by destruct op, x, y, z. Qed.

(** ** Bit vectors *)

Class BitVector : Type := {
  bvector : Type;
  (** the invariant every operation keeps *)
  bv_wf : bvector → Prop;
  (** [size()] *)
  bv_size : bvector → option N;
  (** [get(position)], the abstraction: a vector is the set of positions
      at which it answers [true] *)
  get_bit : bvector → N → bool;
  (** [bvector<> bv { p1, ..., pn }]; the default constructor is the case of
      no position *)
  bvector_of : list N → bvector;
  resize : bvector → N → bvector;
  (** the set positions in ascending order: what an enumeration from the
      start yields until it is no longer valid *)
  positions : bvector → list N;
  (** the named members [bit_or(other)] and [bit_and(other)] *)
  bit_or : bvector → bvector → bvector;
  bit_and : bvector → bvector → bvector;
  (** the table-driven entry point [combine_operation(other, opcode)] *)
  combine_operation : bvector → bvector → operation → bvector;
  (** [set(ids, n, hint)] *)
  set_ids : bvector → list N → sort_order → bvector;
  (** [bm::combine_or(bv, first, last)] and [bm::combine_and] *)
  combine_or : bvector → list N → bvector;
  combine_and : bvector → list N → bvector;
  optimize : bvector → N → bvector;

  bv_bounded bv p :
    bv_wf bv → get_bit bv p = true → size_lt p (bv_size bv);

  bvector_of_wf ids : bv_wf (bvector_of ids);
  bvector_of_size ids : bv_size (bvector_of ids) = None;
  bvector_of_get ids p : get_bit (bvector_of ids) p = bool_decide (p ∈ ids);

  resize_wf bv n : bv_wf bv → bv_wf (resize bv n);
  resize_size bv n : bv_size (resize bv n) = Some n;
  resize_get bv n p :
    bv_wf bv → get_bit (resize bv n) p = get_bit bv p && (p <? n)%N;

  positions_sorted bv : bv_wf bv → StronglySorted N.lt (positions bv);
  positions_elem bv p : bv_wf bv → p ∈ positions bv ↔ get_bit bv p = true;

  bit_or_wf a b : bv_wf a → bv_wf b → bv_wf (bit_or a b);
  bit_or_size a b : bv_size (bit_or a b) = size_max (bv_size a) (bv_size b);
  bit_or_get a b p :
    bv_wf a → bv_wf b → get_bit (bit_or a b) p = get_bit a p || get_bit b p;

  bit_and_wf a b : bv_wf a → bv_wf b → bv_wf (bit_and a b);
  bit_and_size a b : bv_size (bit_and a b) = size_max (bv_size a) (bv_size b);
  bit_and_get a b p :
    bv_wf a → bv_wf b → get_bit (bit_and a b) p = get_bit a p && get_bit b p;

  combine_operation_wf a b op :
    bv_wf a → bv_wf b → bv_wf (combine_operation a b op);
  combine_operation_size a b op :
    bv_size (combine_operation a b op) = size_max (bv_size a) (bv_size b);
  combine_operation_get a b op p :
    bv_wf a → bv_wf b →
    get_bit (combine_operation a b op) p = bool_op op (get_bit a p) (get_bit b p);

  set_ids_wf bv ids so : bv_wf bv → bv_wf (set_ids bv ids so);
  set_ids_size bv ids so : bv_size (set_ids bv ids so) = bv_size bv;
  set_ids_get bv ids so p :
    bv_wf bv →
    (so = BM_SORTED → StronglySorted N.lt ids) →
    Forall (λ i, size_lt i (bv_size bv)) ids →
    get_bit (set_ids bv ids so) p = get_bit bv p || bool_decide (p ∈ ids);

  combine_or_wf bv ids : bv_wf bv → bv_wf (combine_or bv ids);
  combine_or_size bv ids :
    bv_size (combine_or bv ids) = size_max (bv_size bv) None;
  combine_or_get bv ids p :
    bv_wf bv → get_bit (combine_or bv ids) p = get_bit bv p || bool_decide (p ∈ ids);

  combine_and_wf bv ids : bv_wf bv → bv_wf (combine_and bv ids);
  combine_and_size bv ids :
    bv_size (combine_and bv ids) = size_max (bv_size bv) None;
  combine_and_get bv ids p :
    bv_wf bv → get_bit (combine_and bv ids) p = get_bit bv p && bool_decide (p ∈ ids);

  optimize_wf bv level : bv_wf bv → bv_wf (optimize bv level);
  optimize_size bv level : bv_size (optimize bv level) = bv_size bv;
  optimize_get bv level p :
    bv_wf bv → get_bit (optimize bv level) p = get_bit bv p;
}.

(** The driver calls neither [bit_sub] nor [bit_xor]: they are the
    table-driven entry point at their code. *)
Abbreviation bit_sub a b := (combine_operation a b BM_SUB) (only parsing).
Abbreviation bit_xor a b := (combine_operation a b BM_XOR) (only parsing).

#[export] Hint Resolve bvector_of_wf resize_wf bit_or_wf bit_and_wf
  combine_operation_wf set_ids_wf combine_or_wf combine_and_wf optimize_wf
  positions_sorted : bm.
#[export] Hint Rewrite @bvector_of_size @bvector_of_get @resize_size
  @bit_or_size @bit_and_size @combine_operation_size @set_ids_size
  @combine_or_size @combine_and_size @optimize_size : bm.
#[export] Hint Rewrite @bvector_of_get : bm_get.
#[export] Hint Rewrite @resize_get @bit_or_get @bit_and_get
  @combine_operation_get @combine_or_get @combine_and_get @optimize_get
  using (auto 10 with bm) : bm_get.

(** ** Equivalence of vectors: same size, same answers *)

Section equivalence.
Context `{BitVector}.
Implicit Types a b c : bvector.

#[export] Instance bv_equiv : Equiv bvector := λ a b,
  bv_size a = bv_size b ∧ ∀ p, get_bit a p = get_bit b p.

#[export] Instance bv_equiv_equivalence : Equivalence (≡@{bvector}).
Proof.
  split.
  - by intros a.
  - intros a b [? ?]. by split.
  - intros a b c [? Hab] [? Hbc]. split; [congruence|].
    intros p. by rewrite Hab.
Qed.

#[export] Instance bv_size_proper : Proper ((≡) ==> (=)) bv_size.
Proof. by intros a b [? _]. Qed.

#[export] Instance get_bit_proper : Proper ((≡) ==> (=) ==> (=)) get_bit.
Proof. intros a b [_ Hab] p ? <-. apply Hab. Qed.

(** The enumeration depends on the set only, not on how it is stored. *)
Lemma positions_equiv a b :
  bv_wf a → bv_wf b → a ≡ b → positions a = positions b.
Proof.
  intros Ha Hb [_ Hab]. apply ascending_ext; auto with bm.
  intros p. by rewrite !positions_elem, Hab.
Qed.

(** Vectors built on both sides by the same operation from equivalent
    operands are equivalent. *)
Lemma combine_operation_equiv a a' b b' op :
  bv_wf a → bv_wf a' → bv_wf b → bv_wf b' →
  a ≡ a' → b ≡ b' → combine_operation a b op ≡ combine_operation a' b' op.
Proof.
  intros ???? [Hs Ha] [Ht Hb]. split.
  - rewrite !combine_operation_size. congruence.
  - intros p. rewrite !combine_operation_get by done. congruence.
Qed.

(** A named member and the table-driven entry point at its code give
    equivalent vectors. *)
Lemma bit_or_opcode a b :
  bv_wf a → bv_wf b → bit_or a b ≡ combine_operation a b BM_OR.
Proof.
  intros Ha Hb. split.
  - by rewrite bit_or_size, combine_operation_size.
  - intros p. by rewrite bit_or_get, combine_operation_get.
Qed.

Lemma bit_and_opcode a b :
  bv_wf a → bv_wf b → bit_and a b ≡ combine_operation a b BM_AND.
Proof.
  intros Ha Hb. split.
  - by rewrite bit_and_size, combine_operation_size.
  - intros p. by rewrite bit_and_get, combine_operation_get.
Qed.

Lemma combine_or_as_if bv ids :
  bv_wf bv → combine_or bv ids ≡ bit_or bv (bvector_of ids).
Proof.
  intros Hwf. split.
  - by rewrite combine_or_size, bit_or_size, bvector_of_size.
  - intros p. rewrite combine_or_get, bit_or_get by auto with bm.
    by rewrite bvector_of_get.
Qed.

Lemma combine_and_as_if bv ids :
  bv_wf bv → combine_and bv ids ≡ bit_and bv (bvector_of ids).
Proof.
  intros Hwf. split.
  - by rewrite combine_and_size, bit_and_size, bvector_of_size.
  - intros p. rewrite combine_and_get, bit_and_get by auto with bm.
    by rewrite bvector_of_get.
Qed.

Lemma optimize_equiv bv level : bv_wf bv → optimize bv level ≡ bv.
Proof.
  intros Hwf. split; [apply optimize_size|].
  intros p. by apply optimize_get.
Qed.

(** The algebra of the operations, on the abstraction. *)
Lemma combine_operation_comm a b op :
  bv_wf a → bv_wf b → op ≠ BM_SUB →
  combine_operation a b op ≡ combine_operation b a op.
Proof.
  intros Ha Hb Hop. split.
  - rewrite !combine_operation_size. apply size_max_comm.
  - intros p. rewrite !combine_operation_get by done. by apply bool_op_comm.
Qed.

Lemma combine_operation_assoc a b c op :
  bv_wf a → bv_wf b → bv_wf c → op ≠ BM_SUB →
  combine_operation a (combine_operation b c op) op
  ≡ combine_operation (combine_operation a b op) c op.
Proof.
  intros Ha Hb Hc Hop. split.
  - rewrite !combine_operation_size. apply size_max_assoc.
  - intros p. rewrite !combine_operation_get by auto with bm.
    by apply bool_op_assoc.
Qed.

End equivalence.

(** ** Enumerator *)

(** A forward-only cursor over the set positions of a vector.  Its
    abstraction is [en_rest], the positions it has yet to yield, the current
    one first.  Dereferencing or advancing an enumerator that is not valid is
    outside the contract: the laws speak of enumerators that hold a
    position. *)
Class Enumerator `{BitVector} : Type := {
  enumerator : Type;
  en_wf : enumerator → Prop;
  en_rest : enumerator → list N;
  (** [bv.first()] *)
  first : bvector → enumerator;
  (** [en.valid()] *)
  valid : enumerator → bool;
  (** [*en] *)
  deref : enumerator → N;
  (** [++en] *)
  advance : enumerator → enumerator;

  first_wf bv : bv_wf bv → en_wf (first bv);
  first_rest bv : bv_wf bv → en_rest (first bv) = positions bv;
  valid_rest en : en_wf en → valid en = bool_decide (en_rest en ≠ []);
  deref_rest en p l : en_wf en → en_rest en = p :: l → deref en = p;
  advance_wf en : en_wf en → valid en = true → en_wf (advance en);
  advance_rest en p l : en_wf en → en_rest en = p :: l → en_rest (advance en) = l;
}.

#[export] Hint Resolve first_wf advance_wf : bm.

(** ** Serializer and operation deserializer *)

(** The two calls, without their contract: the driver is defined over these,
    so that what it does when a decoder refuses a buffer can be stated of
    any pair of them. *)
Class SerializerOps `{BitVector} : Type := {
  (** [serializer<bvector<>>::serialize] at a compression level *)
  serialize : bvector → N → list byte;
  (** [operation_deserializer<bvector<>>::deserialize]: the destination
      after the call, and the failure if the buffer is malformed *)
  deserialize : bvector → list byte → operation → bvector * option string;
}.

(** The contract of the two calls. *)
Class Serializer `{SerializerOps} : Type := {
  (** the destination is a valid vector after the call, failed or not *)
  deserialize_wf dst buf op :
    bv_wf dst → bv_wf (deserialize dst buf op).1;
  (** a serialized vector decodes, and the destination becomes what
      decoding it and combining would give *)
  deserialize_serialize dst src level op :
    bv_wf dst → bv_wf src →
    (deserialize dst (serialize src level) op).2 = None ∧
    (deserialize dst (serialize src level) op).1 ≡ combine_operation dst src op;
  (** a buffer without header is refused *)
  deserialize_nil dst op : (deserialize dst [] op).2 ≠ None;
  (** a serialized vector cut short is refused, wherever it is cut *)
  deserialize_truncated dst src level op pre :
    bv_wf src → proper_prefix pre (serialize src level) →
    (deserialize dst pre op).2 ≠ None;
}.

#[export] Hint Resolve deserialize_wf : bm.

(** ** Aggregator *)

Class Aggregator `{BitVector} : Type := {
  aggregator : Type;
  (** the sources attached so far, in the order of attachment *)
  agg_sources : aggregator → list bvector;
  (** whether [set_optimization] was called *)
  agg_optimization : aggregator → bool;
  (** the default constructor *)
  agg_new : aggregator;
  add : aggregator → bvector → aggregator;
  set_optimization : aggregator → aggregator;
  reset : aggregator → aggregator;
  (** [combine_or(target)] and [combine_and(target)]: the target after the
      call *)
  agg_combine_or : aggregator → bvector → bvector;
  agg_combine_and : aggregator → bvector → bvector;

  agg_new_sources : agg_sources agg_new = [];
  agg_new_optimization : agg_optimization agg_new = false;
  add_sources agg bv : agg_sources (add agg bv) = agg_sources agg ++ [bv];
  add_optimization agg bv : agg_optimization (add agg bv) = agg_optimization agg;
  set_optimization_sources agg : agg_sources (set_optimization agg) = agg_sources agg;
  set_optimization_on agg : agg_optimization (set_optimization agg) = true;
  reset_new agg : reset agg = agg_new;

  agg_combine_or_wf agg target :
    Forall bv_wf (agg_sources agg) → bv_wf target → bv_wf (agg_combine_or agg target);
  (** OR over no source is the empty set *)
  agg_combine_or_nil agg target p :
    agg_sources agg = [] → bv_wf target → get_bit (agg_combine_or agg target) p = false;
  (** otherwise the target is overwritten by the left fold of [bit_or] *)
  agg_combine_or_fold agg target s srcs :
    agg_sources agg = s :: srcs → Forall bv_wf (s :: srcs) → bv_wf target →
    agg_combine_or agg target ≡ foldl (λ acc x, bit_or acc x) s srcs;

  agg_combine_and_wf agg target :
    Forall bv_wf (agg_sources agg) → bv_wf target → bv_wf (agg_combine_and agg target);
  agg_combine_and_fold agg target s srcs :
    agg_sources agg = s :: srcs → Forall bv_wf (s :: srcs) → bv_wf target →
    agg_combine_and agg target ≡ foldl (λ acc x, bit_and acc x) s srcs;
}.

#[export] Hint Resolve agg_combine_or_wf agg_combine_and_wf : bm.
#[export] Hint Rewrite @agg_new_sources @agg_new_optimization @add_sources
  @add_optimization @set_optimization_sources @set_optimization_on @reset_new : bm.
