(* ===== verification/Printer.v ===== *)
(** * Printer: [print_bvector] and its loop

    [print_bvector] (lines 40-50 of the source) obtains an enumerator, runs a
    loop that prints positions while the enumerator is valid and fewer than
    ten were printed, then prints an ellipsis and the size.

    The loop is given twice: as a transition system on its state (the
    enumerator, the counter, the output so far) and as the function
    [print_loop], which runs on the distance of the counter from its bound.
    The file proves that every run of the transition system ends, that the
    function computes the state in which it ends, and what that state is. *)

From Stdlib Require Import NArith ZArith String List Lia.
From stdpp Require Import base tactics list numbers sorting relations.
From S2P Require Import Prelude Runtime Interface.

Local Open Scope string_scope.
Local Open Scope list_scope.

Section printer.
Context `{BitVector} `{!Enumerator}.

(** ** The program *)

(** The bound of the printing loop: [cnt < 10] and [cnt == 10]. *)
Definition print_limit : N := 10.

(** The variables of the loop: [en] and [cnt]. *)
Record loop_state : Type := LoopState { ls_en : enumerator; ls_cnt : N }.

(** [en.valid() && cnt < 10] *)
Definition loop_cond (s : loop_state) : bool :=
  valid (ls_en s) && (ls_cnt s <? print_limit)%N.

(** [cout << *en << ", ";] *)
Definition loop_body (s : loop_state) : io unit :=
  cout (TNum (deref (ls_en s))) ;; cout (TStr ", ").

(** [++en, ++cnt] *)
Definition loop_next (s : loop_state) : loop_state :=
  LoopState (advance (ls_en s)) (ls_cnt s + 1).

(** [for (; en.valid() && cnt < 10; ++en, ++cnt) cout << *en << ", ";]
    The result is the state in which the loop is left. *)
Fixpoint print_loop (fuel : nat) (s : loop_state) : io loop_state :=
  match fuel with
  | O => mret s
  | S fuel =>
      if loop_cond s then loop_body s ;; print_loop fuel (loop_next s)
      else mret s
  end.

(** [if (cnt == 10) cout << " ...";] *)
Definition print_ellipsis (cnt : N) : io unit :=
  if (cnt =? print_limit)%N then cout (TStr " ...") else mret tt.

(** [cout << "(size = " << bv.size() << ")" << endl;] *)
Definition print_size (bv : bvector) : io unit :=
  cout (TStr "(size = ") ;; cout (TSize (bv_size bv)) ;; cout (TStr ")") ;;
  cout TEndl.

Definition print_bvector (bv : bvector) : io unit :=
  let cnt := 0%N in
  let en := first bv in
  s ← print_loop (N.to_nat print_limit) (LoopState en cnt);
  print_ellipsis (ls_cnt s) ;;
  print_size bv.

(** ** The loop as a transition system *)

(** A configuration is the state of the loop and what was written so far. *)
Definition config : Type := loop_state * list event.

Inductive loop_step : relation config :=
  | loop_iter s out :
      loop_cond s = true →
      loop_step (s, out) (loop_next s, out ++ events (loop_body s)).

(** What is left of the counter's way to its bound. *)
Definition loop_variant (s : loop_state) : nat :=
  N.to_nat (print_limit - ls_cnt s).

(** ** What a printout is

    The reference against which [print_bvector] is stated: the events that
    show an ascending list of positions [l] and a size, and the tokens they
    leave on the standard output. *)

Definition number_events (l : list N) : list event :=
  l ≫= λ p, [Cout (TNum p); Cout (TStr ", ")].

Definition size_events (sz : option N) : list event :=
  [Cout (TStr "(size = "); Cout (TSize sz); Cout (TStr ")"); Cout TEndl].

Definition printout (l : list N) (sz : option N) : io unit :=
  (number_events (take 10 l)
     ++ (if decide (10 ≤ length l) then [Cout (TStr " ...")] else [])
     ++ size_events sz,
   Normal tt).

Definition printed (l : list N) (sz : option N) : list token :=
  (take 10 l ≫= λ p, [TNum p; TStr ", "])
  ++ (if decide (10 ≤ length l) then [TStr " ..."] else [])
  ++ [TStr "(size = "; TSize sz; TStr ")"; TEndl].

(** [m] prints the set [P] with size [sz]: its output is the printout of the
    ascending list of the members of [P]. *)
Definition prints (m : io unit) (P : N → Prop) (sz : option N) : Prop :=
  ∃ l, m = printout l sz ∧ StronglySorted N.lt l ∧ ∀ p, p ∈ l ↔ P p.

(** The numbers among the tokens of an output. *)
Definition numbers (ts : list token) : list N :=
  omap (λ t, match t with TNum n => Some n | _ => None end) ts.

(** The characters of a line: each of the first ten positions in decimal,
    followed by a comma and a space; three dots after a space when ten or
    more positions are listed; the size in parentheses, written as [u] when
    the vector has no bound; a line feed. *)
Definition line_text (u : string) (l : list N) (sz : option N) : string :=
  foldr (λ p acc, render_N p ++ ", " ++ acc)%string
    ((if decide (10 ≤ length l) then " ..." else "")
       ++ "(size = " ++ render u (TSize sz) ++ ")" ++ newline)%string
    (take 10 l).

(** The invariant of the loop over a vector with positions [l]: the
    enumerator has yet to yield what follows the first [cnt] positions, these
    are what was written, and the counter is within its bound. *)
Definition loop_inv (l : list N) (c : config) : Prop :=
  let n := N.to_nat (ls_cnt c.1) in
  en_wf (ls_en c.1)
  ∧ en_rest (ls_en c.1) = drop n l
  ∧ c.2 = number_events (take n l)
  ∧ n ≤ length l
  ∧ (ls_cnt c.1 ≤ print_limit)%N.

(** ** Printouts *)

Lemma numbers_printed l sz : numbers (printed l sz) = take 10 l.
Proof.
  unfold numbers, printed. rewrite !omap_app.
  replace (omap _ (if decide _ then _ else _)) with (@nil N) by (by case_decide).
  cbn. rewrite app_nil_r. induction (take 10 l) as [|p k IH]; [done|].
  rewrite bind_cons. cbn. by rewrite IH.
Qed.

Lemma stdout_printout l sz : stdout (printout l sz) = printed l sz.
Proof.
  unfold stdout, printout, printed, events. cbn [fst].
  rewrite !omap_app. f_equal; [|by case_decide].
  unfold number_events. induction (take 10 l) as [|p k IH]; [done|].
  rewrite !bind_cons. cbn. by rewrite IH.
Qed.

(** The tokens of a printout, rendered. *)
Lemma text_printed u l sz : text u (printed l sz) = line_text u l sz.
Proof.
  unfold printed, line_text. rewrite text_app.
  induction (take 10 l) as [|p k IH]; [by case_decide|].
  rewrite bind_cons. cbn [foldr]. rewrite <-IH. unfold text. cbn [app foldr render].
  by rewrite !append_assoc.
Qed.

Lemma stderr_printout l sz : stderr (printout l sz) = [].
Proof.
  unfold stderr, printout, events. cbn [fst].
  rewrite !omap_app. case_decide; cbn; rewrite app_nil_r;
    unfold number_events; induction (take 10 l) as [|p k IH]; done.
Qed.

Lemma prints_listing m l sz (P : N → Prop) :
  m = printout (listing l) sz → (∀ p, p ∈ l ↔ P p) → prints m P sz.
Proof.
  intros -> Hl. exists (listing l). split_and!; [done|apply listing_ascending|].
  intros p. by rewrite elem_of_listing.
Qed.

Lemma number_events_snoc l p :
  number_events (l ++ [p]) = number_events l ++ [Cout (TNum p); Cout (TStr ", ")].
Proof. unfold number_events. by rewrite bind_app. Qed.

(** ** The steps of the loop *)

Section steps.
Implicit Types (s : loop_state) (out : list event) (c : config).

Lemma loop_body_bind {A} s (k : io A) :
  (loop_body s ;; k) = (events (loop_body s) ++ events k, result k).
Proof. unfold loop_body. by rewrite io_bind_assoc, !cout_bind. Qed.

Lemma loop_red s out : red loop_step (s, out) ↔ loop_cond s = true.
Proof.
  split; [by intros [c' Hstep]; inversion Hstep|].
  intros Hc. eexists. by constructor.
Qed.

Lemma loop_nf s out : nf loop_step (s, out) ↔ loop_cond s = false.
Proof. unfold nf. rewrite loop_red. by destruct (loop_cond s). Qed.

Lemma loop_step_deterministic : deterministic loop_step.
Proof. intros c c1 c2 H1 H2. inversion H1; subst. by inversion H2. Qed.

(** A step moves the counter towards its bound. *)
Lemma loop_step_variant c c' :
  loop_step c c' → loop_variant c'.1 < loop_variant c.1.
Proof.
  inversion 1 as [s out [_ Hc%N.ltb_lt]%andb_true_iff]; subst.
  unfold loop_variant, print_limit in *. cbn. lia.
Qed.

(** C30: the loop terminates: no run of its transition system is infinite,
    from any state whatever, because every iteration moves the counter
    towards its bound. *)
Theorem loop_terminates c : sn loop_step c.
Proof.
  remember (loop_variant c.1) as n eqn:Hn.
  revert c Hn. induction (lt_wf n) as [n _ IH]. intros c ->.
  constructor. intros c' Hstep. eapply IH; [|done].
  by apply loop_step_variant.
Qed.

(** A step never moves the counter beyond its bound. *)
Lemma loop_step_counter c c' :
  loop_step c c' → (ls_cnt c'.1 ≤ print_limit)%N.
Proof.
  inversion 1 as [s out [_ Hc%N.ltb_lt]%andb_true_iff]; subst. cbn. lia.
Qed.

Lemma loop_variant_0 s : loop_variant s = 0 → loop_cond s = false.
Proof.
  unfold loop_variant, loop_cond. intros Hv.
  destruct (N.ltb_spec (ls_cnt s) print_limit); [lia|apply andb_false_r].
Qed.

(** The function follows the transitions, and with fuel for the variant it
    stops where no transition is left. *)
Lemma print_loop_steps fuel s out :
  ∃ s' out',
    print_loop fuel s = (out', Normal s')
    ∧ rtc loop_step (s, out) (s', out ++ out')
    ∧ (loop_variant s ≤ fuel → loop_cond s' = false).
Proof.
  revert s out. induction fuel as [|fuel IH]; intros s out; cbn [print_loop].
  { exists s, []. rewrite app_nil_r. split_and!; [done..|].
    intros Hv. apply loop_variant_0. lia. }
  destruct (loop_cond s) eqn:Hc.
  - destruct (IH (loop_next s) (out ++ events (loop_body s)))
      as (s' & out' & Hrun & Hsteps & Hnf).
    exists s', (events (loop_body s) ++ out').
    rewrite loop_body_bind, Hrun, app_assoc. split_and!; [done| |].
    + eapply rtc_l; [by constructor|done].
    + intros Hv. apply Hnf.
      pose proof (loop_step_variant _ _ (loop_iter s out Hc)). cbn in *. lia.
  - exists s, []. by rewrite app_nil_r.
Qed.

(** C2: the counter of the printing loop never exceeds ten, whatever the
    enumerator does and however long the loop is run: the 32-bit counter of
    the source cannot wrap. *)
Theorem print_loop_counter fuel en :
  ∃ s, result (print_loop fuel (LoopState en 0)) = Normal s
       ∧ (ls_cnt s ≤ 10)%N.
Proof.
  destruct (print_loop_steps fuel (LoopState en 0) []) as (s & out & -> & Hs & _).
  exists s. split; [done|].
  apply rtc_inv_r in Hs as [[= <-]|(c & _ & Hstep)]; [done|].
  apply (loop_step_counter _ _ Hstep).
Qed.

Lemma print_loop_exit fuel s out :
  loop_variant s ≤ fuel →
  ∃ s' out',
    print_loop fuel s = (out', Normal s')
    ∧ rtc loop_step (s, out) (s', out ++ out')
    ∧ nf loop_step (s', out ++ out').
Proof.
  intros Hfuel.
  destruct (print_loop_steps fuel s out) as (s' & out' & Hrun & Hs & Hnf).
  exists s', out'. split_and!; [done..|]. by apply loop_nf, Hnf.
Qed.

(** The exit a run reaches is the only one. *)
Lemma loop_exit_unique c c1 c2 :
  rtc loop_step c c1 → nf loop_step c1 →
  rtc loop_step c c2 → nf loop_step c2 → c1 = c2.
Proof.
  apply confluent_rtc_nf, deterministic_confluent, loop_step_deterministic.
Qed.

End steps.

(** ** The invariant *)

Section invariant.
Context (bv : bvector) (Hwf : bv_wf bv).
Implicit Types (s : loop_state) (out : list event) (c : config).

Lemma loop_inv_init : loop_inv (positions bv) (LoopState (first bv) 0, []).
Proof.
  unfold loop_inv. cbn. rewrite first_rest by done.
  split_and!; [auto with bm|done|done|lia|done].
Qed.

Lemma loop_inv_step c c' :
  loop_inv (positions bv) c → loop_step c c' → loop_inv (positions bv) c'.
Proof.
  intros (Hen & Hrest & Hout & Hlen & _) Hstep.
  pose proof (loop_step_counter _ _ Hstep) as Hcnt.
  inversion Hstep as [s out [Hv _]%andb_true_iff]; subst. cbn in *.
  rewrite valid_rest, bool_decide_eq_true in Hv by done.
  destruct (en_rest (ls_en s)) as [|p l] eqn:Hl; [done|]. symmetry in Hrest.
  apply drop_cons_inv in Hrest as [Hp Hdrop].
  pose proof (lookup_lt_Some _ _ _ Hp).
  unfold loop_inv. cbn. rewrite N.add_1_r, N2Nat.inj_succ.
  rewrite (take_S_r _ _ p), number_events_snoc, (deref_rest _ p l) by done.
  split_and!; [|by erewrite advance_rest|by rewrite Hout|lia..].
  apply advance_wf; [done|]. by rewrite valid_rest, Hl.
Qed.

Lemma loop_inv_reachable c :
  rtc loop_step (LoopState (first bv) 0, []) c → loop_inv (positions bv) c.
Proof.
  revert c. apply rtc_ind_r; eauto using loop_inv_init, loop_inv_step.
Qed.

(** Where the loop is left: the counter is the number of positions written,
    ten at most, and what was written are the first ten positions. *)
Lemma loop_exit c :
  loop_inv (positions bv) c → loop_cond c.1 = false →
  ls_cnt c.1 = N.min 10 (N.of_nat (length (positions bv)))
  ∧ c.2 = number_events (take 10 (positions bv)).
Proof.
  intros (Hen & Hrest & -> & Hlen & Hcnt) Hc.
  unfold loop_cond, print_limit in *.
  rewrite valid_rest, Hrest in Hc by done.
  apply andb_false_iff in Hc as [Hv%bool_decide_eq_false|Hc%N.ltb_ge].
  - apply dec_stable, drop_nil_inv in Hv.
    split; [lia|]. by rewrite !take_ge by lia.
  - split; [lia|]. do 2 f_equal. lia.
Qed.

(** What the loop of [print_bvector] writes and the counter it leaves. *)
Lemma print_loop_run :
  ∃ s, print_loop (N.to_nat print_limit) (LoopState (first bv) 0)
       = (number_events (take 10 (positions bv)), Normal s)
       ∧ ls_cnt s = N.min 10 (N.of_nat (length (positions bv))).
Proof.
  destruct (print_loop_steps (N.to_nat print_limit) (LoopState (first bv) 0) [])
    as (s & out & -> & Hsteps & Hnf).
  destruct (loop_exit (s, out)) as [Hcnt Hout];
    [by apply loop_inv_reachable|by apply Hnf|].
  exists s. cbn in Hcnt, Hout. by rewrite Hout.
Qed.

End invariant.

(** ** The properties of the loop *)

(** C31: from every state the loop reaches its exit: a state in which the
    enumerator is no longer valid or the counter is at its bound; that
    state is unique. *)
Theorem loop_reaches_exit c :
  ∃ c', rtc loop_step c c' ∧ loop_cond c'.1 = false
        ∧ ∀ c'', rtc loop_step c c'' → nf loop_step c'' → c'' = c'.
Proof.
  destruct c as [s out].
  destruct (print_loop_exit (loop_variant s) s out)
    as (s' & out' & _ & Hs & Hnf); [done|].
  eexists. split_and!; [done|by eapply loop_nf|].
  intros c'' Hrun Hc''. by apply (loop_exit_unique (s, out)).
Qed.

(** C32: the function refines the transition system: with fuel for the
    distance of the counter from its bound (ten at the call) [print_loop]
    returns normally the state, and writes the output, of the exit the
    transitions lead to; more fuel changes nothing. *)
Theorem print_loop_refines fuel s :
  loop_variant s ≤ fuel →
  ∃ s' out,
    print_loop fuel s = (out, Normal s')
    ∧ rtc loop_step (s, []) (s', out)
    ∧ nf loop_step (s', out)
    ∧ print_loop fuel s = print_loop (loop_variant s) s.
Proof.
  intros Hfuel.
  destruct (print_loop_exit fuel s []) as (s' & out & Hrun & Hs & Hnf); [done|].
  destruct (print_loop_exit (loop_variant s) s [])
    as (s1 & out1 & Hrun1 & Hs1 & Hnf1); [done|].
  exists s', out. split_and!; [done..|]. rewrite Hrun, Hrun1.
  by injection (loop_exit_unique _ _ _ Hs Hnf Hs1 Hnf1) as -> ->.
Qed.

(** C33: the invariant of the loop: in every state reachable from the start
    of [print_bvector] on a valid vector, the enumerator has yet to yield
    exactly the positions after the first [cnt], the first [cnt] positions
    are what was written, and [cnt] is at most ten. *)
Theorem loop_invariant bv s out :
  bv_wf bv →
  rtc loop_step (LoopState (first bv) 0, []) (s, out) →
  en_rest (ls_en s) = drop (N.to_nat (ls_cnt s)) (positions bv)
  ∧ out = number_events (take (N.to_nat (ls_cnt s)) (positions bv))
  ∧ (ls_cnt s ≤ 10)%N.
Proof.
  intros Hwf Hrun.
  by destruct (loop_inv_reachable bv Hwf _ Hrun) as (_ & ? & ? & _ & ?).
Qed.

(** ** [print_bvector] *)

(** [print_bvector] is the printout of the positions and the size. *)
Lemma print_bvector_printout bv :
  bv_wf bv → print_bvector bv = printout (positions bv) (bv_size bv).
Proof.
  intros Hwf. unfold print_bvector. cbv zeta.
  destruct (print_loop_run bv Hwf) as (s & -> & Hcnt).
  rewrite io_bind_Normal, Hcnt. unfold printout, print_ellipsis, print_limit.
  case_decide; [rewrite N.min_l by lia|rewrite N.min_r by lia]; [done|].
  by destruct (N.eqb_spec (N.of_nat (length (positions bv))) 10); [lia|].
Qed.

(** C1: on a valid vector [print_bvector] writes to the standard output the
    first ten positions in ascending order, each followed by [", "], then
    [" ..."] exactly when the counter reached ten, then the size in
    parentheses and a line end; it writes nothing to the error stream and
    never throws. *)
Theorem print_bvector_spec bv :
  bv_wf bv →
  stdout (print_bvector bv)
  = (take 10 (positions bv) ≫= λ p, [TNum p; TStr ", "])
    ++ (if decide (10 ≤ length (positions bv)) then [TStr " ..."] else [])
    ++ [TStr "(size = "; TSize (bv_size bv); TStr ")"; TEndl]
  ∧ stderr (print_bvector bv) = []
  ∧ result (print_bvector bv) = Normal tt.
Proof.
  intros Hwf. rewrite print_bvector_printout by done. split_and!.
  - apply stdout_printout.
  - apply stderr_printout.
  - done.
Qed.

(** C24: the characters [print_bvector] puts on the standard output for a
    valid vector: the first ten positions in decimal, each followed by a
    comma and a space, the last one too; then [" ..."] if the vector has ten
    members or more; then the size in parentheses and a line feed. *)
Theorem print_bvector_text u bv :
  bv_wf bv →
  text u (stdout (print_bvector bv)) = line_text u (positions bv) (bv_size bv).
Proof.
  intros Hwf. by rewrite print_bvector_printout, stdout_printout, text_printed.
Qed.

(** Printing respects equivalence of vectors. *)
Lemma print_bvector_proper a b :
  bv_wf a → bv_wf b → a ≡ b → print_bvector a = print_bvector b.
Proof.
  intros Ha Hb Hab. rewrite !print_bvector_printout by done.
  by rewrite (positions_equiv a b), Hab.
Qed.

(** A valid vector of size [sz] whose members are those of [l] prints the
    listing of [l] and [sz]. *)
Lemma print_bvector_listing bv l sz :
  bv_wf bv → bv_size bv = sz → (∀ p, get_bit bv p = bool_decide (p ∈ l)) →
  print_bvector bv = printout (listing l) sz.
Proof.
  intros Hwf <- Hl. rewrite print_bvector_printout by done. f_equal.
  apply listing_unique; [auto with bm|].
  intros p. by rewrite positions_elem, Hl, bool_decide_eq_true.
Qed.

(** The same for a vector that is only known up to equivalence. *)
Lemma print_bvector_listing_equiv bv bv' l sz :
  bv_wf bv → bv ≡ bv' → bv_size bv' = sz →
  (∀ p, get_bit bv' p = bool_decide (p ∈ l)) →
  print_bvector bv = printout (listing l) sz.
Proof.
  intros Hwf Heq <- Hl. apply print_bvector_listing; [done|by rewrite Heq|].
  intros p. by rewrite Heq.
Qed.

Lemma print_bvector_returns bv : bv_wf bv → returns (print_bvector bv).
Proof. intros Hwf. rewrite print_bvector_printout by done. by exists tt. Qed.

(** C20: two valid vectors that hold the same set and have the same size
    print the same, however each is stored. *)
Theorem print_bvector_equiv a b :
  bv_wf a → bv_wf b → bv_size a = bv_size b →
  (∀ p, get_bit a p = get_bit b p) →
  print_bvector a = print_bvector b.
Proof. intros Ha Hb Hsz Hget. by apply print_bvector_proper. Qed.

(** C21: the numbers [print_bvector] writes are members of the vector, in
    strictly ascending order, and they are its smallest: a member below a
    printed number is printed. *)
Theorem printed_smallest bv p q :
  bv_wf bv →
  StronglySorted N.lt (numbers (stdout (print_bvector bv)))
  ∧ (q ∈ numbers (stdout (print_bvector bv)) → get_bit bv q = true)
  ∧ (q ∈ numbers (stdout (print_bvector bv)) → get_bit bv p = true → (p < q)%N →
     p ∈ numbers (stdout (print_bvector bv))).
Proof.
  intros Hwf.
  rewrite print_bvector_printout, stdout_printout, numbers_printed by done.
  split_and!.
  - auto with bm.
  - intros Hq%elem_of_take_list. by apply positions_elem.
  - intros Hq Hp Hpq. eapply ascending_take_closed; eauto with bm.
    by apply positions_elem.
Qed.

(** C22: a valid vector of exactly ten members is printed in full and still
    followed by [" ..."]: the test is on the counter, not on what is left. *)
Theorem print_bvector_ellipsis bv :
  bv_wf bv → length (positions bv) = 10%nat →
  stdout (print_bvector bv)
  = (positions bv ≫= λ p, [TNum p; TStr ", "])
    ++ [TStr " ..."; TStr "(size = "; TSize (bv_size bv); TStr ")"; TEndl].
Proof.
  intros Hwf Hlen. rewrite print_bvector_printout, stdout_printout by done.
  unfold printed. rewrite take_ge, decide_True by lia. done.
Qed.

End printer.

#[export] Hint Resolve print_bvector_returns : bm.

(** [block_spec] reduces the claim that a block prints the listing of a list
    to the size and the members of the vector it prints. *)
Ltac block_spec :=
  apply print_bvector_listing;
  [ auto 10 with bm
  | autorewrite with bm; try done
  | intros ?p; autorewrite with bm_get;
    lazymatch goal with
    | |- context [get_bit] => idtac
    | |- _ => members
    end ].
