(* ===== verification/Driver.v ===== *)
(** * Driver: the program of [src/samples/bvsetalgebra/bvsetalgebra.cpp]

    One definition per function of the source and per block of [DemoOR] and
    [DemoAND], in the order of the source; [print_bvector] is in [Printer].
    A block's literals are parameters of its definition; [DemoOR] and
    [DemoAND] pass the literals the source writes.  A C++ object that is
    mutated in place is rebound by [let] under its own name.  Everything is
    stated over the interface of the engine, so each theorem holds for every
    engine that meets the contract.  The definitions need the two calls of
    the serializer and not their contract: what [main] does when a decoder
    refuses the buffer is stated of any pair of them. *)

From Stdlib Require Import NArith ZArith String List.
From Stdlib.Strings Require Import Byte.
From stdpp Require Import base tactics list numbers sorting.
From S2P Require Import Prelude Runtime Interface Printer.

Local Open Scope string_scope.
Local Open Scope list_scope.

Section driver.
Context `{BitVector} `{!Enumerator} `{!SerializerOps} `{!Aggregator}.
Context `{!Serializer}.

(** ** [make_BLOB] *)

(** [bvs.set_compression_level(4)] *)
Definition blob_compression_level : N := 4.

(** Both arguments are passed by reference: the result is the target buffer
    and the vector after the call. *)
Definition make_BLOB (target_buf : list byte) (bv : bvector)
    : list byte * bvector :=
  let bv := optimize bv opt_compress in
  let sbuf := serialize bv blob_compression_level in
  let target_buf := vector_resize target_buf (length sbuf) in
  let target_buf := memcpy target_buf sbuf (length sbuf) in
  (target_buf, bv).

(** The inner scope of the BLOB blocks: [bv_B] lives only long enough to be
    serialized into [blob]. *)
Definition blob_scope (blob : list byte) (B : list N) : list byte :=
  let bv_B := bvector_of B in
  (make_BLOB blob bv_B).1.

(** The two statements that end a BLOB block: [blob] is decoded into [bv_A]
    under [op], then [bv_A] is printed. *)
Definition decode_print (bv_A : bvector) (blob : list byte) (op : operation)
    : io unit :=
  bv_A ← call (deserialize bv_A blob op);
  print_bvector bv_A.

(** The aggregator of the last block of a demo: on-the-fly optimization of
    the result, and three vectors attached. *)
Definition attach (bv_A bv_B bv_C : bvector) : aggregator :=
  let agg := agg_new in
  let agg := set_optimization agg in
  let agg := add agg bv_A in
  let agg := add agg bv_B in
  let agg := add agg bv_C in
  agg.

(** ** The literals of the demos *)

Definition demo_A : list N := [1; 2; 3]%N.
Definition demo_B : list N := [1; 2; 4]%N.
Definition demo_size_A : N := 5.
Definition demo_size_B : N := 10.
Definition or_src_A : list N := [1; 2]%N.
Definition or_src_B : list N := [2; 3]%N.
Definition or_src_C : list N := [3; 4]%N.
Definition and_src_A : list N := [1; 2]%N.
Definition and_src_B : list N := [1; 2; 3]%N.
Definition and_src_C : list N := [1; 2; 3; 4]%N.

(** ** [DemoOR] *)

Definition or_bit_or (A B : list N) : io unit :=
  let bv_A := bvector_of A in
  let bv_B := bvector_of B in
  let bv_A := bit_or bv_A bv_B in
  print_bvector bv_A.

Definition or_resized (A B : list N) (size_A size_B : N) : io unit :=
  let bv_A := bvector_of A in
  let bv_B := bvector_of B in
  let bv_A := resize bv_A size_A in
  let bv_B := resize bv_B size_B in
  let bv_A := bit_or bv_A bv_B in
  print_bvector bv_A.

Definition or_opcode (A B : list N) : io unit :=
  let bv_A := bvector_of A in
  let bv_B := bvector_of B in
  let bv_A := combine_operation bv_A bv_B BM_OR in
  print_bvector bv_A.

Definition or_stl (A B : list N) : io unit :=
  let bv_A := bvector_of A in
  let vect_B := B in
  let bv_A := combine_or bv_A vect_B in
  print_bvector bv_A.

Definition or_c_array (A B : list N) : io unit :=
  let bv_A := bvector_of A in
  let vect_B := B in
  let arr := vect_B in
  let bv_A := set_ids bv_A arr BM_SORTED in
  print_bvector bv_A.

Definition or_blob (A B : list N) : io unit :=
  let bv_A := bvector_of A in
  let blob := [] in
  let blob := blob_scope blob B in
  decode_print bv_A blob set_OR.

Definition or_aggregator (A B C : list N) : io unit :=
  let bv_T := bvector_of [] in
  let bv_A := bvector_of A in
  let bv_B := bvector_of B in
  let bv_C := bvector_of C in
  let agg := attach bv_A bv_B bv_C in
  let bv_T := agg_combine_or agg bv_T in
  let agg := reset agg in
  print_bvector bv_T.

Definition DemoOR : io unit :=
  or_bit_or demo_A demo_B ;;
  or_resized demo_A demo_B demo_size_A demo_size_B ;;
  or_opcode demo_A demo_B ;;
  or_stl demo_A demo_B ;;
  or_c_array demo_A demo_B ;;
  or_blob demo_A demo_B ;;
  or_aggregator or_src_A or_src_B or_src_C.

(** ** [DemoAND] *)

Definition and_bit_and (A B : list N) : io unit :=
  let bv_A := bvector_of A in
  let bv_B := bvector_of B in
  let bv_A := bit_and bv_A bv_B in
  print_bvector bv_A.

Definition and_resized (A B : list N) (size_A size_B : N) : io unit :=
  let bv_A := bvector_of A in
  let bv_B := bvector_of B in
  let bv_A := resize bv_A size_A in
  let bv_B := resize bv_B size_B in
  let bv_A := bit_and bv_A bv_B in
  print_bvector bv_A.

Definition and_opcode (A B : list N) : io unit :=
  let bv_A := bvector_of A in
  let bv_B := bvector_of B in
  let bv_A := combine_operation bv_A bv_B BM_AND in
  print_bvector bv_A.

Definition and_stl (A B : list N) : io unit :=
  let bv_A := bvector_of A in
  let vect_B := B in
  let bv_A := combine_and bv_A vect_B in
  print_bvector bv_A.

Definition and_blob (A B : list N) : io unit :=
  let bv_A := bvector_of A in
  let blob := [] in
  let blob := blob_scope blob B in
  decode_print bv_A blob set_AND.

Definition and_aggregator (A B C : list N) : io unit :=
  let bv_T := bvector_of [] in
  let bv_A := bvector_of A in
  let bv_B := bvector_of B in
  let bv_C := bvector_of C in
  let agg := attach bv_A bv_B bv_C in
  let bv_T := agg_combine_and agg bv_T in
  let agg := reset agg in
  print_bvector bv_T.

Definition DemoAND : io unit :=
  and_bit_and demo_A demo_B ;;
  and_resized demo_A demo_B demo_size_A demo_size_B ;;
  and_opcode demo_A demo_B ;;
  and_stl demo_A demo_B ;;
  and_blob demo_A demo_B ;;
  and_aggregator and_src_A and_src_B and_src_C.

(** ** [main] *)

(** [cout << endl << title << endl << endl;] *)
Definition banner (title : string) : io unit :=
  cout TEndl ;; cout (TStr title) ;; cout TEndl ;; cout TEndl.

(** The body of the [try] block. *)
Definition run_demos : io unit :=
  banner "Set Union (OR) demo" ;;
  DemoOR ;;
  banner "Set Intersect (AND) demo" ;;
  DemoAND.

(** The handler: [std::cerr << ex.what() << std::endl;] *)
Definition report (what : string) : io unit :=
  cerr (TStr what) ;; cerr TEndl.

Definition main : io Z :=
  try_catch run_demos report ;;
  mret 0%Z.

(** ** The blocks of [DemoOR] *)

Lemma or_bit_or_printout A B :
  or_bit_or A B = printout (listing (A ++ B)) None.
Proof. unfold or_bit_or. block_spec. Qed.

Lemma or_resized_printout A B size_A size_B :
  or_resized A B size_A size_B =
    printout (listing (filter (λ p, p < size_A)%N A ++ filter (λ p, p < size_B)%N B))
             (Some (N.max size_A size_B)).
Proof. unfold or_resized. block_spec. Qed.

Lemma or_opcode_printout A B :
  or_opcode A B = printout (listing (A ++ B)) None.
Proof. unfold or_opcode. block_spec. Qed.

Lemma or_stl_printout A B : or_stl A B = printout (listing (A ++ B)) None.
Proof. unfold or_stl. block_spec. Qed.

Lemma or_c_array_printout A B :
  StronglySorted N.lt B → or_c_array A B = printout (listing (A ++ B)) None.
Proof.
  intros HB. unfold or_c_array. block_spec.
  rewrite set_ids_get, bvector_of_get; [members|auto with bm|done|].
  rewrite bvector_of_size. by apply Forall_true.
Qed.

(** C6: the member call [bv_A.bit_or(bv_B)] prints, in ascending order and
    with no size bound, exactly the positions that are in one of the two
    initializer lists. *)
Theorem or_bit_or_spec A B :
  prints (or_bit_or A B) (λ p, p ∈ A ∨ p ∈ B) None.
Proof.
  eapply prints_listing; [apply or_bit_or_printout|].
  intros p. apply elem_of_app.
Qed.

(** C27: the first block prints the same whichever of the two lists
    initializes [bv_A] and whichever [bv_B]: the union commutes. *)
Theorem or_bit_or_comm A B : or_bit_or A B = or_bit_or B A.
Proof.
  rewrite !or_bit_or_printout. f_equal. apply listing_ext.
  intros p. rewrite !elem_of_app. tauto.
Qed.

(** C13: with explicit sizes the union is of the members below the size of
    their vector, and the size printed is the larger of the two. *)
Theorem or_resized_spec A B size_A size_B :
  prints (or_resized A B size_A size_B)
         (λ p, (p ∈ A ∧ p < size_A)%N ∨ (p ∈ B ∧ p < size_B)%N)
         (Some (N.max size_A size_B)).
Proof.
  eapply prints_listing; [apply or_resized_printout|].
  intros p. rewrite elem_of_app, !list_elem_of_filter. tauto.
Qed.

(** C34: the table-driven entry point with the code [BM_OR] prints what
    the member call [bit_or] prints: the opcode selects the same operator. *)
Theorem or_opcode_spec A B : or_opcode A B = or_bit_or A B.
Proof. by rewrite or_opcode_printout, or_bit_or_printout. Qed.

(** C15: [combine_or] over an STL range prints what the union of two vectors
    prints, whatever the order or the repetitions of the range. *)
Theorem or_stl_spec A B : or_stl A B = or_bit_or A B.
Proof. by rewrite or_stl_printout, or_bit_or_printout. Qed.

(** C17: importing a C array with the [BM_SORTED] hint prints the union too,
    provided the array is strictly ascending as the hint says. *)
Theorem or_c_array_spec A B :
  StronglySorted N.lt B → or_c_array A B = or_bit_or A B.
Proof. intros HB. by rewrite or_c_array_printout, or_bit_or_printout. Qed.

(** ** [make_BLOB] *)

(** C8: the buffer [make_BLOB] leaves in [target_buf] is the serialization
    of the optimized vector at level 4, whatever [target_buf] held before. *)
Theorem make_BLOB_buffer target_buf bv :
  (make_BLOB target_buf bv).1
  = serialize (optimize bv opt_compress) blob_compression_level.
Proof. unfold make_BLOB. cbn [fst]. apply memcpy_resize. Qed.

(** Decoding the buffer of [make_BLOB] into a destination succeeds and gives
    a valid vector equivalent to the combination with the serialized one. *)
Lemma make_BLOB_decodes dst src target_buf op :
  bv_wf dst → bv_wf src →
  ∃ r, deserialize dst (make_BLOB target_buf src).1 op = (r, None)
       ∧ bv_wf r ∧ r ≡ combine_operation dst src op.
Proof.
  intros Hdst Hsrc. unfold make_BLOB. cbn [fst]. rewrite memcpy_resize.
  pose proof (deserialize_wf dst (serialize (optimize src opt_compress)
                blob_compression_level) op Hdst) as Hwf.
  destruct (deserialize_serialize dst (optimize src opt_compress)
              blob_compression_level op) as [Hok Heq]; [auto with bm..|].
  destruct (deserialize _ _ _) as [r e]. cbn in Hok, Hwf, Heq. subst e.
  exists r. split_and!; [done..|]. rewrite Heq.
  apply combine_operation_equiv; auto using optimize_equiv with bm.
Qed.

(** C18: deserializing the buffer of [make_BLOB] into a destination under an
    operation succeeds; the destination is then valid, its size is the larger
    of the two sizes, and each position holds the operation applied to what
    the destination and the serialized vector held there. *)
Theorem make_BLOB_deserialize dst src target_buf op :
  bv_wf dst → bv_wf src →
  ∃ r, deserialize dst (make_BLOB target_buf src).1 op = (r, None)
       ∧ bv_wf r
       ∧ bv_size r = size_max (bv_size dst) (bv_size src)
       ∧ ∀ p, get_bit r p = bool_op op (get_bit dst p) (get_bit src p).
Proof.
  intros Hdst Hsrc.
  destruct (make_BLOB_decodes dst src target_buf op) as (r & Hr & Hwf & Heq);
    [done..|].
  exists r. split_and!; [done..| |].
  - by rewrite Heq, combine_operation_size.
  - intros p. by rewrite Heq, combine_operation_get.
Qed.

(** C29: the round trip through [make_BLOB]: decoding its buffer into an
    empty vector of size 0 under OR succeeds and gives a valid vector that
    prints exactly what the serialized vector prints, size included. *)
Theorem make_BLOB_roundtrip target_buf bv :
  bv_wf bv →
  ∃ r, deserialize (resize (bvector_of []) 0) (make_BLOB target_buf bv).1 set_OR
       = (r, None)
       ∧ bv_wf r ∧ print_bvector r = print_bvector bv.
Proof.
  intros Hwf.
  destruct (make_BLOB_decodes (resize (bvector_of []) 0) bv target_buf set_OR)
    as (r & Hr & Hr_wf & Heq); [auto with bm..|].
  exists r. split_and!; [done..|]. apply print_bvector_proper; [done..|].
  rewrite Heq. split.
  - rewrite combine_operation_size, resize_size.
    destruct (bv_size bv); cbn; f_equal. lia.
  - intros p. by rewrite combine_operation_get, resize_get, bvector_of_get
      by auto with bm.
Qed.

(** A BLOB block prints what the same operation on two vectors prints. *)
Lemma blob_block A B op :
  decode_print (bvector_of A) (blob_scope [] B) op
  = print_bvector (combine_operation (bvector_of A) (bvector_of B) op).
Proof.
  unfold decode_print, blob_scope.
  destruct (make_BLOB_decodes (bvector_of A) (bvector_of B) [] op)
    as (r & -> & Hwf & Heq); [auto with bm..|].
  rewrite call_ok, io_bind_ret_l. apply print_bvector_proper; auto with bm.
Qed.

Lemma or_blob_printout A B : or_blob A B = printout (listing (A ++ B)) None.
Proof. unfold or_blob. rewrite blob_block. block_spec. Qed.

Lemma and_blob_printout A B :
  and_blob A B = printout (listing (filter (.∈ B) A)) None.
Proof. unfold and_blob. rewrite blob_block. block_spec. Qed.

(** C11: the union with a serialized vector, decoded on the fly, prints what
    the union of the two vectors prints, and never throws. *)
Theorem or_blob_spec A B :
  or_blob A B = or_bit_or A B ∧ returns (or_blob A B).
Proof.
  rewrite or_blob_printout, or_bit_or_printout. split; [done|]. by exists tt.
Qed.

(** C26: the buffer [make_BLOB] builds is one complete stream and not a byte
    more or less: it decodes, into any valid destination under any
    operation, and no proper prefix of it does.  So [resize] was given the
    length of the stream and [memcpy] copied all of it: a buffer that ends
    before the stream does is refused, and a buffer that goes on after it
    has a proper prefix that is accepted. *)
Theorem make_BLOB_delimited dst bv target_buf op pre :
  bv_wf dst → bv_wf bv →
  (deserialize dst (make_BLOB target_buf bv).1 op).2 = None
  ∧ (proper_prefix pre (make_BLOB target_buf bv).1 →
     (deserialize dst pre op).2 ≠ None).
Proof.
  intros Hdst Hwf. split.
  - by destruct (make_BLOB_decodes dst bv target_buf op) as (r & -> & _).
  - unfold make_BLOB. cbn [fst]. rewrite memcpy_resize.
    apply deserialize_truncated. auto with bm.
Qed.

(** ** The aggregator blocks *)

(** What the three [add] calls leave attached. *)
Lemma attached_sources a b c : agg_sources (attach a b c) = [a; b; c].
Proof. unfold attach. by autorewrite with bm. Qed.

(** An aggregator with three vectors attached combines them into any valid
    target, whatever the target held and whatever the optimization flag. *)
Lemma agg_combine_or_printout agg target A B C :
  agg_sources agg = [bvector_of A; bvector_of B; bvector_of C] → bv_wf target →
  print_bvector (agg_combine_or agg target) = printout (listing (A ++ B ++ C)) None.
Proof.
  intros Hsrc Hwf. eapply print_bvector_listing_equiv.
  - apply agg_combine_or_wf; rewrite ?Hsrc; auto 10 with bm.
  - eapply agg_combine_or_fold; [apply Hsrc|..]; auto 10 with bm.
  - cbn [foldl]. by autorewrite with bm.
  - intros p. cbn [foldl]. autorewrite with bm_get. members.
Qed.

Lemma or_aggregator_printout A B C :
  or_aggregator A B C = printout (listing (A ++ B ++ C)) None.
Proof.
  unfold or_aggregator.
  apply agg_combine_or_printout; [apply attached_sources|auto with bm].
Qed.

(** C9: the aggregator over three sources prints, in ascending order and
    with no size bound, exactly the positions that are in one of the three
    lists. *)
Theorem or_aggregator_spec A B C :
  prints (or_aggregator A B C) (λ p, p ∈ A ∨ p ∈ B ∨ p ∈ C) None.
Proof.
  eapply prints_listing; [apply or_aggregator_printout|].
  intros p. by rewrite !elem_of_app.
Qed.

(** ** The blocks of [DemoAND] *)

Lemma and_bit_and_printout A B :
  and_bit_and A B = printout (listing (filter (.∈ B) A)) None.
Proof. unfold and_bit_and. block_spec. Qed.

Lemma and_resized_printout A B size_A size_B :
  and_resized A B size_A size_B =
    printout (listing (filter (λ p, p ∈ B ∧ p < size_A ∧ p < size_B)%N A))
             (Some (N.max size_A size_B)).
Proof. unfold and_resized. block_spec. Qed.

Lemma and_opcode_printout A B :
  and_opcode A B = printout (listing (filter (.∈ B) A)) None.
Proof. unfold and_opcode. block_spec. Qed.

Lemma and_stl_printout A B :
  and_stl A B = printout (listing (filter (.∈ B) A)) None.
Proof. unfold and_stl. block_spec. Qed.

Lemma agg_combine_and_printout agg target A B C :
  agg_sources agg = [bvector_of A; bvector_of B; bvector_of C] → bv_wf target →
  print_bvector (agg_combine_and agg target)
  = printout (listing (filter (λ p, p ∈ B ∧ p ∈ C) A)) None.
Proof.
  intros Hsrc Hwf. eapply print_bvector_listing_equiv.
  - apply agg_combine_and_wf; rewrite ?Hsrc; auto 10 with bm.
  - eapply agg_combine_and_fold; [apply Hsrc|..]; auto 10 with bm.
  - cbn [foldl]. by autorewrite with bm.
  - intros p. cbn [foldl]. autorewrite with bm_get. members.
Qed.

Lemma and_aggregator_printout A B C :
  and_aggregator A B C = printout (listing (filter (λ p, p ∈ B ∧ p ∈ C) A)) None.
Proof.
  unfold and_aggregator.
  apply agg_combine_and_printout; [apply attached_sources|auto with bm].
Qed.

(** C7: the member call [bv_A.bit_and(bv_B)] prints, in ascending order and
    with no size bound, exactly the positions that are in both lists. *)
Theorem and_bit_and_spec A B :
  prints (and_bit_and A B) (λ p, p ∈ A ∧ p ∈ B) None.
Proof.
  eapply prints_listing; [apply and_bit_and_printout|].
  intros p. rewrite list_elem_of_filter. tauto.
Qed.

(** C28: the intersection block prints the same whichever of the two lists
    initializes [bv_A] and whichever [bv_B]: the intersection commutes. *)
Theorem and_bit_and_comm A B : and_bit_and A B = and_bit_and B A.
Proof.
  rewrite !and_bit_and_printout. f_equal. apply listing_ext.
  intros p. rewrite !list_elem_of_filter. tauto.
Qed.

(** C14: with explicit sizes the intersection is of the members below both
    sizes, and the size printed is still the larger of the two. *)
Theorem and_resized_spec A B size_A size_B :
  prints (and_resized A B size_A size_B)
         (λ p, p ∈ A ∧ p ∈ B ∧ p < size_A ∧ p < size_B)%N
         (Some (N.max size_A size_B)).
Proof.
  eapply prints_listing; [apply and_resized_printout|].
  intros p. rewrite list_elem_of_filter. tauto.
Qed.

(** C35: the table-driven entry point with the code [BM_AND] prints what
    the member call [bit_and] prints. *)
Theorem and_opcode_spec A B : and_opcode A B = and_bit_and A B.
Proof. by rewrite and_opcode_printout, and_bit_and_printout. Qed.

(** C16: [combine_and] over an STL range prints what the intersection of two
    vectors prints. *)
Theorem and_stl_spec A B : and_stl A B = and_bit_and A B.
Proof. by rewrite and_stl_printout, and_bit_and_printout. Qed.

(** C12: the intersection with a serialized vector prints what the
    intersection of the two vectors prints, and never throws. *)
Theorem and_blob_spec A B :
  and_blob A B = and_bit_and A B ∧ returns (and_blob A B).
Proof.
  rewrite and_blob_printout, and_bit_and_printout. split; [done|]. by exists tt.
Qed.

(** C10: the aggregator's AND over three sources prints, in ascending order
    and with no size bound, exactly the positions that are in all three
    lists. *)
Theorem and_aggregator_spec A B C :
  prints (and_aggregator A B C) (λ p, p ∈ A ∧ p ∈ B ∧ p ∈ C) None.
Proof.
  eapply prints_listing; [apply and_aggregator_printout|].
  intros p. rewrite list_elem_of_filter. tauto.
Qed.

(** C38: the aggregator prints what the left fold of the pairwise member
    calls prints, over the same three operands taken in any order. *)
Theorem aggregator_fold_any_order A B C A' B' C' :
  [A; B; C] ≡ₚ [A'; B'; C'] →
  or_aggregator A B C
  = print_bvector (bit_or (bit_or (bvector_of A') (bvector_of B')) (bvector_of C'))
  ∧ and_aggregator A B C
    = print_bvector
        (bit_and (bit_and (bvector_of A') (bvector_of B')) (bvector_of C')).
Proof.
  intros HP. rewrite or_aggregator_printout, and_aggregator_printout.
  split; symmetry;
    (apply print_bvector_listing;
     [auto 10 with bm|by autorewrite with bm|intros p; autorewrite with bm_get]).
  - pose proof (some_of_three (p ∈.) _ _ _ _ _ _ HP). members.
  - pose proof (all_of_three (p ∈.) _ _ _ _ _ _ HP). members.
Qed.

(** C37: the aggregator blocks print the same from any aggregator that has
    the three sources attached in this order, whether or not
    [set_optimization] was called on it, and into any valid target,
    whatever the target held before. *)
Theorem aggregator_any_target A B C agg target :
  agg_sources agg = [bvector_of A; bvector_of B; bvector_of C] → bv_wf target →
  print_bvector (agg_combine_or agg target) = or_aggregator A B C
  ∧ print_bvector (agg_combine_and agg target) = and_aggregator A B C.
Proof.
  intros Hsrc Hwf. rewrite or_aggregator_printout, and_aggregator_printout.
  split; [by apply agg_combine_or_printout|by apply agg_combine_and_printout].
Qed.

(** C36: an STL range is taken as the set of its elements: two ranges with
    the same elements, in any order and with any repetitions, give the same
    output under [combine_or] and under [combine_and]. *)
Theorem stl_range_as_set A B B' :
  (∀ p, p ∈ B ↔ p ∈ B') →
  or_stl A B = or_stl A B' ∧ and_stl A B = and_stl A B'.
Proof.
  intros HB. rewrite !or_stl_printout, !and_stl_printout.
  split; f_equal; apply listing_ext; intros p.
  - rewrite !elem_of_app, HB. tauto.
  - rewrite !list_elem_of_filter, HB. tauto.
Qed.

(** ** The demos on the literals of the source *)

Lemma demo_B_ascending : StronglySorted N.lt demo_B.
Proof. unfold demo_B. repeat constructor; lia. Qed.

Lemma DemoOR_printout :
  DemoOR =
    (printout [1; 2; 3; 4]%N None ;;
     printout [1; 2; 3; 4]%N (Some 10%N) ;;
     printout [1; 2; 3; 4]%N None ;;
     printout [1; 2; 3; 4]%N None ;;
     printout [1; 2; 3; 4]%N None ;;
     printout [1; 2; 3; 4]%N None ;;
     printout [1; 2; 3; 4]%N None).
Proof.
  unfold DemoOR.
  rewrite or_aggregator_printout, or_blob_printout,
    (or_c_array_printout _ _ demo_B_ascending), or_stl_printout,
    or_opcode_printout, or_resized_printout, or_bit_or_printout.
  by vm_compute.
Qed.

Lemma DemoAND_printout :
  DemoAND =
    (printout [1; 2]%N None ;;
     printout [1; 2]%N (Some 10%N) ;;
     printout [1; 2]%N None ;;
     printout [1; 2]%N None ;;
     printout [1; 2]%N None ;;
     printout [1; 2]%N None).
Proof.
  unfold DemoAND.
  rewrite and_aggregator_printout, and_blob_printout, and_stl_printout,
    and_opcode_printout, and_resized_printout, and_bit_and_printout.
  by vm_compute.
Qed.

(** C3: [DemoOR] prints [1, 2, 3, 4, ] seven times, the second time with
    size 10 and otherwise unbounded; it writes nothing to the error stream
    and ends normally. *)
Theorem DemoOR_output :
  stdout DemoOR
  = printed [1; 2; 3; 4]%N None ++ printed [1; 2; 3; 4]%N (Some 10%N)
    ++ printed [1; 2; 3; 4]%N None ++ printed [1; 2; 3; 4]%N None
    ++ printed [1; 2; 3; 4]%N None ++ printed [1; 2; 3; 4]%N None
    ++ printed [1; 2; 3; 4]%N None
  ∧ stderr DemoOR = []
  ∧ result DemoOR = Normal tt.
Proof. rewrite DemoOR_printout. by vm_compute. Qed.

(** C4: [DemoAND] prints [1, 2, ] six times, the second time with size 10
    and otherwise unbounded; it writes nothing to the error stream and ends
    normally. *)
Theorem DemoAND_output :
  stdout DemoAND
  = printed [1; 2]%N None ++ printed [1; 2]%N (Some 10%N)
    ++ printed [1; 2]%N None ++ printed [1; 2]%N None
    ++ printed [1; 2]%N None ++ printed [1; 2]%N None
  ∧ stderr DemoAND = []
  ∧ result DemoAND = Normal tt.
Proof. rewrite DemoAND_printout. by vm_compute. Qed.

(** ** [main] *)

(** C5: [main] returns 0, writes nothing to [cerr] (the handler is never
    entered), and its standard output is the two banners, each followed by
    the lines of its demo. *)
Theorem main_spec :
  result main = Normal 0%Z
  ∧ stderr main = []
  ∧ stdout main =
      [TEndl; TStr "Set Union (OR) demo"; TEndl; TEndl] ++ stdout DemoOR
      ++ [TEndl; TStr "Set Intersect (AND) demo"; TEndl; TEndl] ++ stdout DemoAND.
Proof.
  unfold main, run_demos. rewrite DemoOR_printout, DemoAND_printout.
  by vm_compute.
Qed.

(** C23: whatever the body of the [try] block does, the exit status is 0:
    an exception is reported on [cerr] by its message and a line end, and
    is not reflected in the value [main] returns. *)
Theorem main_exit_status (body : io unit) :
  result (try_catch body report ;; mret 0%Z) = Normal 0%Z
  ∧ ∀ what, result body = Thrown what →
      stderr (try_catch body report ;; mret 0%Z)
      = stderr body ++ [TStr what; TEndl].
Proof.
  destruct body as [out [[]|what]]; split; try done.
  intros what' [= <-]. unfold stderr, events. cbn.
  by rewrite app_nil_r, omap_app.
Qed.

(** C19: the characters [main] puts on the standard output, on every engine
    that meets the contract: a line feed, the banner and two line feeds
    before each demo; seven lines [1, 2, 3, 4, ] and six lines [1, 2, ], each
    with a comma and a space after its last number too and each with its
    size, which is 10 on the second line of a demo and elsewhere whatever
    [u] the engine writes for the size of a vector without bound. *)
Theorem main_text u :
  text u (stdout main)
  = (newline ++ "Set Union (OR) demo" ++ newline ++ newline
     ++ "1, 2, 3, 4, (size = " ++ u ++ ")" ++ newline
     ++ "1, 2, 3, 4, (size = 10)" ++ newline
     ++ "1, 2, 3, 4, (size = " ++ u ++ ")" ++ newline
     ++ "1, 2, 3, 4, (size = " ++ u ++ ")" ++ newline
     ++ "1, 2, 3, 4, (size = " ++ u ++ ")" ++ newline
     ++ "1, 2, 3, 4, (size = " ++ u ++ ")" ++ newline
     ++ "1, 2, 3, 4, (size = " ++ u ++ ")" ++ newline
     ++ newline ++ "Set Intersect (AND) demo" ++ newline ++ newline
     ++ "1, 2, (size = " ++ u ++ ")" ++ newline
     ++ "1, 2, (size = 10)" ++ newline
     ++ "1, 2, (size = " ++ u ++ ")" ++ newline
     ++ "1, 2, (size = " ++ u ++ ")" ++ newline
     ++ "1, 2, (size = " ++ u ++ ")" ++ newline
     ++ "1, 2, (size = " ++ u ++ ")" ++ newline)%string.
Proof.
  unfold main, run_demos. rewrite DemoOR_printout, DemoAND_printout.
  by vm_compute.
Qed.

(** ** When the decoder refuses the buffer

    Nothing below uses the contract of the serializer: the deserializer may
    be any function, and the premise is that it refuses the buffer of the
    sixth block of [DemoOR]. *)

(** The two statements that end a BLOB block throw the decoder's message. *)
Lemma decode_print_failure dst blob op what :
  (deserialize dst blob op).2 = Some what →
  decode_print dst blob op = throw what.
Proof.
  unfold decode_print. destruct (deserialize dst blob op) as [r e]. cbn.
  by intros ->.
Qed.

(** The exception leaves [DemoOR] after five blocks. *)
Lemma DemoOR_failure what :
  (deserialize (bvector_of demo_A) (blob_scope [] demo_B) set_OR).2 = Some what →
  DemoOR =
    (printout [1; 2; 3; 4]%N None ;;
     printout [1; 2; 3; 4]%N (Some 10%N) ;;
     printout [1; 2; 3; 4]%N None ;;
     printout [1; 2; 3; 4]%N None ;;
     printout [1; 2; 3; 4]%N None ;;
     throw what).
Proof.
  intros Hfail. unfold DemoOR, or_blob.
  rewrite (decode_print_failure _ _ _ _ Hfail), io_bind_throw,
    (or_c_array_printout _ _ demo_B_ascending), or_stl_printout,
    or_opcode_printout, or_resized_printout, or_bit_or_printout.
  by vm_compute.
Qed.

(** C25: the error path of the whole program.  If the decoder refuses the
    buffer of the sixth block of [DemoOR], the exception leaves the block
    before its vector is printed, skips the aggregator block and the whole
    of [DemoAND], and is caught in [main]: the standard output holds the
    first banner and five lines, the error stream the decoder's message and
    a line end, and the exit status is still 0. *)
Theorem main_decode_failure what :
  (deserialize (bvector_of demo_A) (blob_scope [] demo_B) set_OR).2 = Some what →
  result main = Normal 0%Z
  ∧ stdout main
    = [TEndl; TStr "Set Union (OR) demo"; TEndl; TEndl]
      ++ printed [1; 2; 3; 4]%N None ++ printed [1; 2; 3; 4]%N (Some 10%N)
      ++ printed [1; 2; 3; 4]%N None ++ printed [1; 2; 3; 4]%N None
      ++ printed [1; 2; 3; 4]%N None
  ∧ stderr main = [TStr what; TEndl].
Proof.
  intros Hfail. unfold main, run_demos. rewrite (DemoOR_failure _ Hfail).
  by vm_compute.
Qed.

End driver.
