(* ===== verification/Bits.v ===== *)
(** * Bits: natural numbers as finite sets of bit positions

    A bitmap is a number of type [N]: position [i] is in the set when
    [N.testbit n i] holds.  This file has what the blocks of the engine need
    of that reading: numbers that fit in a width, the ascending list of the
    set positions of a number, the lowest set position from an offset on,
    and the run-length view (the positions at which the bit value flips)
    with its inverse. *)

From Stdlib Require Import NArith List Lia Btauto.
From stdpp Require Import base tactics numbers list sorting.
From S2P Require Import Prelude.

Local Open Scope N_scope.

(** ** Bitwise equalities *)

Lemma N_ones_testbit n i : N.testbit (N.ones n) i = (i <? n).
Proof.
  destruct (N.ltb_spec i n).
  - by apply N.ones_spec_low.
  - by apply N.ones_spec_high.
Qed.

Lemma N_double_testbit n i : N.testbit (2 * n) i = negb (i =? 0) && N.testbit n (N.pred i).
Proof.
  destruct (N.eqb_spec i 0) as [->|Hi].
  - apply N.testbit_even_0.
  - rewrite <-(N.succ_pred i) at 1 by done. apply N.testbit_even_succ'.
Qed.

#[export] Hint Rewrite N.lor_spec N.land_spec N.ldiff_spec N.lxor_spec
  N.bits_0 N_ones_testbit N.setbit_eqb N.clearbit_eqb N_double_testbit : bm_bits.

(** [bitwise] proves an equation between numbers bit by bit. *)
Ltac bitwise :=
  apply N.bits_inj; intros ?i; autorewrite with bm_bits;
  try (case_ifs; try lia; btauto).

(** ** Numbers that fit in a width *)

Section fits.
Implicit Types (w n m i : N).

Definition fits w n : Prop := ∀ i, N.testbit n i = true → i < w.

Lemma fits_testbit w n i : fits w n → w ≤ i → N.testbit n i = false.
Proof.
  intros Hn Hi. destruct (N.testbit n i) eqn:Hb; [|done].
  apply Hn in Hb. lia.
Qed.

Lemma fits_0 w : fits w 0.
Proof. intros i. by rewrite N.bits_0. Qed.

Lemma fits_ones w : fits w (N.ones w).
Proof. intros i. rewrite N_ones_testbit. by intros ?%N.ltb_lt. Qed.

Lemma fits_land_ones w n : fits w (N.land n (N.ones w)).
Proof.
  intros i. rewrite N.land_spec, N_ones_testbit.
  by intros [_ ?%N.ltb_lt]%andb_true_iff.
Qed.

Lemma fits_lor w n m : fits w n → fits w m → fits w (N.lor n m).
Proof. intros Hn Hm i. rewrite N.lor_spec. intros [?|?]%orb_true_iff; auto. Qed.

Lemma fits_land_l w n m : fits w n → fits w (N.land n m).
Proof. intros Hn i. rewrite N.land_spec. intros [? _]%andb_true_iff; auto. Qed.

Lemma fits_land_r w n m : fits w m → fits w (N.land n m).
Proof. intros Hn i. rewrite N.land_spec. intros [_ ?]%andb_true_iff; auto. Qed.

Lemma fits_ldiff w n m : fits w n → fits w (N.ldiff n m).
Proof. intros Hn i. rewrite N.ldiff_spec. intros [? _]%andb_true_iff; auto. Qed.

Lemma fits_lxor w n m : fits w n → fits w m → fits w (N.lxor n m).
Proof.
  intros Hn Hm i. rewrite N.lxor_spec.
  destruct (N.testbit n i) eqn:?, (N.testbit m i) eqn:?; auto; done.
Qed.

Lemma fits_setbit w n i : fits w n → i < w → fits w (N.setbit n i).
Proof.
  intros Hn Hi j. rewrite N.setbit_eqb.
  intros [->%N.eqb_eq|?]%orb_true_iff; auto.
Qed.

Lemma fits_clearbit w n i : fits w n → fits w (N.clearbit n i).
Proof.
  intros Hn j. rewrite N.clearbit_eqb. intros [? _]%andb_true_iff; auto.
Qed.

(** A number that fits is unchanged by masking with the width. *)
Lemma fits_land_ones_id w n : fits w n → N.land n (N.ones w) = n.
Proof.
  intros Hn. apply N.bits_inj. intros i. rewrite N.land_spec, N_ones_testbit.
  destruct (N.ltb_spec i w); [apply andb_true_r|].
  by rewrite (fits_testbit w n i), andb_false_r.
Qed.

Lemma fits_lt w n : fits w n ↔ n < 2 ^ w.
Proof.
  split.
  - intros Hn. rewrite <-(fits_land_ones_id w n Hn), N.land_ones.
    apply N.mod_lt, N.pow_nonzero. lia.
  - intros Hlt i Hi. destruct (N.ltb_spec i w); [done|].
    destruct (N.eq_dec n 0) as [->|Hn0]; [by rewrite N.bits_0 in Hi|].
    rewrite N.bits_above_log2 in Hi; [done|].
    apply N.log2_lt_pow2 in Hlt; lia.
Qed.

Lemma fits_mono w w' n : fits w n → w ≤ w' → fits w' n.
Proof. intros Hn Hw i Hi. apply Hn in Hi. lia. Qed.

End fits.

(** Fitting is decided by masking. *)
#[export] Instance fits_dec w n : Decision (fits w n).
Proof.
  refine (cast_if (decide (N.land n (N.ones w) = n))).
  - abstract (rewrite <-e; apply fits_land_ones).
  - abstract (intros Hn; by apply fits_land_ones_id in Hn).
Defined.

#[export] Hint Resolve fits_0 fits_ones fits_land_ones fits_lor fits_land_l
  fits_land_r fits_ldiff fits_lxor fits_setbit fits_clearbit : bm.

(** ** The set positions of a number, ascending *)

Section positions.
Implicit Types (p : positive) (n i x : N).

(** The positions of the ones of [p], counted from [i], lowest first. *)
Fixpoint Pos_positions p i : list N :=
  match p with
  | xH => [i]
  | xO q => Pos_positions q (N.succ i)
  | xI q => i :: Pos_positions q (N.succ i)
  end.

Definition N_positions n : list N :=
  match n with
  | N0 => []
  | Npos p => Pos_positions p 0
  end.

(** The number whose set positions are those of a list. *)
Definition N_of_positions (l : list N) : N :=
  foldr (λ x acc, N.setbit acc x) 0 l.

Lemma elem_of_Pos_positions p i x :
  x ∈ Pos_positions p i ↔ i ≤ x ∧ N.testbit (Npos p) (x - i) = true.
Proof.
  revert i. induction p as [q IH|q IH|]; intros i; cbn [Pos_positions].
  - rewrite elem_of_cons, IH. change (N.pos q~1) with (2 * N.pos q + 1).
    destruct (N.lt_trichotomy x i) as [Hlt|[->|Hgt]].
    + intuition lia.
    + rewrite N.sub_diag, N.testbit_odd_0. intuition lia.
    + replace (x - i) with (N.succ (x - N.succ i)) by lia.
      rewrite N.testbit_odd_succ'. intuition lia.
  - rewrite IH. change (N.pos q~0) with (2 * N.pos q).
    destruct (N.lt_trichotomy x i) as [Hlt|[->|Hgt]].
    + intuition lia.
    + rewrite N.sub_diag, N.testbit_even_0. intuition (try lia; try done).
    + replace (x - i) with (N.succ (x - N.succ i)) by lia.
      rewrite N.testbit_even_succ'. intuition lia.
  - rewrite list_elem_of_singleton.
    destruct (N.lt_trichotomy x i) as [Hlt|[->|Hgt]].
    + intuition lia.
    + rewrite N.sub_diag. intuition (try lia; try done).
    + split; [lia|]. intros [Hle Hx]. exfalso.
      replace (x - i) with (N.succ (N.pred (x - i))) in Hx by lia.
      change 1 with (2 * 0 + 1) in Hx.
      by rewrite N.testbit_odd_succ', N.bits_0 in Hx.
Qed.

Lemma Pos_positions_ascending p i : StronglySorted N.lt (Pos_positions p i).
Proof.
  revert i. induction p as [q IH|q IH|]; intros i; cbn [Pos_positions].
  - constructor; [apply IH|]. apply Forall_forall.
    intros x [? _]%elem_of_Pos_positions. lia.
  - apply IH.
  - repeat constructor.
Qed.

Lemma elem_of_N_positions n x : x ∈ N_positions n ↔ N.testbit n x = true.
Proof.
  destruct n as [|p]; cbn [N_positions].
  - rewrite elem_of_nil, N.bits_0. intuition discriminate.
  - rewrite elem_of_Pos_positions, N.sub_0_r. intuition lia.
Qed.

Lemma N_positions_ascending n : StronglySorted N.lt (N_positions n).
Proof. destruct n; [constructor|apply Pos_positions_ascending]. Qed.

Lemma N_of_positions_testbit l x :
  N.testbit (N_of_positions l) x = bool_decide (x ∈ l).
Proof.
  induction l as [|y l IH]; cbn [N_of_positions foldr].
  - by rewrite N.bits_0.
  - fold (N_of_positions l). rewrite N.setbit_eqb, IH. members.
Qed.

Lemma N_of_positions_fits w l : Forall (λ x, x < w) l → fits w (N_of_positions l).
Proof.
  intros Hl x. rewrite N_of_positions_testbit, bool_decide_eq_true.
  rewrite Forall_forall in Hl. auto.
Qed.

Lemma N_of_positions_of n : N_of_positions (N_positions n) = n.
Proof.
  apply N.bits_inj. intros x. rewrite N_of_positions_testbit.
  apply bool_eq_iff. by rewrite bool_decide_eq_true, elem_of_N_positions.
Qed.

Lemma N_positions_of l : StronglySorted N.lt l → N_positions (N_of_positions l) = l.
Proof.
  intros Hl. apply ascending_ext; [apply N_positions_ascending|done|].
  intros x. by rewrite elem_of_N_positions, N_of_positions_testbit, bool_decide_eq_true.
Qed.

End positions.

#[export] Hint Resolve N_positions_ascending : bm.
#[export] Hint Rewrite N_of_positions_testbit N_of_positions_of : bm_bits.

(** ** The lowest set position *)

Section lowest.
Implicit Types (p : positive) (n i o x : N).

(** The number of trailing zeros of [p], counted from [i]. *)
Fixpoint Pos_lowest p i : N :=
  match p with
  | xO q => Pos_lowest q (N.succ i)
  | _ => i
  end.

Definition N_lowest n : option N :=
  match n with
  | N0 => None
  | Npos p => Some (Pos_lowest p 0)
  end.

(** The lowest set position of [n] at or above [o]: the bits below [o] are
    shifted out and the trailing zeros of what is left are counted. *)
Definition lowest_from n o : option N :=
  (λ x, o + x) <$> N_lowest (N.shiftr n o).

Lemma head_Pos_positions p i : head (Pos_positions p i) = Some (Pos_lowest p i).
Proof. revert i. induction p; intros i; cbn; auto. Qed.

Lemma N_lowest_head n : N_lowest n = head (N_positions n).
Proof. destruct n; [done|]. symmetry. apply head_Pos_positions. Qed.

Lemma N_lowest_least n : least_from (λ x, N.testbit n x = true) 0 (N_lowest n).
Proof.
  rewrite N_lowest_head.
  eapply least_from_iff; [|apply least_head, N_positions_ascending].
  intros x. apply elem_of_N_positions.
Qed.

Lemma lowest_from_least n o :
  least_from (λ x, N.testbit n x = true) o (lowest_from n o).
Proof.
  unfold lowest_from. pose proof (N_lowest_least (N.shiftr n o)) as Hl.
  destruct (N_lowest (N.shiftr n o)) as [x|]; cbn in *.
  - destruct Hl as (Hx & _ & Hl). rewrite N.shiftr_spec' in Hx.
    split_and!; [by rewrite N.add_comm|lia|]. intros y Hy Hoy.
    specialize (Hl (y - o)). rewrite N.shiftr_spec', N.sub_add in Hl by done.
    specialize (Hl Hy). lia.
  - intros y Hy. apply N.lt_nge. intros Hoy.
    specialize (Hl (y - o)). rewrite N.shiftr_spec', N.sub_add in Hl by done.
    specialize (Hl Hy). lia.
Qed.

(** Only the number without set positions has no lowest one. *)
Lemma lowest_from_0 n : lowest_from n 0 = None → n = 0.
Proof. unfold lowest_from. rewrite N.shiftr_0_r. by destruct n. Qed.

End lowest.

(** ** Counting the members of a list below a bound *)

Section count_below.
Implicit Types (l : list N) (k : N).

Definition count_below k l : nat := length (filter (λ t, t < k) l).

Lemma count_below_0 l : count_below 0 l = 0%nat.
Proof.
  unfold count_below. induction l as [|t l IH]; [done|].
  rewrite filter_cons. case_decide; [lia|done].
Qed.

Lemma count_below_succ k l :
  NoDup l →
  count_below (N.succ k) l = (count_below k l + if decide (k ∈ l) then 1 else 0)%nat.
Proof.
  unfold count_below. induction 1 as [|t l Hnin Hnd IH]; [done|].
  rewrite !filter_cons, (decide_ext (k ∈ t :: l) (k = t ∨ k ∈ l))
    by apply elem_of_cons.
  destruct (decide (k = t)) as [->|Hne].
  - rewrite decide_True, (decide_False (P := t < t)), decide_True by (auto; lia).
    cbn [length]. rewrite IH, decide_False by done. lia.
  - destruct (decide (t < k)).
    + rewrite !decide_True by lia. cbn [length]. rewrite IH.
      destruct (decide (k ∈ l)); [rewrite decide_True|rewrite decide_False];
        naive_solver lia.
    + rewrite decide_False by lia. rewrite IH.
      destruct (decide (k ∈ l)); [rewrite decide_True|rewrite decide_False];
        naive_solver lia.
Qed.

End count_below.

(** ** The run-length view of a bitmap of width [w] *)

Section runs.
Context (w : N).
Implicit Types (ts : list N) (n i t : N).

(** The positions from [t] to the end of the width. *)
Definition suffix_mask t : N := N.ldiff (N.ones w) (N.ones t).

(** The bitmap of a list of toggle positions: the value starts at 0 and
    flips at each toggle, from its position onward. *)
Definition bits_of_toggles ts : N :=
  foldr (λ t acc, N.lxor (suffix_mask t) acc) 0 ts.

(** The toggle positions of a bitmap, ascending: the positions whose bit
    differs from the bit before (from 0 for position 0). *)
Definition toggles_of_bits n : list N :=
  N_positions (N.land (N.lxor n (2 * n)) (N.ones w)).

Lemma suffix_mask_testbit t i :
  N.testbit (suffix_mask t) i = (i <? w) && negb (i <? t).
Proof. unfold suffix_mask. by autorewrite with bm_bits. Qed.

Lemma bits_of_toggles_testbit ts i :
  N.testbit (bits_of_toggles ts) i
  = (i <? w) && Nat.odd (count_below (N.succ i) ts).
Proof.
  unfold count_below. induction ts as [|t ts IH]; cbn [bits_of_toggles foldr].
  - by rewrite N.bits_0, andb_false_r.
  - fold (bits_of_toggles ts).
    rewrite N.lxor_spec, suffix_mask_testbit, IH, filter_cons.
    destruct (N.ltb_spec i w); [|done]. cbn [andb].
    destruct (N.ltb_spec i t); case_decide; try lia; cbn [negb length].
    + by destruct (Nat.odd _).
    + rewrite Nat.odd_succ, <-Nat.negb_odd. by destruct (Nat.odd _).
Qed.

Lemma bits_of_toggles_fits ts : fits w (bits_of_toggles ts).
Proof.
  intros i. rewrite bits_of_toggles_testbit.
  by intros [?%N.ltb_lt _]%andb_true_iff.
Qed.

Lemma elem_of_toggles_of_bits n t :
  t ∈ toggles_of_bits n ↔
  t < w ∧ N.testbit n t ≠ (negb (t =? 0) && N.testbit n (N.pred t)).
Proof.
  unfold toggles_of_bits.
  rewrite elem_of_N_positions, N.land_spec, N.lxor_spec, N_ones_testbit,
    N_double_testbit, andb_true_iff, N.ltb_lt.
  destruct (N.testbit n t), (negb (t =? 0) && N.testbit n (N.pred t));
    cbn [xorb]; intuition congruence.
Qed.

Lemma toggles_of_bits_ascending n : StronglySorted N.lt (toggles_of_bits n).
Proof. apply N_positions_ascending. Qed.

Lemma toggles_of_bits_below n : Forall (λ t, t < w) (toggles_of_bits n).
Proof. apply Forall_forall. by intros t [? _]%elem_of_toggles_of_bits. Qed.

(** The parity of the number of toggles below [k] is the bit before [k]. *)
Lemma toggles_parity n k :
  k ≤ w →
  Nat.odd (count_below k (toggles_of_bits n))
  = negb (k =? 0) && N.testbit n (N.pred k).
Proof.
  induction k as [|k IH] using N.peano_ind; intros Hk.
  - by rewrite count_below_0.
  - rewrite count_below_succ, Nat.odd_add, IH, N.pred_succ
      by (try lia; eauto using ascending_NoDup, toggles_of_bits_ascending).
    destruct (N.eqb_spec (N.succ k) 0); [lia|]. cbn [negb andb].
    case_decide as Hin; rewrite elem_of_toggles_of_bits in Hin.
    + destruct Hin as [_ Hin]. change (Nat.odd 1) with true.
      destruct (N.testbit n k), (negb (k =? 0) && N.testbit n (N.pred k)); done.
    + change (Nat.odd 0) with false. rewrite xorb_false_r.
      destruct (decide (N.testbit n k = (negb (k =? 0) && N.testbit n (N.pred k))));
        [done|]. exfalso. apply Hin. split; [lia|done].
Qed.

(** Decoding the toggles of a bitmap that fits gives the bitmap back. *)
Lemma bits_of_toggles_of n : fits w n → bits_of_toggles (toggles_of_bits n) = n.
Proof.
  intros Hn. apply N.bits_inj. intros i. rewrite bits_of_toggles_testbit.
  destruct (N.ltb_spec i w); [|by rewrite (fits_testbit w n i)].
  rewrite toggles_parity, N.pred_succ by lia.
  by destruct (N.eqb_spec (N.succ i) 0); [lia|].
Qed.

(** The toggles of a decoded list of ascending positions below the width
    are that list. *)
Lemma toggles_of_bits_of ts :
  StronglySorted N.lt ts → Forall (λ t, t < w) ts →
  toggles_of_bits (bits_of_toggles ts) = ts.
Proof.
  intros Hts Hw. apply ascending_ext; [apply toggles_of_bits_ascending|done|].
  intros t. rewrite elem_of_toggles_of_bits, !bits_of_toggles_testbit.
  rewrite Forall_forall in Hw.
  destruct (N.ltb_spec t w) as [Hlt|Hge]; [|split; [lia|intros ?%Hw; lia]].
  rewrite count_below_succ by auto using ascending_NoDup. cbn [andb].
  destruct (N.eqb_spec t 0) as [->|Hne]; cbn [negb andb].
  - rewrite count_below_0. case_decide; cbn [Nat.add Nat.odd]; naive_solver.
  - rewrite N.succ_pred by done.
    replace (N.pred t <? w) with true by (symmetry; apply N.ltb_lt; lia).
    cbn [andb]. rewrite Nat.odd_add.
    case_decide; [change (Nat.odd 1) with true|change (Nat.odd 0) with false];
      destruct (Nat.odd _); naive_solver.
Qed.

End runs.

#[export] Hint Resolve bits_of_toggles_fits toggles_of_bits_ascending
  toggles_of_bits_below : bm.
