(* ===== verification/Block.v ===== *)
(** * Block: the compressed representation of one slice of the bit space

    A block stands for the [block_width] positions of its slice.  It is empty,
    full, a raw bitmap or a run list (the positions at which the bit value
    flips).  This file has the content of a block as a bitmap ([block_bits]),
    the canonical form ([canonical]), the dispatch table of the four
    operations with its short-circuit rules ([combine_block]) and the choice
    of the most compact form ([optimize_block]); it proves that each keeps
    the invariant and acts on the content as the operation does bit by bit. *)

From Stdlib Require Import NArith List Lia Btauto.
From stdpp Require Import base tactics numbers list sorting.
From S2P Require Import Prelude Interface Bits.

Local Open Scope N_scope.

(** ** Data *)

(** The number of positions of a block. *)
Definition block_width : N := 65536.

Inductive block : Type :=
  | Empty
  | Full
  | Bitmap (bits : N)
  | RunList (toggles : list N).

#[export] Instance block_eq_dec : EqDecision block.
Proof. solve_decision. Defined.

(** ** Operations *)

(** The content of a block as a bitmap: a run list is decoded to a
    transient bitmap. *)
Definition block_bits (b : block) : N :=
  match b with
  | Empty => 0
  | Full => N.ones block_width
  | Bitmap n => n
  | RunList ts => bits_of_toggles block_width ts
  end.

(** An all-zero payload is [Empty], an all-one payload is [Full]. *)
Definition canonical (b : block) : block :=
  let n := block_bits b in
  if n =? 0 then Empty
  else if n =? N.ones block_width then Full
  else b.

(** The bit-level pass of an operation over two bitmaps. *)
Definition bit_op (op : operation) (x y : N) : N :=
  match op with
  | BM_AND => N.land x y
  | BM_OR => N.lor x y
  | BM_SUB => N.ldiff x y
  | BM_XOR => N.lxor x y
  end.

(** The dispatch table: operator, left variant, right variant.  Only when no
    short-circuit rule applies are the bits looked at. *)
Definition combine_block (op : operation) (l r : block) : block :=
  match op, l, r with
  | BM_AND, Empty, _ | BM_AND, _, Empty => Empty
  | BM_AND, Full, x | BM_AND, x, Full => x
  | BM_OR, Empty, x | BM_OR, x, Empty => x
  | BM_OR, Full, _ | BM_OR, _, Full => Full
  | BM_SUB, Empty, _ | BM_SUB, _, Full => Empty
  | BM_SUB, x, Empty => x
  | BM_XOR, Empty, x | BM_XOR, x, Empty => x
  | BM_XOR, Full, Full => Empty
  | _, _, _ => canonical (Bitmap (bit_op op (block_bits l) (block_bits r)))
  end.

(** The most compact faithful form.  Below level 3 a block is only made
    canonical; from level 3 on a run list replaces the bitmap when it is
    smaller: two bytes a toggle against [block_width / 8] bytes. *)
Definition optimize_block (level : N) (b : block) : block :=
  match canonical b with
  | Empty => Empty
  | Full => Full
  | b' =>
      if level <? 3 then b'
      else
        let ts := toggles_of_bits block_width (block_bits b') in
        if N.of_nat (length ts) * 16 <? block_width then RunList ts
        else Bitmap (block_bits b')
  end.

(** ** Invariant *)

(** The payload is well formed: a bitmap fits the width, the toggles of a
    run list ascend and lie in the width. *)
Definition block_ok (b : block) : Prop :=
  match b with
  | Empty | Full => True
  | Bitmap n => fits block_width n
  | RunList ts => StronglySorted N.lt ts ∧ Forall (λ t, t < block_width) ts
  end.

(** A valid block is well formed and canonical. *)
Definition block_wf (b : block) : Prop := block_ok b ∧ canonical b = b.

Lemma block_width_pos : 0 < block_width.
Proof. done. Qed.

#[global] Opaque block_width.

Section block_facts.
Implicit Types (b l r : block) (op : operation) (i : N).

Lemma block_bits_fits b : block_ok b → fits block_width (block_bits b).
Proof. destruct b; cbn; auto with bm. Qed.

Lemma ones_width_ne_0 : N.ones block_width ≠ 0.
Proof.
  intros Heq. pose proof (N_ones_testbit block_width 0) as Hb.
  rewrite Heq, N.bits_0 in Hb. pose proof block_width_pos.
  destruct (N.ltb_spec 0 block_width); [done|lia].
Qed.

Lemma canonical_bits b : block_bits (canonical b) = block_bits b.
Proof.
  unfold canonical. destruct (N.eqb_spec (block_bits b) 0) as [->|_]; [done|].
  by destruct (N.eqb_spec (block_bits b) (N.ones block_width)) as [->|_].
Qed.

Lemma canonical_ok b : block_ok b → block_ok (canonical b).
Proof.
  intros Hb. unfold canonical. cbv zeta.
  destruct (block_bits b =? 0); [exact I|].
  destruct (block_bits b =? N.ones block_width); [exact I|exact Hb].
Qed.

Lemma canonical_Full : canonical Full = Full.
Proof.
  unfold canonical. cbn [block_bits].
  destruct (N.eqb_spec (N.ones block_width) 0); [by destruct ones_width_ne_0|].
  by rewrite N.eqb_refl.
Qed.

(** The three cases of [canonical]. *)
Lemma canonical_cases b :
  (block_bits b = 0 ∧ canonical b = Empty)
  ∨ (block_bits b = N.ones block_width ∧ canonical b = Full)
  ∨ (block_bits b ≠ 0 ∧ block_bits b ≠ N.ones block_width ∧ canonical b = b).
Proof.
  unfold canonical. cbv zeta.
  destruct (N.eqb_spec (block_bits b) 0) as [Hz|Hz]; [by left|].
  destruct (N.eqb_spec (block_bits b) (N.ones block_width)); [right; by left|].
  right; by right.
Qed.

Lemma canonical_idemp b : canonical (canonical b) = canonical b.
Proof.
  destruct (canonical_cases b) as [[_ Hc]|[[_ Hc]|(_ & _ & Hc)]]; rewrite !Hc;
    [reflexivity|apply canonical_Full|done].
Qed.

Lemma canonical_wf b : block_ok b → block_wf (canonical b).
Proof. split; [by apply canonical_ok|apply canonical_idemp]. Qed.

Lemma block_wf_ok b : block_wf b → block_ok b.
Proof. by intros [? _]. Qed.

Lemma Empty_wf : block_wf Empty.
Proof. done. Qed.

Lemma Full_wf : block_wf Full.
Proof. split; [done|apply canonical_Full]. Qed.

(** A valid block is [Empty] exactly when its content is: emptiness is read
    off the variant. *)
Lemma block_bits_0 b : block_wf b → block_bits b = 0 ↔ b = Empty.
Proof.
  intros [_ Hc]. split; [|by intros ->]. intros Hz.
  destruct (canonical_cases b) as [[_ Hb]|[[Ho _]|(Hnz & _)]]; [congruence| |done].
  rewrite Hz in Ho. by destruct ones_width_ne_0.
Qed.

Lemma block_bits_ones b : block_wf b → block_bits b = N.ones block_width ↔ b = Full.
Proof.
  intros [_ Hc]. split; [|by intros ->]. intros Ho.
  destruct (canonical_cases b) as [[Hz _]|[[_ Hb]|(_ & Hno & _)]]; [|congruence|done].
  rewrite Hz in Ho. by destruct ones_width_ne_0.
Qed.

(** The bit-level pass does to each position what the operation says. *)
Lemma bit_op_testbit op x y i :
  N.testbit (bit_op op x y) i = bool_op op (N.testbit x i) (N.testbit y i).
Proof. destruct op; cbn; by autorewrite with bm_bits. Qed.

Lemma bit_op_fits op x y :
  fits block_width x → fits block_width y → fits block_width (bit_op op x y).
Proof. destruct op; cbn; auto with bm. Qed.

Lemma bit_op_0_r op x : bit_op op x 0 = match op with BM_AND => 0 | _ => x end.
Proof. destruct op; cbn; bitwise. Qed.

Lemma bit_op_0_l op y :
  bit_op op 0 y = match op with BM_OR | BM_XOR => y | _ => 0 end.
Proof. destruct op; cbn; bitwise. Qed.

(** The dispatch table computes the bit-level pass: every short-circuit
    rule is an identity of the operation. *)
Lemma combine_block_bits op l r :
  block_ok l → block_ok r →
  block_bits (combine_block op l r) = bit_op op (block_bits l) (block_bits r).
Proof.
  intros Hl%block_bits_fits Hr%block_bits_fits.
  destruct op, l, r; cbn [combine_block]; rewrite ?canonical_bits;
    cbn [block_bits bit_op] in *; try done;
    apply N.bits_inj; intros i; autorewrite with bm_bits;
    destruct (N.ltb_spec i block_width);
    rewrite ?(fits_testbit block_width _ i) by done; btauto.
Qed.

Lemma combine_block_ok op l r :
  block_ok l → block_ok r → block_ok (combine_block op l r).
Proof.
  intros Hl Hr.
  destruct op, l, r; cbn [combine_block]; try done;
    apply canonical_ok; apply bit_op_fits; by apply block_bits_fits.
Qed.

Lemma combine_block_wf op l r :
  block_wf l → block_wf r → block_wf (combine_block op l r).
Proof.
  intros Hl Hr.
  destruct op, l, r; cbn [combine_block];
    try done; try apply Full_wf;
    apply canonical_wf, bit_op_fits; by apply block_bits_fits, block_wf_ok.
Qed.

(** Against an absent block each operation is a short circuit. *)
Lemma combine_block_Empty_r op l :
  combine_block op l Empty = match op with BM_AND => Empty | _ => l end.
Proof. by destruct op, l. Qed.

Lemma combine_block_Empty_l op r :
  combine_block op Empty r = match op with BM_OR | BM_XOR => r | _ => Empty end.
Proof. by destruct op, r. Qed.

(** [optimize_block] changes the form of a block and not its content. *)
Lemma optimize_block_bits level b :
  block_ok b → block_bits (optimize_block level b) = block_bits b.
Proof.
  intros Hb. unfold optimize_block.
  pose proof (canonical_bits b) as Hc.
  pose proof (block_bits_fits _ (canonical_ok b Hb)) as Hf.
  destruct (canonical b) eqn:Hcb; try done;
    (destruct (level <? 3); [done|]); case_match; try done;
    cbn [block_bits] in *; by rewrite bits_of_toggles_of.
Qed.

Lemma optimize_block_ok level b : block_ok b → block_ok (optimize_block level b).
Proof.
  intros Hb. unfold optimize_block.
  pose proof (canonical_ok b Hb) as Hok.
  destruct (canonical b) eqn:Hcb; try done;
    (destruct (level <? 3); [done|]); case_match; cbn; auto with bm.
Qed.

(** [optimize_block] returns the canonical form or a bitmap or run list of
    the same content. *)
Lemma optimize_block_cases level b :
  optimize_block level b = canonical b
  ∨ (canonical b ≠ Empty ∧ canonical b ≠ Full
     ∧ optimize_block level b ≠ Empty ∧ optimize_block level b ≠ Full).
Proof.
  unfold optimize_block.
  destruct (canonical b) eqn:Hcb; auto; right;
    (destruct (level <? 3); [done|]); by case_match.
Qed.

Lemma optimize_block_wf level b : block_ok b → block_wf (optimize_block level b).
Proof.
  intros Hb. pose proof (canonical_wf b Hb) as Hwf.
  destruct (optimize_block_cases level b) as [->|(Hne & Hnf & Hoe & Hof)]; [done|].
  split; [by apply optimize_block_ok|].
  pose proof (optimize_block_bits level b Hb) as Hbits.
  rewrite <-(canonical_bits b) in Hbits.
  destruct (canonical_cases (optimize_block level b))
    as [[Hz _]|[[Ho _]|(_ & _ & Hc)]]; [| |done].
  - rewrite Hbits in Hz. by apply (block_bits_0 _ Hwf) in Hz.
  - rewrite Hbits in Ho. by apply (block_bits_ones _ Hwf) in Ho.
Qed.

End block_facts.

#[export] Instance block_ok_dec b : Decision (block_ok b).
Proof. destruct b; cbn; apply _. Defined.

#[export] Hint Resolve block_bits_fits canonical_ok canonical_wf block_wf_ok
  Empty_wf Full_wf bit_op_fits combine_block_ok combine_block_wf
  optimize_block_ok optimize_block_wf : bm.
#[export] Hint Rewrite canonical_bits bit_op_testbit : bm_bits.
