(* ===== verification/BVector.v ===== *)
(** * BVector: the bit vector of the reference engine

    A vector is an optional size and a sparse store of blocks, indexed by
    block number; an absent block is [Empty].  Position [p] lives in block
    [p / block_width] at offset [p mod block_width].  This file defines the
    store access ([get_block], [set_block]), the public operations of the
    vector and the two array algorithms of [bmalgo.h], and proves that each
    keeps the invariant [bv_wf] and what it does to every position.  The
    last part packs the proofs as the instance of the [BitVector] interface
    that the driver runs on. *)

From Stdlib Require Import NArith List Lia Btauto.
From stdpp Require Import base tactics numbers list sorting gmap.
From S2P Require Import Prelude Interface Bits Block.

Local Open Scope N_scope.

(** ** Data *)

Record bvector : Type := BVector {
  bv_size : option N;
  bv_store : gmap N block;
}.

(** ** The block store *)

(** How a block is kept: an [Empty] block occupies no storage. *)
Definition stored (b : block) : option block :=
  match b with
  | Empty => None
  | _ => Some b
  end.

Definition get_block (bv : bvector) (i : N) : block :=
  default Empty (bv_store bv !! i).

Definition set_block (bv : bvector) (i : N) (b : block) : bvector :=
  BVector (bv_size bv) (partial_alter (λ _, stored (canonical b)) i (bv_store bv)).

(** ** Reading and writing one position *)

Definition get_bit (bv : bvector) (p : N) : bool :=
  N.testbit (block_bits (get_block bv (p / block_width))) (p mod block_width).

(** A position at or beyond the size is not addressable: writing there
    changes nothing. *)
Definition set_bit (bv : bvector) (p : N) (value : bool) : bvector :=
  if size_ltb p (bv_size bv) then
    let i := p / block_width in
    let o := p mod block_width in
    let bits := block_bits (get_block bv i) in
    set_block bv i (Bitmap (if value then N.setbit bits o else N.clearbit bits o))
  else bv.

(** ** Construction, size, enumeration *)

Definition bvector_of (ids : list N) : bvector :=
  foldl (λ bv p, set_bit bv p true) (BVector None ∅) ids.

(** What is left of block [i] when positions from [new_size] on are cut. *)
Definition truncate_block (new_size i : N) (b : block) : block :=
  let lo := i * block_width in
  if lo + block_width <=? new_size then b
  else if new_size <=? lo then Empty
  else canonical (Bitmap (N.land (block_bits b) (N.ones (new_size - lo)))).

Definition resize (bv : bvector) (new_size : N) : bvector :=
  BVector (Some new_size)
          (map_imap (λ i b, stored (truncate_block new_size i b)) (bv_store bv)).

(** The indices of the stored blocks, ascending. *)
Definition block_indices (bv : bvector) : list N :=
  listing (map fst (map_to_list (bv_store bv))).

(** The positions an enumeration yields: block by block in ascending block
    order, the set positions of each block ascending. *)
Definition positions (bv : bvector) : list N :=
  block_indices bv ≫= λ i,
    (λ o, i * block_width + o) <$> N_positions (block_bits (get_block bv i)).

(** ** The operation engine *)

(** One operation over two stores, block index by block index; the size
    becomes the larger of the two. *)
Definition combine_operation (bv other : bvector) (op : operation) : bvector :=
  BVector (size_max (bv_size bv) (bv_size other))
          (merge (λ l r, stored (combine_block op (default Empty l) (default Empty r)))
                 (bv_store bv) (bv_store other)).

(** The named members delegate to the operation engine. *)
Definition bit_or (bv other : bvector) : bvector :=
  combine_operation bv other BM_OR.

Definition bit_and (bv other : bvector) : bvector :=
  combine_operation bv other BM_AND.

(** ** Importing an array of positions *)

(** The bits gathered for block [cur] are merged into the store by one
    block-level OR. *)
Definition flush_block (bv : bvector) (cur acc : N) : bvector :=
  set_block bv cur (combine_block BM_OR (get_block bv cur) (canonical (Bitmap acc))).

(** The sorted path: positions of the same block follow each other, so the
    bits of a block are gathered in [acc] and flushed when the block number
    changes. *)
Fixpoint import_sorted (bv : bvector) (ids : list N) (cur acc : N) : bvector :=
  match ids with
  | [] => flush_block bv cur acc
  | p :: ids =>
      if negb (size_ltb p (bv_size bv)) then import_sorted bv ids cur acc
      else if p / block_width =? cur then
        import_sorted bv ids cur (N.setbit acc (p mod block_width))
      else
        import_sorted (flush_block bv cur acc) ids
                      (p / block_width) (N.setbit 0 (p mod block_width))
  end.

Definition set_ids (bv : bvector) (ids : list N) (so : sort_order) : bvector :=
  match so with
  | BM_SORTED => import_sorted bv ids 0 0
  | BM_UNSORTED => foldl (λ bv p, set_bit bv p true) bv ids
  end.

(** [bm::combine_or] and [bm::combine_and]: as if the range were first
    converted to a vector. *)
Definition combine_or (bv : bvector) (ids : list N) : bvector :=
  combine_operation bv (bvector_of ids) BM_OR.

Definition combine_and (bv : bvector) (ids : list N) : bvector :=
  combine_operation bv (bvector_of ids) BM_AND.

(** ** Optimization *)

Definition optimize (bv : bvector) (level : N) : bvector :=
  BVector (bv_size bv) (optimize_block level <$> bv_store bv).

(** ** Invariant *)

(** Every stored block is valid and none is [Empty]. *)
Definition store_wf (m : gmap N block) : Prop :=
  ∀ i b, m !! i = Some b → block_wf b ∧ b ≠ Empty.

(** A valid vector: a valid store, and no member at or beyond the size. *)
Definition bv_wf (bv : bvector) : Prop :=
  store_wf (bv_store bv) ∧ ∀ p, get_bit bv p = true → size_lt p (bv_size bv).

(** ** Positions: block number and offset *)

Section positions.
Implicit Types (p i o : N).

Lemma offset_lt p : p mod block_width < block_width.
Proof. apply N.mod_lt. pose proof block_width_pos. lia. Qed.

Lemma position_split p : p = p / block_width * block_width + p mod block_width.
Proof. rewrite (N.mul_comm (p / _)). apply N.Div0.div_mod. Qed.

Lemma position_div i o : o < block_width → (i * block_width + o) / block_width = i.
Proof.
  intros Ho. pose proof block_width_pos.
  rewrite N.div_add_l, N.div_small by lia. lia.
Qed.

Lemma position_mod i o : o < block_width → (i * block_width + o) mod block_width = o.
Proof.
  intros Ho. rewrite N.add_comm, N.Div0.mod_add. by apply N.mod_small.
Qed.

(** Positions of a lower block are below positions of a higher block. *)
Lemma position_lt i i' o o' :
  i < i' → o < block_width → i * block_width + o < i' * block_width + o'.
Proof. nia. Qed.

Lemma position_eq p q :
  q / block_width = p / block_width → p mod block_width = q mod block_width →
  q = p.
Proof. intros Hd Hm. by rewrite (position_split q), (position_split p), Hd, Hm. Qed.

End positions.

(** ** The block store *)

Section store.
Implicit Types (bv : bvector) (b : block) (i j p : N).

Lemma default_stored b : default Empty (stored b) = b.
Proof. by destruct b. Qed.

Lemma stored_Some b b' : stored b = Some b' ↔ b' = b ∧ b ≠ Empty.
Proof. destruct b; cbn; naive_solver. Qed.

Lemma stored_wf b b' : block_wf b → stored b = Some b' → block_wf b' ∧ b' ≠ Empty.
Proof. intros Hb [-> ?]%stored_Some. done. Qed.

Lemma get_block_wf bv i : store_wf (bv_store bv) → block_wf (get_block bv i).
Proof.
  intros Hwf. unfold get_block.
  destruct (bv_store bv !! i) as [b|] eqn:Hi; [by apply (Hwf i)|apply Empty_wf].
Qed.

Lemma get_block_ok bv i : store_wf (bv_store bv) → block_ok (get_block bv i).
Proof. intros. by apply block_wf_ok, get_block_wf. Qed.

(** A stored block is not [Empty], so presence in the store is non-emptiness. *)
Lemma get_block_Empty bv i :
  store_wf (bv_store bv) → get_block bv i = Empty ↔ bv_store bv !! i = None.
Proof.
  intros Hwf. unfold get_block.
  destruct (bv_store bv !! i) as [b|] eqn:Hi; cbn; [|done].
  destruct (Hwf i b Hi). naive_solver.
Qed.

Lemma get_block_set_block bv i b j :
  get_block (set_block bv i b) j
  = if decide (i = j) then canonical b else get_block bv j.
Proof.
  unfold get_block, set_block. cbn [bv_store]. case_decide as Hij.
  - subst. by rewrite lookup_partial_alter_eq, default_stored.
  - by rewrite lookup_partial_alter_ne.
Qed.

Lemma set_block_size bv i b : bv_size (set_block bv i b) = bv_size bv.
Proof. done. Qed.

Lemma set_block_store_wf bv i b :
  block_ok b → store_wf (bv_store bv) → store_wf (bv_store (set_block bv i b)).
Proof.
  intros Hb Hwf j b'. unfold set_block. cbn [bv_store].
  destruct (decide (i = j)) as [->|Hij].
  - rewrite lookup_partial_alter_eq. apply stored_wf. auto with bm.
  - rewrite lookup_partial_alter_ne by done. apply Hwf.
Qed.

Lemma get_bit_set_block bv i b p :
  get_bit (set_block bv i b) p
  = if decide (p / block_width = i) then N.testbit (block_bits b) (p mod block_width)
    else get_bit bv p.
Proof.
  unfold get_bit. rewrite get_block_set_block.
  case_decide; case_decide; try congruence. by rewrite canonical_bits.
Qed.

(** Members are below the width of their block. *)
Lemma get_block_testbit bv i o :
  store_wf (bv_store bv) →
  N.testbit (block_bits (get_block bv i)) o = true → o < block_width.
Proof. intros Hwf. by apply block_bits_fits, get_block_ok. Qed.

End store.

#[export] Hint Resolve get_block_wf get_block_ok set_block_store_wf offset_lt : bm.
#[export] Hint Rewrite get_block_set_block set_block_size : bm.

(** ** [set_bit] and [bvector_of] *)

Section set_bit.
Implicit Types (bv : bvector) (p q : N) (v : bool) (ids : list N).

Lemma set_bit_size bv p v : bv_size (set_bit bv p v) = bv_size bv.
Proof. unfold set_bit. by case_match. Qed.

(** Writing an addressable position changes that position and no other. *)
Lemma get_bit_set_bit bv p v q :
  get_bit (set_bit bv p v) q
  = if decide (q = p ∧ size_lt p (bv_size bv)) then v else get_bit bv q.
Proof.
  unfold set_bit. destruct (size_ltb p (bv_size bv)) eqn:Hp.
  - apply size_ltb_lt in Hp. rewrite get_bit_set_block. cbn [block_bits].
    destruct (decide (q = p)) as [->|Hqp].
    + rewrite !decide_True by done.
      destruct v; [apply N.setbit_eq|apply N.clearbit_eq].
    + rewrite (decide_False (P := _ ∧ _)) by naive_solver.
      case_decide as Hi; [|done]. unfold get_bit. rewrite Hi.
      assert (p mod block_width ≠ q mod block_width).
      { intros Ho. apply Hqp.
        by rewrite (position_split q), (position_split p), Hi, Ho. }
      destruct v; [by rewrite N.setbit_neq|by rewrite N.clearbit_neq].
  - rewrite decide_False; [done|]. rewrite <-size_ltb_lt. intros [_ ?]. congruence.
Qed.

Lemma set_bit_wf bv p v : bv_wf bv → bv_wf (set_bit bv p v).
Proof.
  intros [Hst Hsz]. split.
  - unfold set_bit. case_match; [|done]. apply set_block_store_wf; [|done].
    cbn. destruct v; auto with bm.
  - intros q. rewrite get_bit_set_bit, set_bit_size.
    case_decide as Hq; [|by auto]. by destruct Hq as [-> ?].
Qed.

(** Setting a list of positions one by one. *)
Lemma set_bits_size bv ids :
  bv_size (foldl (λ bv p, set_bit bv p true) bv ids) = bv_size bv.
Proof.
  revert bv. induction ids as [|p ids IH]; intros bv; cbn [foldl]; [done|].
  by rewrite IH, set_bit_size.
Qed.

Lemma set_bits_wf bv ids :
  bv_wf bv → bv_wf (foldl (λ bv p, set_bit bv p true) bv ids).
Proof.
  revert bv. induction ids as [|p ids IH]; intros bv Hwf; cbn [foldl]; [done|].
  by apply IH, set_bit_wf.
Qed.

Lemma get_bit_set_bits bv ids q :
  get_bit (foldl (λ bv p, set_bit bv p true) bv ids) q
  = get_bit bv q || bool_decide (q ∈ ids ∧ size_lt q (bv_size bv)).
Proof.
  revert bv. induction ids as [|p ids IH]; intros bv; cbn [foldl].
  - rewrite bool_decide_eq_false_2; [by rewrite orb_false_r|].
    rewrite elem_of_nil. tauto.
  - rewrite IH, get_bit_set_bit, set_bit_size.
    destruct (decide (q = p ∧ size_lt p (bv_size bv))) as [[-> Hp]|Hq].
    + cbn [orb]. symmetry.
      rewrite bool_decide_eq_true_2; [apply orb_true_r|]. split; [by left|done].
    + f_equal. apply bool_decide_ext. rewrite elem_of_cons.
      split; [tauto|]. intros [[->|?] ?]; tauto.
Qed.

Lemma empty_wf : bv_wf (BVector None ∅).
Proof.
  split; [by intros i b ?|]. intros p. unfold get_bit, get_block. cbn.
  by rewrite lookup_empty, N.bits_0.
Qed.

Lemma get_bit_empty sz p : get_bit (BVector sz ∅) p = false.
Proof.
  unfold get_bit, get_block. cbn. by rewrite lookup_empty, N.bits_0.
Qed.

Lemma bvector_of_wf ids : bv_wf (bvector_of ids).
Proof. apply set_bits_wf, empty_wf. Qed.

Lemma bvector_of_size ids : bv_size (bvector_of ids) = None.
Proof. apply set_bits_size. Qed.

Lemma bvector_of_get ids p : get_bit (bvector_of ids) p = bool_decide (p ∈ ids).
Proof.
  unfold bvector_of. rewrite get_bit_set_bits, get_bit_empty. cbn.
  apply bool_decide_ext. tauto.
Qed.

End set_bit.

#[export] Hint Resolve set_bit_wf set_bits_wf empty_wf bvector_of_wf : bm.
#[export] Hint Rewrite set_bit_size set_bits_size bvector_of_size : bm.

(** ** [resize] *)

Section resize.
Implicit Types (bv : bvector) (b : block) (n i o p : N).

Lemma truncate_block_Empty n i : truncate_block n i Empty = Empty.
Proof. unfold truncate_block. cbv zeta. by repeat case_match. Qed.

(** Cutting keeps the positions below the new size and no other. *)
Lemma truncate_block_bits n i b o :
  o < block_width →
  N.testbit (block_bits (truncate_block n i b)) o
  = N.testbit (block_bits b) o && (i * block_width + o <? n).
Proof.
  intros Ho. unfold truncate_block. cbv zeta.
  destruct (N.leb_spec (i * block_width + block_width) n).
  - destruct (N.ltb_spec (i * block_width + o) n); [by rewrite andb_true_r|lia].
  - destruct (N.leb_spec n (i * block_width)).
    + cbn [block_bits]. rewrite N.bits_0.
      destruct (N.ltb_spec (i * block_width + o) n); [lia|by rewrite andb_false_r].
    + rewrite canonical_bits. cbn [block_bits].
      rewrite N.land_spec, N_ones_testbit. f_equal.
      destruct (N.ltb_spec o (n - i * block_width)),
        (N.ltb_spec (i * block_width + o) n); done || lia.
Qed.

Lemma truncate_block_wf n i b : block_wf b → block_wf (truncate_block n i b).
Proof.
  intros Hb. unfold truncate_block. cbv zeta. repeat case_match; [done|done|].
  apply canonical_wf. cbn. auto with bm.
Qed.

Lemma get_block_resize bv n i :
  get_block (resize bv n) i = truncate_block n i (get_block bv i).
Proof.
  unfold get_block, resize. cbn [bv_store]. rewrite map_lookup_imap.
  destruct (bv_store bv !! i) as [b|]; cbn.
  - apply default_stored.
  - by rewrite truncate_block_Empty.
Qed.

Lemma resize_size bv n : bv_size (resize bv n) = Some n.
Proof. done. Qed.

Lemma resize_get bv n p : get_bit (resize bv n) p = get_bit bv p && (p <? n).
Proof.
  unfold get_bit. rewrite get_block_resize, truncate_block_bits by apply offset_lt.
  by rewrite <-position_split.
Qed.

Lemma resize_wf bv n : bv_wf bv → bv_wf (resize bv n).
Proof.
  intros [Hst _]. split.
  - intros i b'. unfold resize. cbn [bv_store]. rewrite map_lookup_imap.
    destruct (bv_store bv !! i) as [b|] eqn:Hi; cbn; [|done].
    apply stored_wf, truncate_block_wf. by apply (Hst i).
  - intros p. rewrite resize_get. cbn.
    by intros [_ ?%N.ltb_lt]%andb_true_iff.
Qed.

End resize.

(** ** [positions] *)

Section positions.
Implicit Types (bv : bvector) (i o p : N).

Lemma elem_of_keys bv i :
  i ∈ map fst (map_to_list (bv_store bv)) ↔ is_Some (bv_store bv !! i).
Proof.
  change (map fst ?l) with (fst <$> l). rewrite list_elem_of_fmap. split.
  - intros [[j b] [-> Hjb%elem_of_map_to_list]]. by exists b.
  - intros [b Hb]. exists (i, b). by rewrite elem_of_map_to_list.
Qed.

Lemma elem_of_block_indices bv i :
  i ∈ block_indices bv ↔ is_Some (bv_store bv !! i).
Proof. unfold block_indices. by rewrite elem_of_listing, elem_of_keys. Qed.

Lemma block_indices_ascending bv : StronglySorted N.lt (block_indices bv).
Proof. apply listing_ascending. Qed.

Lemma block_indices_NoDup bv : NoDup (block_indices bv).
Proof. apply ascending_NoDup, block_indices_ascending. Qed.

Lemma get_bit_absent bv p :
  p / block_width ∉ block_indices bv → get_bit bv p = false.
Proof.
  rewrite elem_of_block_indices, <-eq_None_not_Some. intros Hp.
  unfold get_bit, get_block. by rewrite Hp.
Qed.

(** A member lives in a stored block. *)
Lemma get_bit_stored bv p :
  get_bit bv p = true → p / block_width ∈ block_indices bv.
Proof.
  intros Hp. destruct (decide (p / block_width ∈ block_indices bv)); [done|].
  by rewrite get_bit_absent in Hp.
Qed.

Lemma positions_sorted bv : bv_wf bv → StronglySorted N.lt (positions bv).
Proof.
  intros [Hst _]. unfold positions.
  apply ascending_bind; [apply block_indices_ascending|..].
  - intros i _. apply ascending_fmap; [intros; lia|auto with bm].
  - intros i j x y _ _ Hij [o [-> Ho]]%list_elem_of_fmap [o' [-> Ho']]%list_elem_of_fmap.
    apply position_lt; [done|].
    apply elem_of_N_positions in Ho. by eapply get_block_testbit.
Qed.

Lemma positions_elem bv p : bv_wf bv → p ∈ positions bv ↔ get_bit bv p = true.
Proof.
  intros [Hst _]. unfold positions, get_bit. rewrite list_elem_of_bind. split.
  - intros [i [[o [-> Ho]]%list_elem_of_fmap _]].
    apply elem_of_N_positions in Ho.
    pose proof (get_block_testbit _ _ _ Hst Ho).
    by rewrite position_div, position_mod.
  - intros Hp. exists (p / block_width). split.
    + apply list_elem_of_fmap. exists (p mod block_width).
      split; [apply position_split|by apply elem_of_N_positions].
    + apply elem_of_block_indices.
      destruct (bv_store bv !! (p / block_width)) eqn:Hi; [done|].
      unfold get_block in Hp. by rewrite Hi, N.bits_0 in Hp.
Qed.

End positions.

(** ** The operation engine *)

Section combine.
Implicit Types (a b : bvector) (op : operation) (i p : N).

(** The engine works block by block: block [i] of the result is the
    dispatch table applied to blocks [i] of the operands. *)
Lemma get_block_combine a b op i :
  get_block (combine_operation a b op) i
  = combine_block op (get_block a i) (get_block b i).
Proof.
  unfold get_block, combine_operation. cbn [bv_store]. rewrite lookup_merge.
  destruct (bv_store a !! i), (bv_store b !! i); cbn;
    rewrite ?default_stored; try done. by destruct op.
Qed.

Lemma combine_operation_size a b op :
  bv_size (combine_operation a b op) = size_max (bv_size a) (bv_size b).
Proof. done. Qed.

Lemma combine_operation_get a b op p :
  bv_wf a → bv_wf b →
  get_bit (combine_operation a b op) p = bool_op op (get_bit a p) (get_bit b p).
Proof.
  intros [Ha _] [Hb _]. unfold get_bit.
  by rewrite get_block_combine, combine_block_bits, bit_op_testbit by auto with bm.
Qed.

Lemma combine_operation_wf a b op :
  bv_wf a → bv_wf b → bv_wf (combine_operation a b op).
Proof.
  intros Ha Hb. split.
  - intros i c Hi. destruct Ha as [Ha _], Hb as [Hb _].
    unfold combine_operation in Hi. cbn [bv_store] in Hi.
    rewrite lookup_merge in Hi.
    assert (stored (combine_block op (get_block a i) (get_block b i)) = Some c)
      as Hc.
    { unfold get_block.
      destruct (bv_store a !! i), (bv_store b !! i); cbn in *; done. }
    eapply stored_wf; [|done]. auto with bm.
  - intros p. rewrite combine_operation_get, combine_operation_size by done.
    destruct Ha as [_ Ha], Hb as [_ Hb]. specialize (Ha p). specialize (Hb p).
    destruct op, (get_bit a p), (get_bit b p); cbn; intros; auto with bm; done.
Qed.

End combine.

#[export] Hint Resolve resize_wf combine_operation_wf positions_sorted : bm.
#[export] Hint Rewrite resize_size combine_operation_size get_block_resize
  get_block_combine : bm.

(** ** Importing an array *)

Section import.
Implicit Types (bv : bvector) (ids : list N) (cur acc p q : N).

Lemma flush_block_size bv cur acc : bv_size (flush_block bv cur acc) = bv_size bv.
Proof. done. Qed.

Lemma flush_block_store_wf bv cur acc :
  store_wf (bv_store bv) → fits block_width acc →
  store_wf (bv_store (flush_block bv cur acc)).
Proof.
  intros Hst Hacc. apply set_block_store_wf; [|done].
  apply combine_block_ok; [auto with bm|by apply canonical_ok].
Qed.

(** Flushing adds the gathered bits to block [cur] and changes nothing else. *)
Lemma get_bit_flush_block bv cur acc q :
  store_wf (bv_store bv) → fits block_width acc →
  get_bit (flush_block bv cur acc) q
  = get_bit bv q || (q / block_width =? cur) && N.testbit acc (q mod block_width).
Proof.
  intros Hst Hacc. unfold flush_block. rewrite get_bit_set_block.
  destruct (N.eqb_spec (q / block_width) cur) as [<-|?].
  - rewrite decide_True by done.
    rewrite combine_block_bits by (auto with bm; by apply canonical_ok).
    by rewrite bit_op_testbit, canonical_bits.
  - rewrite decide_False by done. by rewrite orb_false_r.
Qed.

(** The invariant of the sorted path: at every point of the loop the vector
    together with the gathered bits of block [cur] holds what has been read. *)
Lemma import_sorted_spec ids bv cur acc :
  store_wf (bv_store bv) → fits block_width acc →
  let bv' := import_sorted bv ids cur acc in
  bv_size bv' = bv_size bv ∧ store_wf (bv_store bv') ∧
  ∀ q, get_bit bv' q
       = get_bit bv q
         || (q / block_width =? cur) && N.testbit acc (q mod block_width)
         || bool_decide (q ∈ ids ∧ size_lt q (bv_size bv)).
Proof.
  cbv zeta. revert bv cur acc.
  induction ids as [|p ids IH]; intros bv cur acc Hst Hacc; cbn [import_sorted].
  { split_and!; [done|by apply flush_block_store_wf|]. intros q.
    rewrite get_bit_flush_block by done.
    rewrite (bool_decide_eq_false_2 (_ ∧ _)); [by rewrite orb_false_r|].
    rewrite elem_of_nil. tauto. }
  destruct (size_ltb p (bv_size bv)) eqn:Hp; cbn [negb].
  2:{ destruct (IH bv cur acc) as (Hsz & Hwf & Hget); [done..|].
      split_and!; [done..|]. intros q. rewrite Hget. f_equal.
      apply bool_decide_ext. rewrite elem_of_cons. split; [tauto|].
      intros [[->|?] Hq]; [|done]. apply size_ltb_lt in Hq. congruence. }
  apply size_ltb_lt in Hp.
  destruct (N.eqb_spec (p / block_width) cur) as [<-|Hcur].
  - destruct (IH bv (p / block_width) (N.setbit acc (p mod block_width)))
      as (Hsz & Hwf & Hget); [done|auto with bm|].
    split_and!; [done..|]. intros q. rewrite Hget, N.setbit_eqb.
    pose proof (position_eq p q). members.
  - destruct (IH (flush_block bv cur acc) (p / block_width)
                 (N.setbit 0 (p mod block_width)))
      as (Hsz & Hwf & Hget); [by apply flush_block_store_wf|auto with bm|].
    rewrite flush_block_size in *.
    split_and!; [done..|]. intros q.
    rewrite Hget, get_bit_flush_block, N.setbit_eqb, N.bits_0 by done.
    pose proof (position_eq p q). members.
Qed.

Lemma import_sorted_size ids bv cur acc :
  bv_size (import_sorted bv ids cur acc) = bv_size bv.
Proof.
  revert bv cur acc. induction ids as [|p ids IH]; intros; cbn [import_sorted];
    [done|]. repeat case_match; by rewrite IH.
Qed.

Lemma set_ids_size bv ids so : bv_size (set_ids bv ids so) = bv_size bv.
Proof. destruct so; [apply set_bits_size|apply import_sorted_size]. Qed.

(** Both paths of the import set exactly the addressable positions of the
    array; the sorted path needs no sortedness to be correct, only to be
    fast. *)
Lemma set_ids_get_addressable bv ids so q :
  bv_wf bv →
  get_bit (set_ids bv ids so) q
  = get_bit bv q || bool_decide (q ∈ ids ∧ size_lt q (bv_size bv)).
Proof.
  intros [Hst _]. destruct so; cbn [set_ids]; [apply get_bit_set_bits|].
  destruct (import_sorted_spec ids bv 0 0) as (_ & _ & ->); [done|auto with bm|].
  by rewrite N.bits_0, andb_false_r, orb_false_r.
Qed.

Lemma set_ids_wf bv ids so : bv_wf bv → bv_wf (set_ids bv ids so).
Proof.
  intros Hwf. split.
  - destruct so; cbn [set_ids]; [by apply set_bits_wf|].
    destruct Hwf as [Hst _].
    by destruct (import_sorted_spec ids bv 0 0) as (_ & ? & _); auto with bm.
  - intros q. rewrite set_ids_get_addressable, set_ids_size by done.
    destruct Hwf as [_ Hb]. specialize (Hb q).
    intros [?|[_ ?]%bool_decide_eq_true]%orb_true_iff; auto.
Qed.

Lemma set_ids_get bv ids so q :
  bv_wf bv → (so = BM_SORTED → StronglySorted N.lt ids) →
  Forall (λ i, size_lt i (bv_size bv)) ids →
  get_bit (set_ids bv ids so) q = get_bit bv q || bool_decide (q ∈ ids).
Proof.
  intros Hwf _ Hids. rewrite set_ids_get_addressable by done. f_equal.
  apply bool_decide_ext. rewrite Forall_forall in Hids. naive_solver.
Qed.

End import.

(** ** [combine_or], [combine_and], [optimize] *)

Section derived.
Implicit Types (bv : bvector) (ids : list N) (level i p : N).

Lemma combine_array_size bv ids op :
  bv_size (combine_operation bv (bvector_of ids) op) = size_max (bv_size bv) None.
Proof. by rewrite combine_operation_size, bvector_of_size. Qed.

Lemma combine_array_wf bv ids op :
  bv_wf bv → bv_wf (combine_operation bv (bvector_of ids) op).
Proof. auto with bm. Qed.

Lemma combine_or_get bv ids p :
  bv_wf bv → get_bit (combine_or bv ids) p = get_bit bv p || bool_decide (p ∈ ids).
Proof.
  intros. unfold combine_or.
  by rewrite combine_operation_get, bvector_of_get by auto with bm.
Qed.

Lemma combine_and_get bv ids p :
  bv_wf bv → get_bit (combine_and bv ids) p = get_bit bv p && bool_decide (p ∈ ids).
Proof.
  intros. unfold combine_and.
  by rewrite combine_operation_get, bvector_of_get by auto with bm.
Qed.

Lemma get_block_optimize bv level i :
  get_block (optimize bv level) i
  = match bv_store bv !! i with
    | Some b => optimize_block level b
    | None => Empty
    end.
Proof.
  unfold get_block, optimize. cbn [bv_store]. rewrite lookup_fmap.
  by destruct (bv_store bv !! i).
Qed.

Lemma optimize_size bv level : bv_size (optimize bv level) = bv_size bv.
Proof. done. Qed.

(** Optimization changes the representation of blocks, never a bit. *)
Lemma optimize_get bv level p :
  bv_wf bv → get_bit (optimize bv level) p = get_bit bv p.
Proof.
  intros [Hst _]. unfold get_bit at 1. rewrite get_block_optimize.
  unfold get_bit, get_block.
  destruct (bv_store bv !! (p / block_width)) as [b|] eqn:Hb; [|done].
  cbn. rewrite optimize_block_bits; [done|]. by apply block_wf_ok, (Hst _ _ Hb).
Qed.

Lemma optimize_wf bv level : bv_wf bv → bv_wf (optimize bv level).
Proof.
  intros Hwf. split.
  - destruct Hwf as [Hst _]. intros i b'. unfold optimize. cbn [bv_store].
    rewrite lookup_fmap.
    destruct (bv_store bv !! i) as [b|] eqn:Hb; cbn; [|done].
    intros [= <-]. destruct (Hst _ _ Hb) as [[Hok Hc] Hne].
    split; [by apply optimize_block_wf|].
    destruct (optimize_block_cases level b) as [->|(_ & _ & ? & _)]; congruence.
  - intros p. rewrite optimize_get, optimize_size by done. apply Hwf.
Qed.

Lemma bv_bounded bv p : bv_wf bv → get_bit bv p = true → size_lt p (bv_size bv).
Proof. intros [_ Hb]. apply Hb. Qed.

End derived.

#[export] Hint Resolve set_ids_wf optimize_wf : bm.
#[export] Hint Rewrite set_ids_size optimize_size : bm.

(** ** The reference engine meets the contract *)

#[export] Instance reference_bitvector : BitVector := {|
  Interface.bvector := bvector;
  Interface.bv_wf := bv_wf;
  Interface.bv_size := bv_size;
  Interface.get_bit := get_bit;
  Interface.bvector_of := bvector_of;
  Interface.resize := resize;
  Interface.positions := positions;
  Interface.bit_or := bit_or;
  Interface.bit_and := bit_and;
  Interface.combine_operation := combine_operation;
  Interface.set_ids := set_ids;
  Interface.combine_or := combine_or;
  Interface.combine_and := combine_and;
  Interface.optimize := optimize;
  Interface.bv_bounded := bv_bounded;
  Interface.bvector_of_wf := bvector_of_wf;
  Interface.bvector_of_size := bvector_of_size;
  Interface.bvector_of_get := bvector_of_get;
  Interface.resize_wf := resize_wf;
  Interface.resize_size := resize_size;
  Interface.resize_get := λ bv n p _, resize_get bv n p;
  Interface.positions_sorted := positions_sorted;
  Interface.positions_elem := positions_elem;
  Interface.bit_or_wf := λ a b, combine_operation_wf a b BM_OR;
  Interface.bit_or_size := λ a b, combine_operation_size a b BM_OR;
  Interface.bit_or_get := λ a b, combine_operation_get a b BM_OR;
  Interface.bit_and_wf := λ a b, combine_operation_wf a b BM_AND;
  Interface.bit_and_size := λ a b, combine_operation_size a b BM_AND;
  Interface.bit_and_get := λ a b, combine_operation_get a b BM_AND;
  Interface.combine_operation_wf := combine_operation_wf;
  Interface.combine_operation_size := combine_operation_size;
  Interface.combine_operation_get := combine_operation_get;
  Interface.set_ids_wf := set_ids_wf;
  Interface.set_ids_size := set_ids_size;
  Interface.set_ids_get := set_ids_get;
  Interface.combine_or_wf := λ bv ids, combine_array_wf bv ids BM_OR;
  Interface.combine_or_size := λ bv ids, combine_array_size bv ids BM_OR;
  Interface.combine_or_get := combine_or_get;
  Interface.combine_and_wf := λ bv ids, combine_array_wf bv ids BM_AND;
  Interface.combine_and_size := λ bv ids, combine_array_size bv ids BM_AND;
  Interface.combine_and_get := combine_and_get;
  Interface.optimize_wf := optimize_wf;
  Interface.optimize_size := optimize_size;
  Interface.optimize_get := optimize_get
|}.
