(* ===== verification/Cursor.v ===== *)
(** * Cursor: the enumerator of the reference engine

    An enumerator is a view of a vector and the position it stands on, or no
    position once it has run past the last member.  It is lazy: obtaining it
    finds the first member, advancing it finds the next one, and each search
    looks at the block of the position where it starts and, when that block
    has no member left, at the next stored block only.  A vector that is
    mutated is another value, so a cursor keeps enumerating the vector it was
    obtained from.

    The file proves that the search finds the least member from where it
    starts, hence that a cursor has yet to yield exactly the members from its
    position on, and packs the proofs as the instance of the [Enumerator]
    interface that the driver runs on. *)

From Stdlib Require Import NArith List Lia.
From stdpp Require Import base tactics numbers list sorting gmap.
From S2P Require Import Prelude Interface Bits Block BVector.

Local Open Scope N_scope.

(** ** Data *)

Record cursor : Type := Cursor {
  cur_bv : bvector;
  cur_pos : option N;
}.

(** ** The search *)

(** The first member of block [i] at or above offset [o]. *)
Definition scan_block (bv : bvector) (i o : N) : option N :=
  (λ x, i * block_width + x) <$> lowest_from (block_bits (get_block bv i)) o.

(** The first stored block after block [i]. *)
Definition next_block (bv : bvector) (i : N) : option N :=
  head (members_from (i + 1) (block_indices bv)).

(** The first member at or above [q]: in the block of [q], or else the first
    member of the next stored block. *)
Definition find_from (bv : bvector) (q : N) : option N :=
  match scan_block bv (q / block_width) (q mod block_width) with
  | Some p => Some p
  | None => next_block bv (q / block_width) ≫= λ j, scan_block bv j 0
  end.

(** ** The operations *)

(** [bv.first()] *)
Definition first (bv : bvector) : cursor := Cursor bv (find_from bv 0).

(** [en.valid()] *)
Definition valid (c : cursor) : bool :=
  match cur_pos c with
  | Some _ => true
  | None => false
  end.

(** [*en]; what an enumerator that is not valid yields is not part of the
    contract: here it is 0. *)
Definition deref (c : cursor) : N := default 0 (cur_pos c).

(** [++en]; an enumerator that is not valid stays where it is. *)
Definition advance (c : cursor) : cursor :=
  match cur_pos c with
  | Some p => Cursor (cur_bv c) (find_from (cur_bv c) (p + 1))
  | None => c
  end.

(** ** What a cursor stands for *)

(** The positions a cursor has yet to yield. *)
Definition rest (c : cursor) : list N :=
  match cur_pos c with
  | Some p => members_from p (positions (cur_bv c))
  | None => []
  end.

(** A valid cursor: a view of a valid vector that stands on a member. *)
Definition cursor_wf (c : cursor) : Prop :=
  bv_wf (cur_bv c) ∧ ∀ p, cur_pos c = Some p → get_bit (cur_bv c) p = true.

(** ** The search finds the least member *)

Section search.
Context (bv : bvector) (Hwf : bv_wf bv).
Implicit Types (i j o p q : N).

Notation member := (λ p, get_bit bv p = true).

(** Membership of a position of block [i] is a bit of that block. *)
Lemma member_offset i p :
  p / block_width = i →
  get_bit bv p = N.testbit (block_bits (get_block bv i)) (p mod block_width).
Proof. by intros <-. Qed.

Lemma scan_block_least i o :
  o < block_width →
  least_from (λ p, member p ∧ p / block_width = i)
             (i * block_width + o) (scan_block bv i o).
Proof.
  intros Ho. unfold scan_block. destruct Hwf as [Hst _].
  pose proof (lowest_from_least (block_bits (get_block bv i)) o) as Hl.
  destruct (lowest_from _ o) as [x|]; cbn in *.
  - destruct Hl as (Hx & Hox & Hl).
    pose proof (get_block_testbit _ _ _ Hst Hx) as Hlt.
    split_and!; [|by apply position_div|lia|].
    + by rewrite (member_offset i), position_mod by auto using position_div.
    + intros y [Hy Hi] Hle. rewrite (member_offset i) in Hy by done.
      pose proof (position_split y) as Hs. rewrite Hi in Hs.
      specialize (Hl _ Hy). set (r := y mod block_width) in *. lia.
  - intros y [Hy Hi]. rewrite (member_offset i) in Hy by done.
    pose proof (position_split y) as Hs. rewrite Hi in Hs.
    specialize (Hl _ Hy). set (r := y mod block_width) in *. lia.
Qed.

(** A stored block has a member. *)
Lemma scan_block_stored j :
  j ∈ block_indices bv → is_Some (scan_block bv j 0).
Proof.
  intros [b Hb]%elem_of_block_indices. destruct Hwf as [Hst _].
  destruct (Hst _ _ Hb) as [Hok Hne]. unfold scan_block, get_block.
  rewrite Hb. cbn. apply fmap_is_Some, not_eq_None_Some.
  intros H0%lowest_from_0. by apply block_bits_0 in H0.
Qed.

Lemma next_block_least i :
  least_from (.∈ block_indices bv) (i + 1) (next_block bv i).
Proof. apply least_members_from, block_indices_ascending. Qed.

(** The blocks of two positions are in the order of the positions. *)
Lemma block_le p q : p ≤ q → p / block_width ≤ q / block_width.
Proof. apply N.Div0.div_le_mono. Qed.

Lemma block_bounds p :
  p / block_width * block_width ≤ p < (p / block_width + 1) * block_width.
Proof.
  pose proof (position_split p). pose proof (offset_lt p).
  set (d := p / block_width) in *. set (r := p mod block_width) in *. lia.
Qed.

(** A member from [q] on is in the block of [q] or in a later stored block. *)
Lemma member_from_cases q x :
  member x → q ≤ x →
  x / block_width = q / block_width
  ∨ (x / block_width ∈ block_indices bv ∧ q / block_width + 1 ≤ x / block_width).
Proof.
  intros Hx Hqx. pose proof (block_le _ _ Hqx).
  destruct (decide (x / block_width = q / block_width)); [by left|right].
  split; [by apply get_bit_stored|lia].
Qed.

Lemma find_from_least q : least_from member q (find_from bv q).
Proof.
  unfold find_from.
  pose proof (scan_block_least (q / block_width) _ (offset_lt q)) as Hi.
  rewrite <-position_split in Hi. set (i := q / block_width) in *.
  destruct (scan_block bv i _) as [p|]; cbn in *.
  { destruct Hi as ((Hp & Hpi) & Hqp & Hl). split_and!; [done..|].
    intros x Hx Hqx. destruct (member_from_cases q x) as [?|[_ Hix]]; [done..|auto|].
    pose proof (block_bounds p). pose proof (block_bounds x).
    fold i in Hix. rewrite Hpi in *. nia. }
  pose proof (next_block_least i) as Hj.
  destruct (next_block bv i) as [j|]; cbn in *.
  - destruct Hj as (Hj & Hij & Hjl).
    pose proof (scan_block_least j 0 block_width_pos) as Hs.
    destruct (scan_block_stored j Hj) as [p Hp]. rewrite Hp in *. cbn in *.
    destruct Hs as ((Hm & Hpj) & Hjp & Hl). split_and!; [done| |].
    + pose proof (block_bounds q). fold i in H. nia.
    + intros x Hx Hqx. pose proof (block_bounds x). pose proof (block_bounds p).
      destruct (member_from_cases q x) as [Hxi|[Hxs Hix]]; [done..| |].
      { specialize (Hi x (conj Hx Hxi)). lia. } fold i in Hix.
      specialize (Hjl _ Hxs Hix). rewrite Hpj in *.
      destruct (decide (x / block_width = j)) as [Hxj|]; [|nia].
      apply Hl; [done|]. rewrite Hxj in *. lia.
  - intros x Hx. apply N.lt_nge. intros Hqx.
    destruct (member_from_cases q x) as [Hxi|[Hxs Hix]]; [done..| |].
    { specialize (Hi x (conj Hx Hxi)). lia. } fold i in Hix.
    specialize (Hj _ Hxs). lia.
Qed.

(** The search is the head of what the enumeration has left from [q] on. *)
Lemma find_from_head q : find_from bv q = head (members_from q (positions bv)).
Proof.
  symmetry. apply head_members_from; [by apply positions_sorted|].
  eapply least_from_iff; [|apply find_from_least].
  intros p. by rewrite positions_elem.
Qed.

End search.

(** ** The operations on a valid cursor *)

Section cursor.
Implicit Types (c : cursor) (bv : bvector) (p : N) (l : list N).

Lemma first_wf bv : bv_wf bv → cursor_wf (first bv).
Proof.
  intros Hwf. split; [done|]. cbn. intros p Hp.
  pose proof (find_from_least bv Hwf 0) as Hl. rewrite Hp in Hl. apply Hl.
Qed.

Lemma first_rest bv : bv_wf bv → rest (first bv) = positions bv.
Proof.
  intros Hwf. unfold rest, first. cbn. rewrite find_from_head by done.
  rewrite members_from_head by auto with bm. apply members_from_0.
Qed.

(** A valid cursor that stands on [p] has yet to yield [p] and then the
    members after [p]. *)
Lemma rest_cons c p :
  cursor_wf c → cur_pos c = Some p →
  rest c = p :: members_from (p + 1) (positions (cur_bv c)).
Proof.
  intros [Hwf Hp] Hc. unfold rest. rewrite Hc.
  apply members_from_cons; [auto with bm|]. apply positions_elem; auto.
Qed.

Lemma valid_rest c : cursor_wf c → valid c = bool_decide (rest c ≠ []).
Proof.
  intros Hwf. unfold valid. destruct (cur_pos c) as [p|] eqn:Hc.
  - by rewrite (rest_cons c p).
  - unfold rest. by rewrite Hc.
Qed.

Lemma deref_rest c p l : cursor_wf c → rest c = p :: l → deref c = p.
Proof.
  intros Hwf. unfold deref. destruct (cur_pos c) as [q|] eqn:Hc.
  - rewrite (rest_cons c q) by done. by intros [= -> _].
  - unfold rest. by rewrite Hc.
Qed.

Lemma advance_wf c : cursor_wf c → valid c = true → cursor_wf (advance c).
Proof.
  intros [Hwf Hp] Hv. unfold valid in Hv. unfold advance.
  destruct (cur_pos c) as [p|]; [|done].
  split; [done|]. cbn. intros q Hq.
  pose proof (find_from_least _ Hwf (p + 1)) as Hl. rewrite Hq in Hl. apply Hl.
Qed.

Lemma advance_rest c p l : cursor_wf c → rest c = p :: l → rest (advance c) = l.
Proof.
  intros Hwf. unfold advance. destruct (cur_pos c) as [q|] eqn:Hc.
  - rewrite (rest_cons c q) by done. intros [= -> <-]. unfold rest. cbn.
    destruct Hwf as [Hwf _]. rewrite find_from_head by done.
    apply members_from_head. auto with bm.
  - unfold rest. by rewrite Hc.
Qed.

(** Advancing moves strictly upwards: the enumeration is forward-only. *)
Lemma advance_lt c p q :
  cursor_wf c → cur_pos c = Some p → cur_pos (advance c) = Some q → p < q.
Proof.
  intros [Hwf _] Hc. unfold advance. rewrite Hc. cbn. intros Hq.
  pose proof (find_from_least _ Hwf (p + 1)) as Hl. rewrite Hq in Hl.
  destruct Hl as (_ & ? & _). lia.
Qed.

End cursor.

(** ** The reference engine meets the contract *)

#[export] Instance reference_enumerator : Enumerator := {|
  Interface.enumerator := cursor;
  Interface.en_wf := cursor_wf;
  Interface.en_rest := rest;
  Interface.first := first;
  Interface.valid := valid;
  Interface.deref := deref;
  Interface.advance := advance;
  Interface.first_wf := first_wf;
  Interface.first_rest := first_rest;
  Interface.valid_rest := valid_rest;
  Interface.deref_rest := deref_rest;
  Interface.advance_wf := advance_wf;
  Interface.advance_rest := advance_rest
|}.
