(* ===== verification/Codec.v ===== *)
(** * Codec: the wire encoding of numbers and blocks

    The serialized buffer is a sequence of bytes.  Numbers (sizes, block
    indices, the bits of a bitmap, the toggle positions of a run list) are
    written as base-128 variable-length integers, least significant group
    first, the top bit of a byte saying that more follows.  A block is a tag
    byte and a payload; a record is a block with its index; the stream of
    records ends with a marker.  Every reader returns what it read and the
    rest of the buffer, or nothing on a malformed prefix; every reader is
    proved to invert its writer, to consume at least one byte, and to refuse
    what its writer wrote when it is cut short. *)

From Stdlib Require Import NArith List Lia.
From Stdlib.Strings Require Import Byte.
From stdpp Require Import base tactics numbers list option sorting.
From S2P Require Import Prelude Bits Block.

Local Open Scope N_scope.

(** ** Numbers *)

Definition byte_of (n : N) : byte := default x00 (Byte.of_N n).

(** [fuel] bounds the number of groups; [varint] passes the bit length of
    the number, which is enough for any number. *)
Fixpoint varint_go (fuel : nat) (n : N) : list byte :=
  match fuel with
  | O => [byte_of n]
  | S fuel =>
      if n <? 128 then [byte_of n]
      else byte_of (128 + n mod 128) :: varint_go fuel (n / 128)
  end.

Definition varint (n : N) : list byte := varint_go (N.to_nat (N.size n)) n.

Fixpoint read_varint (bs : list byte) : option (N * list byte) :=
  match bs with
  | [] => None
  | b :: bs =>
      let v := Byte.to_N b in
      if v <? 128 then Some (v, bs)
      else '(hi, rest) ← read_varint bs; Some (v - 128 + 128 * hi, rest)
  end.

Fixpoint read_varints (k : nat) (bs : list byte) : option (list N * list byte) :=
  match k with
  | O => Some ([], bs)
  | S k =>
      '(x, rest) ← read_varint bs;
      '(xs, rest) ← read_varints k rest;
      Some (x :: xs, rest)
  end.

(** ** Blocks *)

Definition encode_block (b : block) : list byte :=
  match b with
  | Empty => [x00]
  | Full => [x01]
  | Bitmap n => x02 :: varint n
  | RunList ts => x03 :: varint (N.of_nat (length ts)) ++ (ts ≫= varint)
  end.

(** An unknown tag, a truncated payload and a payload that is not a valid
    block are all refused. *)
Definition read_payload (tag : N) (bs : list byte) : option (block * list byte) :=
  if tag =? 1 then Some (Full, bs)
  else if tag =? 2 then '(n, rest) ← read_varint bs; Some (Bitmap n, rest)
  else if tag =? 3 then
    '(k, rest) ← read_varint bs;
    '(ts, rest) ← read_varints (N.to_nat k) rest;
    Some (RunList ts, rest)
  else None.

Definition read_block (bs : list byte) : option (block * list byte) :=
  match bs with
  | [] => None
  | t :: bs =>
      '(b, rest) ← read_payload (Byte.to_N t) bs;
      if decide (block_ok b) then Some (b, rest) else None
  end.

(** ** Records: a block with its index *)

Definition encode_record (i : N) (b : block) : list byte :=
  varint i ++ encode_block b.

Definition read_record (bs : list byte) : option (N * block * list byte) :=
  '(i, rest) ← read_varint bs;
  '(b, rest) ← read_block rest;
  Some (i, b, rest).

(** ** The end of the stream *)

(** The stream ends with the record of an [Empty] block at index 0: no
    stored block is [Empty], so no record of a block starts like it. *)
Definition end_marker : list byte := encode_record 0 Empty.

Definition is_end (bs : list byte) : bool :=
  match bs with
  | b0 :: b1 :: _ => (Byte.to_N b0 =? 0) && (Byte.to_N b1 =? 0)
  | _ => false
  end.

(** What the decoder reads next: a block with its index, or the end. *)
Inductive item : Type :=
  | IBlock (i : N) (b : block)
  | IEnd.

Definition read_item (bs : list byte) : option (item * list byte) :=
  if is_end bs then Some (IEnd, drop 2 bs)
  else '(i, b, rest) ← read_record bs; Some (IBlock i b, rest).

(** ** The header: a format marker and the size *)

Definition magic : byte := x42.

Definition encode_header (sz : option N) : list byte :=
  magic :: match sz with
           | None => [x00]
           | Some n => x01 :: varint n
           end.

Definition read_header (bs : list byte) : option (option N * list byte) :=
  match bs with
  | m :: f :: bs =>
      if Byte.to_N m =? Byte.to_N magic then
        match Byte.to_N f with
        | 0 => Some (None, bs)
        | 1 => '(n, rest) ← read_varint bs; Some (Some n, rest)
        | _ => None
        end
      else None
  | _ => None
  end.

(** ** Numbers round-trip *)

Section numbers.
Implicit Types (n : N) (bs rest : list byte).

Lemma to_N_byte_of n : n < 256 → Byte.to_N (byte_of n) = n.
Proof.
  intros Hn. unfold byte_of. destruct (Byte.of_N n) as [b|] eqn:Hb.
  - by apply Byte.to_of_N.
  - apply Byte.of_N_None_iff in Hb. lia.
Qed.

Lemma read_varint_go fuel n rest :
  n < 2 ^ N.of_nat fuel → read_varint (varint_go fuel n ++ rest) = Some (n, rest).
Proof.
  revert n. induction fuel as [|fuel IH]; intros n Hn.
  { assert (n = 0) as -> by (cbn in Hn; lia). done. }
  cbn [varint_go]. destruct (N.ltb_spec n 128) as [Hlt|Hge].
  - cbn [app read_varint]. cbv zeta. rewrite to_N_byte_of by lia.
    by destruct (N.ltb_spec n 128); [|lia].
  - assert (n mod 128 < 128) by (by apply N.mod_lt).
    pose proof (N.Div0.div_mod n 128) as Hdm.
    rewrite Nat2N.inj_succ, N.pow_succ_r' in Hn.
    specialize (IH (n / 128)). cbn [app read_varint]. cbv zeta.
    set (r := n mod 128) in *. set (q := n / 128) in *. clearbody r q.
    rewrite to_N_byte_of by lia.
    destruct (N.ltb_spec (128 + r) 128); [lia|].
    rewrite IH by lia. cbn. do 2 f_equal. lia.
Qed.

Lemma read_varint_varint n rest : read_varint (varint n ++ rest) = Some (n, rest).
Proof. apply read_varint_go. rewrite N2Nat.id. apply N.size_gt. Qed.

(** Reading a number consumes at least one byte. *)
Lemma read_varint_length bs n rest :
  read_varint bs = Some (n, rest) → (length rest < length bs)%nat.
Proof.
  revert n rest. induction bs as [|b bs IH]; intros n rest; [done|].
  cbn. case_match; [intros [= _ <-]; lia|].
  destruct (read_varint bs) as [[hi r]|]; [|done]. cbn. intros [= _ <-].
  specialize (IH _ _ eq_refl). lia.
Qed.

Lemma read_varints_encode (xs : list N) rest :
  read_varints (length xs) ((xs ≫= varint) ++ rest) = Some (xs, rest).
Proof.
  induction xs as [|x xs IH]; [done|]. cbn [length read_varints].
  by rewrite bind_cons, <-app_assoc, read_varint_varint; cbn; rewrite IH.
Qed.

Lemma read_varints_length k bs (xs : list N) rest :
  read_varints k bs = Some (xs, rest) → (length rest ≤ length bs)%nat.
Proof.
  revert bs xs rest. induction k as [|k IH]; intros bs xs rest; cbn.
  { intros [= _ <-]. lia. }
  destruct (read_varint bs) as [[x r]|] eqn:Hx; [|done]. cbn.
  destruct (read_varints k r) as [[ys r']|] eqn:Hys; [|done]. cbn.
  intros [= _ <-]. apply read_varint_length in Hx. apply IH in Hys. lia.
Qed.

End numbers.

(** ** Blocks, records and headers round-trip *)

Section blocks.
Implicit Types (b : block) (i : N) (bs rest : list byte) (sz : option N).

Lemma read_block_encode b rest :
  block_ok b → b ≠ Empty → read_block (encode_block b ++ rest) = Some (b, rest).
Proof.
  intros Hok Hne. destruct b as [| |n|ts]; [done|..]; cbn [encode_block app read_block].
  - cbn. by rewrite decide_True.
  - cbn. rewrite read_varint_varint. cbn. by rewrite decide_True.
  - cbn. rewrite <-app_assoc, read_varint_varint. cbn.
    rewrite Nat2N.id, read_varints_encode. cbn. by rewrite decide_True.
Qed.

(** What is read is a valid block, whatever the buffer holds. *)
Lemma read_block_ok bs b rest : read_block bs = Some (b, rest) → block_ok b.
Proof.
  destruct bs as [|t bs]; [done|]. cbn [read_block].
  destruct (read_payload _ bs) as [[b' r]|]; [|done].
  cbn. case_decide; [|done]. by intros [= <- _].
Qed.

Lemma read_payload_length tag bs b rest :
  read_payload tag bs = Some (b, rest) → (length rest ≤ length bs)%nat.
Proof.
  unfold read_payload. destruct (tag =? 1); [intros [= _ <-]; lia|].
  destruct (read_varint bs) as [[k r1]|] eqn:Hk; [|by repeat case_match].
  apply read_varint_length in Hk. cbn.
  destruct (tag =? 2); [intros [= _ <-]; lia|]. destruct (tag =? 3); [|done].
  destruct (read_varints _ r1) as [[ts r2]|] eqn:Hts; [|done].
  apply read_varints_length in Hts. cbn. intros [= _ <-]. lia.
Qed.

Lemma read_block_length bs b rest :
  read_block bs = Some (b, rest) → (length rest < length bs)%nat.
Proof.
  destruct bs as [|t bs]; [done|]. cbn [read_block].
  destruct (read_payload _ bs) as [[b' r]|] eqn:Hr; [|done].
  apply read_payload_length in Hr.
  cbn. case_decide; [|done]. intros [= _ <-]. lia.
Qed.

Lemma read_record_encode i b rest :
  block_ok b → b ≠ Empty →
  read_record (encode_record i b ++ rest) = Some (i, b, rest).
Proof.
  intros. unfold read_record, encode_record.
  rewrite <-app_assoc, read_varint_varint. cbn. by rewrite read_block_encode.
Qed.

Lemma read_record_ok bs i b rest : read_record bs = Some (i, b, rest) → block_ok b.
Proof.
  unfold read_record. destruct (read_varint bs) as [[j r]|]; [|done]. cbn.
  destruct (read_block r) as [[b' r']|] eqn:Hb; [|done]. cbn.
  intros [= _ <- _]. by eapply read_block_ok.
Qed.

Lemma read_record_length bs i b rest :
  read_record bs = Some (i, b, rest) → (length rest < length bs)%nat.
Proof.
  unfold read_record. destruct (read_varint bs) as [[j r]|] eqn:Hi; [|done]. cbn.
  destruct (read_block r) as [[b' r']|] eqn:Hb; [|done]. cbn.
  intros [= _ _ <-]. apply read_varint_length in Hi. apply read_block_length in Hb.
  lia.
Qed.

Lemma read_header_encode sz rest :
  read_header (encode_header sz ++ rest) = Some (sz, rest).
Proof.
  destruct sz as [n|]; cbn; [|done]. by rewrite read_varint_varint.
Qed.

End blocks.

(** ** Items: a record or the end *)

Section items.
Implicit Types (b : block) (i n : N) (bs pre rest : list byte).

Lemma varint_go_cases fuel n :
  varint_go fuel n = [byte_of n]
  ∨ ∃ bs, varint_go fuel n = byte_of (128 + n mod 128) :: bs.
Proof. destruct fuel; cbn [varint_go]; [|case_match]; eauto. Qed.

(** The tag of a block that is not [Empty] is not 0. *)
Lemma encode_block_tag b :
  b ≠ Empty → ∃ t bs, encode_block b = t :: bs ∧ Byte.to_N t ≠ 0.
Proof. destruct b; [done|by eexists _, _..]. Qed.

Lemma is_end_cons (c : byte) bs : Byte.to_N c ≠ 0 → is_end (c :: bs) = false.
Proof. intros Hc%N.eqb_neq. destruct bs; cbn [is_end]; [done|]. by rewrite Hc. Qed.

Lemma is_end_record i b rest : b ≠ Empty → is_end (encode_record i b ++ rest) = false.
Proof.
  intros (t & bs & Hb & Ht)%encode_block_tag. unfold encode_record, varint.
  rewrite Hb. destruct (varint_go_cases (N.to_nat (N.size i)) i) as [->|[k ->]];
    cbn [app is_end].
  - apply andb_false_iff. right. by apply N.eqb_neq.
  - assert (i mod 128 < 128) by (by apply N.mod_lt).
    set (r := i mod 128) in *. clearbody r.
    apply is_end_cons. rewrite to_N_byte_of by lia. lia.
Qed.

Lemma is_end_prefix pre rest : is_end pre = true → is_end (pre ++ rest) = true.
Proof. by destruct pre as [|b0 [|b1 pre]]. Qed.

Lemma read_item_end rest : read_item (end_marker ++ rest) = Some (IEnd, rest).
Proof. done. Qed.

Lemma read_item_encode i b rest :
  block_ok b → b ≠ Empty →
  read_item (encode_record i b ++ rest) = Some (IBlock i b, rest).
Proof.
  intros Hok Hne. unfold read_item.
  by rewrite is_end_record, read_record_encode.
Qed.

Lemma read_item_ok bs i b rest : read_item bs = Some (IBlock i b, rest) → block_ok b.
Proof.
  unfold read_item. destruct (is_end bs); [done|].
  destruct (read_record bs) as [[[j b'] r]|] eqn:Hr; [|done].
  cbn. intros [= _ <- _]. by eapply read_record_ok.
Qed.

(** Reading an item consumes at least two bytes. *)
Lemma read_item_length bs (it : item) rest :
  read_item bs = Some (it, rest) → (length rest < length bs)%nat.
Proof.
  unfold read_item. destruct (is_end bs) eqn:He.
  - intros [= _ <-]. rewrite length_drop.
    destruct bs as [|b0 [|b1 bs]]; [done..|]. cbn. lia.
  - destruct (read_record bs) as [[[j b'] r]|] eqn:Hr; [|done].
    cbn. intros [= _ <-]. by eapply read_record_length.
Qed.

End items.

(** ** A buffer cut short cannot be read *)

Section truncated.
Implicit Types (b : block) (i n : N) (bs pre rest : list byte).

Lemma read_varint_cut_go fuel n pre :
  proper_prefix pre (varint_go fuel n) → read_varint pre = None.
Proof.
  revert n pre. induction fuel as [|fuel IH]; intros n pre; cbn [varint_go].
  { by intros [->|(p & -> & []%proper_prefix_nil)]%proper_prefix_cons_inv. }
  destruct (N.ltb_spec n 128).
  { by intros [->|(p & -> & []%proper_prefix_nil)]%proper_prefix_cons_inv. }
  intros [->|(p & -> & Hp%IH)]%proper_prefix_cons_inv; [done|].
  assert (n mod 128 < 128) by (by apply N.mod_lt).
  set (r := n mod 128) in *. clearbody r.
  cbn [read_varint]. cbv zeta. rewrite to_N_byte_of, Hp by lia.
  by destruct (N.ltb_spec (128 + r) 128); [lia|].
Qed.

Lemma read_varint_cut n pre : proper_prefix pre (varint n) → read_varint pre = None.
Proof. apply read_varint_cut_go. Qed.

Lemma read_varints_cut (xs : list N) pre :
  proper_prefix pre (xs ≫= varint) → read_varints (length xs) pre = None.
Proof.
  revert pre. induction xs as [|x xs IH]; intros pre.
  { by intros []%proper_prefix_nil. }
  rewrite bind_cons. cbn [length read_varints].
  intros [Hx%read_varint_cut|(p & -> & Hp%IH)]%proper_prefix_app_inv.
  - by rewrite Hx.
  - rewrite read_varint_varint. cbn. by rewrite Hp.
Qed.

Lemma read_block_cut b pre : proper_prefix pre (encode_block b) → read_block pre = None.
Proof.
  destruct b as [| |n|ts]; cbn [encode_block];
    (intros [->|(p & -> & Hp)]%proper_prefix_cons_inv; [done|]);
    [by apply proper_prefix_nil in Hp..| |]; cbn [read_block]; cbn.
  - by rewrite (read_varint_cut n p).
  - apply proper_prefix_app_inv in Hp as [Hk%read_varint_cut|(q & -> & Hq)].
    + by rewrite Hk.
    + rewrite read_varint_varint. cbn. rewrite Nat2N.id.
      by rewrite (read_varints_cut ts q).
Qed.

Lemma read_record_cut i b pre :
  proper_prefix pre (encode_record i b) → read_record pre = None.
Proof.
  unfold read_record, encode_record.
  intros [Hi%read_varint_cut|(p & -> & Hp%read_block_cut)]%proper_prefix_app_inv.
  - by rewrite Hi.
  - rewrite read_varint_varint. cbn. by rewrite Hp.
Qed.

(** A record cut short is neither a record nor the end. *)
Lemma read_item_cut i b pre :
  b ≠ Empty → proper_prefix pre (encode_record i b) → read_item pre = None.
Proof.
  intros Hb Hpre. unfold read_item. rewrite (read_record_cut i b) by done.
  destruct (is_end pre) eqn:He; [|done]. destruct Hpre as (suf & _ & Hsuf).
  apply (is_end_prefix _ suf) in He.
  by rewrite <-Hsuf, <-(app_nil_r (encode_record _ _)), is_end_record in He.
Qed.

Lemma read_item_cut_end pre : proper_prefix pre end_marker → read_item pre = None.
Proof.
  intros [->|(p & -> & [->|(q & -> & []%proper_prefix_nil)]%proper_prefix_cons_inv)]
    %proper_prefix_cons_inv; done.
Qed.

Lemma read_header_cut (sz : option N) pre :
  proper_prefix pre (encode_header sz) → read_header pre = None.
Proof.
  unfold encode_header.
  intros [->|(p & -> & Hp)]%proper_prefix_cons_inv; [done|].
  destruct sz as [n|];
    apply proper_prefix_cons_inv in Hp as [->|(q & -> & Hq)]; [done| |done|].
  - cbn. by rewrite (read_varint_cut n q).
  - by apply proper_prefix_nil in Hq.
Qed.

End truncated.
