(* ===== verification/Serial.v ===== *)
(** * Serial: the serializer and the operation deserializer

    [serialize] writes the header, one record for every stored block, in
    ascending block order, each block in the form [optimize_block] picks at
    the given level, and the end marker.  [deserialize] streams the records:
    each block read is folded at once into the destination block of the same
    index by the dispatch table of the operation engine, so no vector is
    built for the source.  Blocks the stream never mentions are blocks the
    source does not have; they are combined with [Empty] when the end marker
    is read.

    The file proves that the destination is a valid vector after any call,
    on any buffer; that on a serialized vector the call succeeds and gives
    the destination combined with that vector, whatever follows the vector
    in the buffer; and that a serialized vector cut short is refused. *)

From Stdlib Require Import NArith List String Lia.
From Stdlib.Strings Require Import Byte.
From stdpp Require Import base tactics numbers list option gmap sorting.
From S2P Require Import Prelude Interface Bits Block BVector Codec.

Local Open Scope N_scope.

(** ** Definitions *)

Definition serialize (bv : bvector) (level : N) : list byte :=
  encode_header (bv_size bv)
  ++ (block_indices bv ≫= λ i,
        encode_record i (optimize_block level (get_block bv i)))
  ++ end_marker.

(** A block read from a buffer that announces size [sz] is cut at [sz]. *)
Definition clip (sz : option N) (i : N) (b : block) : block :=
  match sz with
  | Some n => truncate_block n i b
  | None => b
  end.

(** One record folded into the destination. *)
Definition apply_record (op : operation) (sz : option N) (bv : bvector)
    (i : N) (b : block) : bvector :=
  set_block bv i (combine_block op (get_block bv i) (clip sz i b)).

(** The end of the stream: every block not seen meets [Empty]. *)
Definition finish (op : operation) (seen : list N) (bv : bvector) : bvector :=
  BVector (bv_size bv)
    (map_imap (λ i b, if decide (i ∈ seen) then Some b
                      else stored (combine_block op b Empty))
              (bv_store bv)).

(** The decoder reads items until the end marker; whatever follows the
    marker is not looked at.  A buffer that ends before the marker, or in
    which an item cannot be read, is refused, with the destination as the
    records read so far left it.  [fuel] bounds the number of items;
    [deserialize] passes more than the length of the buffer, and an item is
    at least two bytes. *)
Fixpoint decode_stream (fuel : nat) (op : operation) (sz : option N)
    (bv : bvector) (seen : list N) (buf : list byte) : bvector * option string :=
  match fuel with
  | O => (bv, Some "decoder out of steps"%string)
  | S fuel =>
      match read_item buf with
      | None => (bv, Some "malformed block record"%string)
      | Some (IEnd, _) => (finish op seen bv, None)
      | Some (IBlock i b, rest) =>
          decode_stream fuel op sz (apply_record op sz bv i b) (i :: seen) rest
      end
  end.

Definition deserialize (dst : bvector) (buf : list byte) (op : operation)
    : bvector * option string :=
  match read_header buf with
  | None => (dst, Some "bad header"%string)
  | Some (sz, rest) =>
      decode_stream (S (length rest)) op sz
        (BVector (size_max (bv_size dst) sz) (bv_store dst)) [] rest
  end.

(** ** One record, and the end of the stream *)

Section steps.
Implicit Types (bv : bvector) (b : block) (i o p : N) (sz : option N)
  (op : operation) (seen : list N).

Lemma bool_op_true op x y : bool_op op x y = true → x = true ∨ y = true.
Proof. destruct op, x, y; cbn; auto. Qed.

Lemma truncate_block_ok n i b : block_ok b → block_ok (truncate_block n i b).
Proof.
  intros Hb. unfold truncate_block. cbv zeta. repeat case_match; [done|done|].
  apply canonical_ok. cbn. auto with bm.
Qed.

Lemma clip_ok sz i b : block_ok b → block_ok (clip sz i b).
Proof. destruct sz; [apply truncate_block_ok|done]. Qed.

Lemma clip_bits sz i b o :
  o < block_width →
  N.testbit (block_bits (clip sz i b)) o
  = N.testbit (block_bits b) o && size_ltb (i * block_width + o) sz.
Proof.
  intros Ho. destruct sz as [n|]; cbn [clip size_ltb].
  - by apply truncate_block_bits.
  - by rewrite andb_true_r.
Qed.

Lemma apply_record_size op sz bv i b : bv_size (apply_record op sz bv i b) = bv_size bv.
Proof. done. Qed.

Lemma apply_record_store_wf op sz bv i b :
  store_wf (bv_store bv) → block_ok b →
  store_wf (bv_store (apply_record op sz bv i b)).
Proof.
  intros. apply set_block_store_wf; [|done].
  apply combine_block_ok; [auto with bm|by apply clip_ok].
Qed.

(** A record changes the positions of its block and no other. *)
Lemma get_bit_apply_record op sz bv i b p :
  store_wf (bv_store bv) → block_ok b →
  get_bit (apply_record op sz bv i b) p
  = if decide (p / block_width = i)
    then bool_op op (get_bit bv p)
           (N.testbit (block_bits b) (p mod block_width) && size_ltb p sz)
    else get_bit bv p.
Proof.
  intros Hst Hb. unfold apply_record. rewrite get_bit_set_block.
  case_decide as Hi; [|done]. subst i.
  rewrite combine_block_bits, bit_op_testbit by auto using clip_ok with bm.
  by rewrite clip_bits, <-position_split by apply offset_lt.
Qed.

Lemma apply_record_wf op sz bv i b :
  bv_wf bv → block_ok b → (∀ p, size_lt p sz → size_lt p (bv_size bv)) →
  bv_wf (apply_record op sz bv i b).
Proof.
  intros [Hst Hbd] Hb Hsz. split; [by apply apply_record_store_wf|].
  intros p. rewrite get_bit_apply_record by done.
  case_decide; [|by auto].
  intros [?|[_ ?%size_ltb_lt]%andb_true_iff]%bool_op_true; auto.
Qed.

Lemma get_block_finish op seen bv i :
  get_block (finish op seen bv) i
  = if decide (i ∈ seen) then get_block bv i
    else combine_block op (get_block bv i) Empty.
Proof.
  unfold get_block, finish. cbn [bv_store]. rewrite map_lookup_imap.
  destruct (bv_store bv !! i) as [b|]; cbn.
  - case_decide; [done|apply default_stored].
  - case_decide; [done|by destruct op].
Qed.

Lemma get_bit_finish op seen bv p :
  store_wf (bv_store bv) →
  get_bit (finish op seen bv) p
  = if decide (p / block_width ∈ seen) then get_bit bv p
    else bool_op op (get_bit bv p) false.
Proof.
  intros Hst. unfold get_bit. rewrite get_block_finish. case_decide; [done|].
  rewrite combine_block_bits, bit_op_testbit by (auto with bm; exact I).
  by rewrite N.bits_0.
Qed.

Lemma finish_wf op seen bv : bv_wf bv → bv_wf (finish op seen bv).
Proof.
  intros [Hst Hbd]. split.
  - intros i b'. unfold finish. cbn [bv_store]. rewrite map_lookup_imap.
    destruct (bv_store bv !! i) as [b|] eqn:Hi; cbn; [|done].
    destruct (Hst _ _ Hi) as [Hb Hne]. case_decide; [by intros [= <-]|].
    apply stored_wf, combine_block_wf; [done|apply Empty_wf].
  - intros p. rewrite get_bit_finish by done.
    case_decide; [by auto|]. intros [?|?]%bool_op_true; [by auto|done].
Qed.

End steps.

(** ** Any buffer leaves a valid destination *)

Section any_buffer.
Implicit Types (bv dst : bvector) (buf : list byte) (sz : option N)
  (op : operation) (seen : list N).

Lemma decode_stream_wf fuel op sz bv seen buf :
  bv_wf bv → (∀ p, size_lt p sz → size_lt p (bv_size bv)) →
  bv_wf (decode_stream fuel op sz bv seen buf).1.
Proof.
  revert bv seen buf. induction fuel as [|fuel IH]; intros bv seen buf Hwf Hsz;
    cbn [decode_stream]; [done|].
  destruct (read_item buf) as [[[i b|] rest]|] eqn:Hr; cbn [fst];
    auto using finish_wf.
  apply IH; [|done]. apply apply_record_wf; [done| |done].
  by eapply read_item_ok.
Qed.

(** The fuel [deserialize] passes is enough on any buffer: the decoder never
    stops for lack of steps. *)
Lemma decode_stream_steps fuel op sz bv seen buf :
  (length buf < fuel)%nat →
  (decode_stream fuel op sz bv seen buf).2 ≠ Some "decoder out of steps"%string.
Proof.
  revert bv seen buf. induction fuel as [|fuel IH]; intros bv seen buf Hlen;
    cbn [decode_stream]; [lia|].
  destruct (read_item buf) as [[[i b|] rest]|] eqn:Hr; [|done..].
  apply IH. apply read_item_length in Hr. lia.
Qed.

Lemma resized_wf dst sz :
  bv_wf dst → bv_wf (BVector (size_max (bv_size dst) sz) (bv_store dst)).
Proof.
  intros [Hst Hbd]. split; [done|]. intros p Hp. cbn.
  apply size_lt_max_l, Hbd, Hp.
Qed.

Lemma deserialize_wf dst buf op : bv_wf dst → bv_wf (deserialize dst buf op).1.
Proof.
  intros Hwf. unfold deserialize.
  destruct (read_header buf) as [[sz rest]|]; [|done].
  apply decode_stream_wf; [by apply resized_wf|]. cbn. auto with bm.
Qed.

Lemma deserialize_nil dst op : (deserialize dst [] op).2 ≠ None.
Proof. done. Qed.

End any_buffer.

(** ** A stream of records *)

(** The stream [serialize] writes is the records of the blocks [g i] for the
    indices [keys].  Decoding it runs [apply_record] over the indices and
    finishes; the fuel is never the reason to stop. *)

Section stream.
Context (op : operation) (sz : option N) (g : N → block).
Implicit Types (bv : bvector) (keys seen : list N) (i p : N).

Lemma decode_stream_records keys bv seen fuel rest :
  Forall (λ i, block_ok (g i) ∧ g i ≠ Empty) keys →
  (length (keys ≫= λ i, encode_record i (g i)) < fuel)%nat →
  decode_stream fuel op sz bv seen
    ((keys ≫= λ i, encode_record i (g i)) ++ end_marker ++ rest)
  = (finish op (reverse keys ++ seen)
       (foldl (λ bv i, apply_record op sz bv i (g i)) bv keys), None).
Proof.
  revert bv seen fuel.
  induction keys as [|i keys IH]; intros bv seen fuel Hok Hfuel;
    (destruct fuel as [|fuel]; [lia|]); cbn [decode_stream].
  { cbn [mbind list_bind app]. by rewrite read_item_end. }
  apply Forall_cons in Hok as [[Hi Hne] Hok].
  rewrite bind_cons, length_app in Hfuel. rewrite bind_cons, <-app_assoc.
  pose proof (read_item_encode i (g i) [] Hi Hne) as Hlen%read_item_length.
  rewrite app_nil_r in Hlen. cbn in Hlen.
  rewrite read_item_encode, IH by (done || lia).
  by rewrite reverse_cons, <-app_assoc.
Qed.

(** A stream cut short is refused, wherever it is cut. *)
Lemma decode_stream_cut keys bv seen fuel pre :
  Forall (λ i, block_ok (g i) ∧ g i ≠ Empty) keys →
  proper_prefix pre ((keys ≫= λ i, encode_record i (g i)) ++ end_marker) →
  (decode_stream fuel op sz bv seen pre).2 ≠ None.
Proof.
  revert bv seen fuel pre.
  induction keys as [|i keys IH]; intros bv seen fuel pre Hok;
    (destruct fuel as [|fuel]; [done|]); cbn [decode_stream].
  { cbn [mbind list_bind app]. by intros ->%read_item_cut_end. }
  apply Forall_cons in Hok as [[Hi Hne] Hok]. rewrite bind_cons, <-app_assoc.
  intros [Hcut|(p & -> & Hp)]%proper_prefix_app_inv.
  - by rewrite (read_item_cut i (g i)).
  - rewrite read_item_encode by done. by apply IH.
Qed.

Lemma fold_records_size keys bv :
  bv_size (foldl (λ bv i, apply_record op sz bv i (g i)) bv keys) = bv_size bv.
Proof. revert bv. induction keys as [|i keys IH]; intros; cbn; [done|by rewrite IH]. Qed.

Lemma fold_records_store_wf keys bv :
  (∀ i, block_ok (g i)) → store_wf (bv_store bv) →
  store_wf (bv_store (foldl (λ bv i, apply_record op sz bv i (g i)) bv keys)).
Proof.
  intros Hg. revert bv. induction keys as [|i keys IH]; intros bv Hst; cbn; [done|].
  by apply IH, apply_record_store_wf.
Qed.

(** With each index at most once, a position is combined once if its block
    is in the stream and is untouched if not. *)
Lemma get_bit_fold_records keys bv p :
  NoDup keys → (∀ i, block_ok (g i)) → store_wf (bv_store bv) →
  get_bit (foldl (λ bv i, apply_record op sz bv i (g i)) bv keys) p
  = if decide (p / block_width ∈ keys)
    then bool_op op (get_bit bv p)
           (N.testbit (block_bits (g (p / block_width))) (p mod block_width)
            && size_ltb p sz)
    else get_bit bv p.
Proof.
  intros Hnd Hg. revert bv.
  induction Hnd as [|i keys Hi Hnd IH]; intros bv Hst; cbn [foldl].
  { by rewrite decide_False by apply not_elem_of_nil. }
  rewrite IH, get_bit_apply_record by auto using apply_record_store_wf.
  destruct (decide (p / block_width = i)) as [->|Hne].
  - by rewrite decide_False, decide_True by (done || left).
  - destruct (decide (p / block_width ∈ keys)).
    + by rewrite decide_True by (by right).
    + rewrite decide_False; [done|]. by intros [?|?]%elem_of_cons.
Qed.

End stream.

(** ** A serialized vector *)

Section serialized.
Implicit Types (dst src bv : bvector) (level i p : N) (op : operation).

(** Every record [serialize] writes holds a valid block that is not [Empty]. *)
Lemma serialized_blocks src level :
  store_wf (bv_store src) →
  Forall (λ i, block_ok (optimize_block level (get_block src i))
               ∧ optimize_block level (get_block src i) ≠ Empty)
         (block_indices src).
Proof.
  intros Hst. apply Forall_forall. intros i [b Hb]%elem_of_block_indices.
  unfold get_block. rewrite Hb. cbn. destruct (Hst _ _ Hb) as [[Hok Hc] Hne].
  split; [by apply optimize_block_ok|].
  destruct (optimize_block_cases level b) as [->|(_ & _ & ? & _)]; congruence.
Qed.

(** Decoding a serialized vector into a destination succeeds, and the
    destination becomes the combination of the two, bit for bit. *)
Lemma deserialize_serialize_spec dst src level op :
  bv_wf dst → bv_wf src →
  ∃ r, deserialize dst (serialize src level) op = (r, None)
       ∧ bv_size r = size_max (bv_size dst) (bv_size src)
       ∧ ∀ p, get_bit r p = bool_op op (get_bit dst p) (get_bit src p).
Proof.
  intros [Hdst _] [Hsrc Hbd]. unfold deserialize, serialize.
  rewrite read_header_encode. change end_marker with (end_marker ++ []).
  rewrite decode_stream_records
    by (auto using serialized_blocks; rewrite length_app; lia).
  eexists. split; [done|]. split; [by cbn; rewrite fold_records_size|].
  intros p. rewrite app_nil_r.
  assert (∀ i, block_ok (optimize_block level (get_block src i))) as Hg
    by auto with bm.
  rewrite get_bit_finish, get_bit_fold_records
    by auto using fold_records_store_wf, block_indices_NoDup.
  rewrite (decide_ext _ (p / block_width ∈ block_indices src))
    by apply elem_of_reverse.
  case_decide as Hp; [|by rewrite (get_bit_absent src)].
  rewrite optimize_block_bits by auto with bm. f_equal.
  change (get_bit src p && size_ltb p (bv_size src) = get_bit src p).
  specialize (Hbd p). destruct (get_bit src p); [|done].
  by apply size_ltb_lt, Hbd.
Qed.

(** The same in the words of the contract: the destination is equivalent to
    decode-then-combine. *)
Lemma deserialize_serialize dst src level op :
  bv_wf dst → bv_wf src →
  (deserialize dst (serialize src level) op).2 = None
  ∧ @bv_equiv reference_bitvector
      (deserialize dst (serialize src level) op).1 (combine_operation dst src op).
Proof.
  intros Hdst Hsrc.
  destruct (deserialize_serialize_spec dst src level op Hdst Hsrc)
    as (r & -> & Hsz & Hget).
  split; [done|]. split; [done|]. intros p. cbn.
  by rewrite Hget, combine_operation_get.
Qed.

(** The stream is self-delimiting: what follows a serialized vector in the
    buffer is not looked at. *)
Lemma deserialize_self_delimiting dst src level op junk :
  bv_wf src →
  deserialize dst (serialize src level ++ junk) op
  = deserialize dst (serialize src level) op.
Proof.
  intros [Hsrc _]. unfold deserialize, serialize.
  rewrite <-!app_assoc, !read_header_encode.
  rewrite decode_stream_records
    by (auto using serialized_blocks; rewrite !length_app; lia).
  change end_marker with (end_marker ++ []).
  by rewrite decode_stream_records
    by (auto using serialized_blocks; rewrite !length_app; lia).
Qed.

(** A serialized vector cut short is refused, wherever it is cut. *)
Lemma deserialize_truncated dst src level op pre :
  bv_wf src → proper_prefix pre (serialize src level) →
  (deserialize dst pre op).2 ≠ None.
Proof.
  intros [Hsrc _]. unfold deserialize, serialize.
  intros [Hcut|(p & -> & Hp)]%proper_prefix_app_inv.
  - by rewrite (read_header_cut (bv_size src)).
  - rewrite read_header_encode.
    apply (decode_stream_cut _ _ (λ i, optimize_block level (get_block src i))
             (block_indices src)); [by apply serialized_blocks|done].
Qed.

End serialized.

(** ** The reference serializer meets the contract *)

#[export] Instance reference_serializer_ops : SerializerOps := {|
  Interface.serialize := serialize;
  Interface.deserialize := deserialize
|}.

#[export] Instance reference_serializer : Serializer := {|
  Interface.deserialize_wf := deserialize_wf;
  Interface.deserialize_serialize := deserialize_serialize;
  Interface.deserialize_nil := deserialize_nil;
  Interface.deserialize_truncated := deserialize_truncated
|}.
