(* ===== verification/Aggregator.v ===== *)
(** * Aggregator: many sources into one target

    The aggregator keeps the attached sources in order and an optimization
    flag.  A combine call scans the block stores of all sources together:
    for every block index some source has, it folds the blocks of that index
    from left to right and stops as soon as the accumulated block absorbs
    whatever follows ([Full] under OR, [Empty] under AND).  The target is
    overwritten by the result.

    The file proves that the short-circuit changes nothing, and that the
    result is the left fold of the binary operation over the sources. *)

From Stdlib Require Import NArith List Lia.
From stdpp Require Import base tactics numbers list option gmap sorting.
From S2P Require Import Prelude Interface Bits Block BVector Serial.

Local Open Scope N_scope.

(** ** Definitions *)

Record aggregator : Type := Aggregator {
  agg_sources : list bvector;
  agg_optimization : bool;
}.

Definition agg_new : aggregator := Aggregator [] false.

Definition add (agg : aggregator) (bv : bvector) : aggregator :=
  Aggregator (agg_sources agg ++ [bv]) (agg_optimization agg).

Definition set_optimization (agg : aggregator) : aggregator :=
  Aggregator (agg_sources agg) true.

Definition reset (agg : aggregator) : aggregator := agg_new.

(** The accumulated block that makes the rest of the scan pointless. *)
Definition absorbing (op : operation) (b : block) : bool :=
  match op, b with
  | BM_OR, Full | BM_AND, Empty => true
  | _, _ => false
  end.

Fixpoint fold_blocks (op : operation) (acc : block) (bs : list block) : block :=
  match bs with
  | [] => acc
  | b :: bs =>
      if absorbing op acc then acc
      else fold_blocks op (combine_block op acc b) bs
  end.

(** A vector built block by block from a function of the index. *)
Definition build (sz : option N) (keys : list N) (f : N → block) : bvector :=
  foldl (λ bv i, set_block bv i (f i)) (BVector sz ∅) keys.

(** Every block index some source has, ascending. *)
Definition all_indices (srcs : list bvector) : list N :=
  listing (srcs ≫= block_indices).

(** The scan over a first source and the others: at every index, the fold
    of the blocks of that index; the size is the largest of the sizes. *)
Definition scan (op : operation) (s : bvector) (srcs : list bvector) : bvector :=
  build (foldl (λ z x, size_max z (bv_size x)) (bv_size s) srcs)
        (all_indices (s :: srcs))
        (λ i, fold_blocks op (get_block s i) ((λ x, get_block x i) <$> srcs)).

(** With no source the target is cleared. *)
Definition agg_combine (op : operation) (agg : aggregator) (target : bvector)
    : bvector :=
  match agg_sources agg with
  | [] => BVector (bv_size target) ∅
  | s :: srcs =>
      let r := scan op s srcs in
      if agg_optimization agg then optimize r opt_compress else r
  end.

Definition agg_combine_or : aggregator → bvector → bvector := agg_combine BM_OR.
Definition agg_combine_and : aggregator → bvector → bvector := agg_combine BM_AND.

(** ** Folding blocks *)

Section fold_blocks.
Implicit Types (op : operation) (acc b : block) (bs : list block) (o : N).

Lemma absorbing_combine op acc b :
  absorbing op acc = true → combine_block op acc b = acc.
Proof. by destruct op, acc, b. Qed.

(** The short-circuit is an optimization: the scan gives the block the
    plain fold gives. *)
Lemma fold_blocks_foldl op acc bs :
  fold_blocks op acc bs = foldl (combine_block op) acc bs.
Proof.
  revert acc. induction bs as [|b bs IH]; intros acc; cbn; [done|].
  rewrite <-IH. destruct (absorbing op acc) eqn:Ha; [|done].
  rewrite absorbing_combine by done. clear IH.
  induction bs as [|b' bs IH]; cbn; by rewrite ?Ha.
Qed.

Lemma fold_blocks_ok op acc bs :
  block_ok acc → Forall block_ok bs → block_ok (fold_blocks op acc bs).
Proof.
  rewrite fold_blocks_foldl. intros Hacc Hbs. revert acc Hacc.
  induction Hbs; intros; cbn; auto with bm.
Qed.

Lemma fold_blocks_bits op acc bs o :
  block_ok acc → Forall block_ok bs →
  N.testbit (block_bits (fold_blocks op acc bs)) o
  = foldl (λ x b, bool_op op x (N.testbit (block_bits b) o))
          (N.testbit (block_bits acc) o) bs.
Proof.
  rewrite fold_blocks_foldl. intros Hacc Hbs. revert acc Hacc.
  induction Hbs as [|b bs Hb Hbs IH]; intros acc Hacc; cbn; [done|].
  by rewrite IH, combine_block_bits, bit_op_testbit by auto with bm.
Qed.

End fold_blocks.

(** ** Building a vector *)

Section build.
Context (f : N → block) (Hf : ∀ i, block_ok (f i)).
Implicit Types (bv : bvector) (keys : list N) (i p : N) (sz : option N).

Lemma get_block_set_blocks keys bv i :
  get_block (foldl (λ bv i, set_block bv i (f i)) bv keys) i
  = if decide (i ∈ keys) then canonical (f i) else get_block bv i.
Proof.
  revert bv. induction keys as [|k keys IH]; intros bv; cbn [foldl].
  { by rewrite decide_False by apply not_elem_of_nil. }
  rewrite IH, get_block_set_block. destruct (decide (i ∈ keys)).
  - by rewrite decide_True by (by right).
  - destruct (decide (k = i)) as [->|].
    + by rewrite decide_True by left.
    + rewrite decide_False; [done|]. by intros [?|?]%elem_of_cons.
Qed.

Lemma set_blocks_store_wf keys bv :
  store_wf (bv_store bv) →
  store_wf (bv_store (foldl (λ bv i, set_block bv i (f i)) bv keys)).
Proof.
  revert bv. induction keys as [|k keys IH]; intros bv Hst; cbn; [done|].
  by apply IH, set_block_store_wf.
Qed.

Lemma set_blocks_size keys bv :
  bv_size (foldl (λ bv i, set_block bv i (f i)) bv keys) = bv_size bv.
Proof. revert bv. induction keys as [|k keys IH]; intros; cbn; [done|by rewrite IH]. Qed.

Lemma build_size sz keys : bv_size (build sz keys f) = sz.
Proof. apply set_blocks_size. Qed.

Lemma build_store_wf sz keys : store_wf (bv_store (build sz keys f)).
Proof. apply set_blocks_store_wf. by intros i b. Qed.

Lemma get_bit_build sz keys p :
  get_bit (build sz keys f) p
  = if decide (p / block_width ∈ keys)
    then N.testbit (block_bits (f (p / block_width))) (p mod block_width)
    else false.
Proof.
  unfold get_bit, build. rewrite get_block_set_blocks.
  case_decide; [by rewrite canonical_bits|done].
Qed.

End build.

(** ** The fold over whole vectors *)

Section fold_vectors.
Context (op : operation).
Implicit Types (s x : bvector) (srcs : list bvector) (p : N).

Lemma fold_vectors_wf s srcs :
  bv_wf s → Forall bv_wf srcs →
  bv_wf (foldl (λ acc x, combine_operation acc x op) s srcs).
Proof.
  intros Hs Hsrcs. revert s Hs.
  induction Hsrcs; intros; cbn; auto with bm.
Qed.

Lemma fold_vectors_size s srcs :
  bv_size (foldl (λ acc x, combine_operation acc x op) s srcs)
  = foldl (λ z x, size_max z (bv_size x)) (bv_size s) srcs.
Proof. revert s. induction srcs as [|x srcs IH]; intros; cbn; [done|by rewrite IH]. Qed.

Lemma fold_vectors_get s srcs p :
  bv_wf s → Forall bv_wf srcs →
  get_bit (foldl (λ acc x, combine_operation acc x op) s srcs) p
  = foldl (λ b x, bool_op op b (get_bit x p)) (get_bit s p) srcs.
Proof.
  intros Hs Hsrcs. revert s Hs.
  induction Hsrcs as [|x srcs Hx Hsrcs IH]; intros s Hs; cbn; [done|].
  by rewrite IH, combine_operation_get by auto with bm.
Qed.

(** Where no source has a block, no source has a member, and so has the fold. *)
Lemma fold_bits_absent srcs p :
  Forall (λ x, get_bit x p = false) srcs →
  foldl (λ b x, bool_op op b (get_bit x p)) false srcs = false.
Proof.
  induction 1 as [|x srcs Hx _ IH]; cbn; [done|]. rewrite Hx.
  by destruct op.
Qed.

Lemma all_indices_absent srcs p :
  p / block_width ∉ all_indices srcs → Forall (λ x, get_bit x p = false) srcs.
Proof.
  unfold all_indices. rewrite elem_of_listing, list_elem_of_bind.
  intros Hp. apply Forall_forall. intros x Hx.
  apply get_bit_absent. naive_solver.
Qed.

End fold_vectors.

(** ** The combine calls *)

Section combine.
Context (op : operation).
Implicit Types (agg : aggregator) (target s : bvector) (srcs : list bvector) (p : N).

Lemma source_blocks_ok srcs i :
  Forall bv_wf srcs → Forall block_ok ((λ x, get_block x i) <$> srcs).
Proof.
  intros Hsrcs. apply Forall_fmap. eapply Forall_impl; [done|].
  intros x [Hx _]. cbn. auto with bm.
Qed.

Lemma scan_size s srcs :
  bv_size (scan op s srcs)
  = bv_size (foldl (λ acc x, combine_operation acc x op) s srcs).
Proof. unfold scan. by rewrite build_size, fold_vectors_size. Qed.

(** The interleaved scan computes the left fold of the binary operation. *)
Lemma scan_get s srcs p :
  bv_wf s → Forall bv_wf srcs →
  get_bit (scan op s srcs) p
  = get_bit (foldl (λ acc x, combine_operation acc x op) s srcs) p.
Proof.
  intros Hs Hsrcs. unfold scan. rewrite get_bit_build, fold_vectors_get by done.
  case_decide as Hp.
  - rewrite fold_blocks_bits, foldl_fmap; [done|by destruct Hs; auto with bm|].
    by apply source_blocks_ok.
  - apply all_indices_absent in Hp. apply Forall_cons in Hp as [-> Hp].
    by rewrite fold_bits_absent.
Qed.

Lemma scan_wf s srcs : bv_wf s → Forall bv_wf srcs → bv_wf (scan op s srcs).
Proof.
  intros Hs Hsrcs. split.
  - apply build_store_wf. intros i.
    apply fold_blocks_ok; [by destruct Hs; auto with bm|by apply source_blocks_ok].
  - intros p. rewrite scan_get, scan_size by done.
    by apply (fold_vectors_wf op s srcs).
Qed.

Lemma agg_combine_wf agg target :
  Forall bv_wf (agg_sources agg) → bv_wf target → bv_wf (agg_combine op agg target).
Proof.
  intros Hsrcs Ht. unfold agg_combine.
  destruct (agg_sources agg) as [|s srcs].
  { split; [done|]. intros p. by rewrite get_bit_empty. }
  apply Forall_cons in Hsrcs as [Hs Hsrcs]. cbv zeta.
  destruct (agg_optimization agg); auto using scan_wf with bm.
Qed.

Lemma agg_combine_nil agg target p :
  agg_sources agg = [] → get_bit (agg_combine op agg target) p = false.
Proof. intros Hs. unfold agg_combine. rewrite Hs. apply get_bit_empty. Qed.

(** Whether optimized or not, the target becomes the left fold of the
    operation over the sources. *)
Lemma agg_combine_fold agg target s srcs :
  agg_sources agg = s :: srcs → Forall bv_wf (s :: srcs) → bv_wf target →
  @bv_equiv reference_bitvector (agg_combine op agg target)
    (foldl (λ acc x, combine_operation acc x op) s srcs).
Proof.
  intros Hagg [Hs Hsrcs]%Forall_cons _. unfold agg_combine. rewrite Hagg.
  cbv zeta. split; [|intros p];
    cbn [Interface.bv_size Interface.get_bit reference_bitvector].
  - destruct (agg_optimization agg); by rewrite ?optimize_size, scan_size.
  - destruct (agg_optimization agg);
      by rewrite ?optimize_get, scan_get by auto using scan_wf.
Qed.

End combine.

(** ** The reference aggregator meets the contract *)

#[export] Instance reference_aggregator : Interface.Aggregator := {|
  Interface.aggregator := aggregator;
  Interface.agg_sources := agg_sources;
  Interface.agg_optimization := agg_optimization;
  Interface.agg_new := agg_new;
  Interface.add := add;
  Interface.set_optimization := set_optimization;
  Interface.reset := reset;
  Interface.agg_combine_or := agg_combine_or;
  Interface.agg_combine_and := agg_combine_and;
  Interface.agg_new_sources := eq_refl;
  Interface.agg_new_optimization := eq_refl;
  Interface.add_sources := λ _ _, eq_refl;
  Interface.add_optimization := λ _ _, eq_refl;
  Interface.set_optimization_sources := λ _, eq_refl;
  Interface.set_optimization_on := λ _, eq_refl;
  Interface.reset_new := λ _, eq_refl;
  Interface.agg_combine_or_wf := agg_combine_wf BM_OR;
  Interface.agg_combine_or_nil := λ agg target p H _, agg_combine_nil BM_OR agg target p H;
  Interface.agg_combine_or_fold := agg_combine_fold BM_OR;
  Interface.agg_combine_and_wf := agg_combine_wf BM_AND;
  Interface.agg_combine_and_fold := agg_combine_fold BM_AND
|}.

