(* ===== verification/Reference.v ===== *)
(** * Reference: the premises of the theorems can be met

    The driver is stated over the interface.  Here the instances of
    [BVector], [Cursor], [Serial] and [Aggregator] are plugged in and each
    theorem of [Printer] and [Driver] that has premises is applied to
    concrete vectors of the reference engine, with its premises discharged
    by evaluation.  For the error path of [main] the decoder of the
    reference engine is paired with a serializer that writes nothing. *)

From Stdlib Require Import NArith ZArith String List Lia.
From Stdlib.Strings Require Import Byte.
From stdpp Require Import base tactics numbers list sorting relations.
From S2P Require Import Prelude Runtime Interface Printer Driver.
From S2P Require BVector Cursor Serial Aggregator.

#[local] Existing Instance BVector.reference_bitvector.
#[local] Existing Instance Cursor.reference_enumerator.
#[local] Existing Instance Serial.reference_serializer_ops.
#[local] Existing Instance Serial.reference_serializer.
#[local] Existing Instance Aggregator.reference_aggregator.

Local Open Scope N_scope.
Local Open Scope string_scope.
Local Open Scope list_scope.

(** ** Concrete vectors *)

(** The union of the first block of [DemoOR], built in two ways: by the
    operation engine and optimized, and directly from its members. *)
Definition union_built : bvector :=
  optimize (bit_or (bvector_of demo_A) (bvector_of demo_B)) opt_compress.

Definition union_listed : bvector := bvector_of [4; 3; 2; 1]%N.

(** A vector of exactly ten members. *)
Definition ten_members : bvector :=
  bvector_of [1; 2; 3; 4; 5; 6; 7; 8; 9; 10]%N.

(** The loop over [union_listed] before its first iteration. *)
Definition loop_start : loop_state := LoopState (first union_listed) 0.

(** An aggregator on which [set_optimization] was not called. *)
Definition plain_aggregator : aggregator :=
  add (add (add agg_new (bvector_of or_src_A)) (bvector_of or_src_B))
      (bvector_of or_src_C).

(** A serializer that writes nothing, with the decoder of the reference
    engine: the decoder refuses every buffer it is given. *)
Definition silent_serializer : SerializerOps := {|
  Interface.serialize := λ _ _, [];
  Interface.deserialize := Serial.deserialize
|}.

(** ** [Printer] *)

Lemma print_bvector_spec_witness :
  stdout (print_bvector union_listed)
  = (take 10 (positions union_listed) ≫= λ p, [TNum p; TStr ", "])
    ++ (if decide (10 ≤ length (positions union_listed))%nat
        then [TStr " ..."] else [])
    ++ [TStr "(size = "; TSize (bv_size union_listed); TStr ")"; TEndl]
  ∧ stderr (print_bvector union_listed) = []
  ∧ result (print_bvector union_listed) = Normal tt.
Proof. apply print_bvector_spec, bvector_of_wf. Defined.

Lemma print_bvector_text_witness :
  text "4294967295" (stdout (print_bvector ten_members))
  = line_text "4294967295" (positions ten_members) (bv_size ten_members).
Proof. apply print_bvector_text, bvector_of_wf. Defined.

Lemma print_bvector_equiv_witness :
  print_bvector union_built = print_bvector union_listed.
Proof.
  apply print_bvector_equiv.
  - apply optimize_wf, bit_or_wf; apply bvector_of_wf.
  - apply bvector_of_wf.
  - reflexivity.
  - intros p. unfold union_built, union_listed.
    rewrite optimize_get, bit_or_get, !bvector_of_get
      by auto using bit_or_wf, bvector_of_wf.
    unfold demo_A, demo_B. members.
Defined.

Lemma printed_smallest_witness :
  StronglySorted N.lt (numbers (stdout (print_bvector ten_members)))
  ∧ (3%N ∈ numbers (stdout (print_bvector ten_members)) →
     get_bit ten_members 3 = true)
  ∧ (3%N ∈ numbers (stdout (print_bvector ten_members)) →
     get_bit ten_members 2 = true → (2 < 3)%N →
     2%N ∈ numbers (stdout (print_bvector ten_members))).
Proof. apply printed_smallest, bvector_of_wf. Defined.

Lemma print_bvector_ellipsis_witness :
  stdout (print_bvector ten_members)
  = (positions ten_members ≫= λ p, [TNum p; TStr ", "])
    ++ [TStr " ..."; TStr "(size = "; TSize (bv_size ten_members); TStr ")"; TEndl].
Proof. apply print_bvector_ellipsis; [apply bvector_of_wf|by vm_compute]. Defined.

Lemma print_loop_refines_witness :
  ∃ s' out,
    print_loop 10 (LoopState (first ten_members) 0) = (out, Normal s')
    ∧ rtc loop_step (LoopState (first ten_members) 0, []) (s', out)
    ∧ nf loop_step (s', out)
    ∧ print_loop 10 (LoopState (first ten_members) 0)
      = print_loop (loop_variant (LoopState (first ten_members) 0))
                   (LoopState (first ten_members) 0).
Proof. apply print_loop_refines. by vm_compute. Defined.

(** The invariant after the first iteration over [union_listed]. *)
Lemma loop_invariant_witness :
  en_rest (ls_en (loop_next loop_start))
  = drop (N.to_nat (ls_cnt (loop_next loop_start))) (positions union_listed)
  ∧ [] ++ events (loop_body loop_start)
    = number_events
        (take (N.to_nat (ls_cnt (loop_next loop_start))) (positions union_listed))
  ∧ (ls_cnt (loop_next loop_start) ≤ 10)%N.
Proof.
  apply loop_invariant; [apply bvector_of_wf|].
  apply rtc_once, loop_iter. reflexivity.
Defined.

(** ** [Driver] *)

Lemma or_c_array_witness : or_c_array demo_A demo_B = or_bit_or demo_A demo_B.
Proof. apply or_c_array_spec. unfold demo_B. repeat constructor; lia. Defined.

Lemma make_BLOB_deserialize_witness :
  ∃ r, deserialize (bvector_of demo_A) (make_BLOB [] (bvector_of demo_B)).1 BM_AND
       = (r, None)
       ∧ bv_wf r
       ∧ bv_size r = size_max (bv_size (bvector_of demo_A)) (bv_size (bvector_of demo_B))
       ∧ ∀ p, get_bit r p
              = bool_op BM_AND (get_bit (bvector_of demo_A) p)
                               (get_bit (bvector_of demo_B) p).
Proof. apply make_BLOB_deserialize; apply bvector_of_wf. Defined.

Lemma make_BLOB_roundtrip_witness :
  ∃ r, deserialize (resize (bvector_of []) 0) (make_BLOB [] union_built).1 set_OR
       = (r, None)
       ∧ bv_wf r ∧ print_bvector r = print_bvector union_built.
Proof.
  apply make_BLOB_roundtrip.
  apply optimize_wf, bit_or_wf; apply bvector_of_wf.
Defined.

(** The BLOB of [{1, 2, 4}] decodes, and without its last two bytes it is
    refused. *)
Lemma make_BLOB_delimited_witness :
  (deserialize (bvector_of demo_A)
     (make_BLOB [xff; x42] (bvector_of demo_B)).1 set_OR).2 = None
  ∧ (deserialize (bvector_of demo_A)
       (take 9 (make_BLOB [xff; x42] (bvector_of demo_B)).1) set_OR).2 ≠ None.
Proof.
  destruct (make_BLOB_delimited (bvector_of demo_A) (bvector_of demo_B)
              [xff; x42] set_OR
              (take 9 (make_BLOB [xff; x42] (bvector_of demo_B)).1))
    as [Hok Hcut]; [apply bvector_of_wf..|].
  split; [exact Hok|]. apply Hcut, proper_prefix_take. vm_compute. lia.
Defined.

Lemma aggregator_fold_any_order_witness :
  or_aggregator or_src_A or_src_B or_src_C
  = print_bvector (bit_or (bit_or (bvector_of or_src_C) (bvector_of or_src_A))
                          (bvector_of or_src_B))
  ∧ and_aggregator or_src_A or_src_B or_src_C
    = print_bvector
        (bit_and (bit_and (bvector_of or_src_C) (bvector_of or_src_A))
                 (bvector_of or_src_B)).
Proof.
  apply aggregator_fold_any_order.
  apply (Permutation_app_comm [or_src_A; or_src_B] [or_src_C]).
Defined.

(** Without [set_optimization], and into a target that holds 7, 8 and 9. *)
Lemma aggregator_any_target_witness :
  print_bvector (agg_combine_or plain_aggregator (bvector_of [7; 8; 9]%N))
  = or_aggregator or_src_A or_src_B or_src_C
  ∧ print_bvector (agg_combine_and plain_aggregator (bvector_of [7; 8; 9]%N))
    = and_aggregator or_src_A or_src_B or_src_C.
Proof. apply aggregator_any_target; [reflexivity|apply bvector_of_wf]. Defined.

(** The range of the demo against itself reversed and with repetitions. *)
Lemma stl_range_as_set_witness :
  or_stl demo_A demo_B = or_stl demo_A [4; 2; 2; 1; 1]%N
  ∧ and_stl demo_A demo_B = and_stl demo_A [4; 2; 2; 1; 1]%N.
Proof.
  apply stl_range_as_set. intros p. unfold demo_B.
  rewrite !elem_of_cons, !elem_of_nil. tauto.
Defined.

(** [main] over the serializer that writes nothing: the decoder refuses the
    empty buffer of the sixth block. *)
Lemma main_decode_failure_witness :
  result (@main _ _ silent_serializer _) = Normal 0%Z
  ∧ stdout (@main _ _ silent_serializer _)
    = [TEndl; TStr "Set Union (OR) demo"; TEndl; TEndl]
      ++ printed [1; 2; 3; 4]%N None ++ printed [1; 2; 3; 4]%N (Some 10%N)
      ++ printed [1; 2; 3; 4]%N None ++ printed [1; 2; 3; 4]%N None
      ++ printed [1; 2; 3; 4]%N None
  ∧ stderr (@main _ _ silent_serializer _) = [TStr "bad header"; TEndl].
Proof. apply (@main_decode_failure _ _ silent_serializer _). reflexivity. Defined.
